(** * Relay intelligence engine: shallow embedding and verified properties

    The development follows the TypeScript sources of the relay optimizer:
    - [lib/relay-utils.ts]          identity normalizer ([RelayUtils]),
    - [hooks/useRelayPing.ts]       health prober ([RelayPing]) and the
                                    contact aggregator ([ContactRelays]),
    - [hooks/usePublishRelayLists.ts] publication orchestrator ([Publish]),
    - [hooks/useUserRelays.ts]      re-parsing of kind-10002 tags ([UserRelays]),
    - [hooks/useRelayReviews.ts]    review parsing ([Reviews]), stars and
                                    summaries ([ReviewQueries]), submission
                                    ([ReviewSubmit]),
    - [lib/relay-utils.ts], the rest display, ordering, wording ([RelayDisplay]),
    - [hooks/useUserRelays.ts]      fetching the lists ([UserRelaysQuery]),
    - [hooks/usePublishRelayLists.ts] toasts ([PublishToasts]),
    - [components/relay-optimizer/RelayOptimizerPage.tsx] handlers ([Page]).

    JavaScript strings are modelled as [string] (ASCII), arrays as lists,
    [Set]/[Map] whose iteration order is observable as lists in insertion
    order, the status map as a [gmap], numbers that are integers as [Z] and
    the review rating as a binary64 [float]. *)

From Stdlib Require Import String Ascii ZArith Lia Bool Floats DecimalString Sorted.
From stdpp Require Import gmap strings list.

Open Scope string_scope.

(* [set_solver] clears hypotheses that its preprocessing already removed. *)
Set Warnings "-clear-no-such-hyp".

(** ** String primitives of the JavaScript runtime *)

Module JsString.

Definition is_upper (c : ascii) : bool :=
  (65 <=? nat_of_ascii c)%nat && (nat_of_ascii c <=? 90)%nat.

Definition is_lower (c : ascii) : bool :=
  (97 <=? nat_of_ascii c)%nat && (nat_of_ascii c <=? 122)%nat.

Definition is_digit (c : ascii) : bool :=
  (48 <=? nat_of_ascii c)%nat && (nat_of_ascii c <=? 57)%nat.

Definition is_alpha (c : ascii) : bool := is_upper c || is_lower c.

Definition lower_ascii (c : ascii) : ascii :=
  if is_upper c then ascii_of_nat (nat_of_ascii c + 32) else c.

(** [s.toLowerCase()] on ASCII text. *)
Fixpoint toLowerCase (s : string) : string :=
  match s with
  | EmptyString => EmptyString
  | String c s' => String (lower_ascii c) (toLowerCase s')
  end.

(** [s.replace(/\/$/, '')]: the pattern is anchored at the end of the
    input and matches a single slash, so at most one character goes. *)
Fixpoint strip_trailing_slash (s : string) : string :=
  match s with
  | EmptyString => EmptyString
  | String c s' =>
      match s' with
      | EmptyString => if Ascii.eqb c "/" then EmptyString else String c EmptyString
      | String _ _ => String c (strip_trailing_slash s')
      end
  end.

Fixpoint ends_with_slash (s : string) : bool :=
  match s with
  | EmptyString => false
  | String c s' =>
      match s' with
      | EmptyString => Ascii.eqb c "/"
      | String _ _ => ends_with_slash s'
      end
  end.

(** [s.startsWith(p)]. *)
Fixpoint startsWith (p s : string) : bool :=
  match p, s with
  | EmptyString, _ => true
  | String a p', String b s' => Ascii.eqb a b && startsWith p' s'
  | String _ _, EmptyString => false
  end.

(** [s.includes(p)]. *)
Fixpoint includes (p s : string) : bool :=
  startsWith p s ||
  match s with
  | EmptyString => false
  | String _ s' => includes p s'
  end.

Fixpoint skip (n : nat) (s : string) : string :=
  match n, s with
  | O, _ => s
  | S n', String _ s' => skip n' s'
  | S _, EmptyString => EmptyString
  end.

(** [s.replace(p, r)] with a string pattern: only the first occurrence
    is replaced. *)
Fixpoint replace_first (p r s : string) : string :=
  if startsWith p s then r +:+ skip (String.length p) s
  else match s with
       | EmptyString => EmptyString
       | String c s' => String c (replace_first p r s')
       end.

(** Longest prefix whose characters all satisfy [f], and what follows. *)
Fixpoint span (f : ascii -> bool) (s : string) : string * string :=
  match s with
  | EmptyString => (EmptyString, EmptyString)
  | String c s' =>
      if f c then let '(a, b) := span f s' in (String c a, b)
      else (EmptyString, s)
  end.

Fixpoint all_chars (f : ascii -> bool) (s : string) : bool :=
  match s with
  | EmptyString => true
  | String c s' => f c && all_chars f s'
  end.

Definition is_empty (s : string) : bool :=
  match s with EmptyString => true | String _ _ => false end.

(** First character satisfies [f] (false on the empty string). *)
Definition head_is (f : ascii -> bool) (s : string) : bool :=
  match s with EmptyString => false | String c _ => f c end.

End JsString.

Import JsString.

(** ** The platform's [URL] class, on relay URLs

    [new URL(s)] is not code of the repository.  It is modelled on the
    URLs the relay lists hold: a special scheme ([ws], [wss], [http],
    [https]), a host, an optional decimal port and a path, query and
    fragment that are kept as written.  A string without a scheme fails to
    parse, as on the platform (there is no base URL).  The model leaves
    out the other schemes (a string with another scheme is treated as one
    that does not parse), credentials, IPv4/IPv6 hosts, IDNA,
    percent-encoding and dot-segment removal: [Url.host_plain] and
    [Url.rest_plain] delimit the inputs on which it is exact, and the
    general statements about parsed URLs are made on those. *)

Module Url.

Record URL := mkURL {
  scheme : string;            (* without the colon, lower case *)
  host : string;
  port_num : option N;        (* [None]: the scheme's default port *)
  path : string;              (* serialized, starts with a slash *)
  query : option string;      (* without the question mark *)
  fragment : option string    (* without the hash sign *)
}.

Definition is_colon (c : ascii) : bool := Ascii.eqb c ":".
Definition is_slash (c : ascii) : bool := Ascii.eqb c "/" || Ascii.eqb c "\".
Definition is_question (c : ascii) : bool := Ascii.eqb c "?".
Definition is_hash (c : ascii) : bool := Ascii.eqb c "#".

(** Characters that end the authority of a special URL. *)
Definition is_authority_end (c : ascii) : bool :=
  is_slash c || is_question c || is_hash c.

Definition scheme_char (c : ascii) : bool :=
  is_alpha c || is_digit c || Ascii.eqb c "+" || Ascii.eqb c "-" || Ascii.eqb c ".".

Definition valid_scheme (s : string) : bool :=
  head_is is_alpha s && all_chars scheme_char s.

Definition special_scheme (s : string) : bool :=
  String.eqb s "ws" || String.eqb s "wss" || String.eqb s "http" || String.eqb s "https".

Definition default_port (s : string) : option N :=
  if String.eqb s "ws" || String.eqb s "http" then Some 80%N
  else if String.eqb s "wss" || String.eqb s "https" then Some 443%N
  else None.

(** Forbidden domain code points. *)
Definition forbidden_host_char (c : ascii) : bool :=
  (nat_of_ascii c <=? 32)%nat || (127 <=? nat_of_ascii c)%nat ||
  Ascii.eqb c "#" || Ascii.eqb c "%" || Ascii.eqb c "/" || Ascii.eqb c ":" ||
  Ascii.eqb c "<" || Ascii.eqb c ">" || Ascii.eqb c "?" || Ascii.eqb c "@" ||
  Ascii.eqb c "[" || Ascii.eqb c "\" || Ascii.eqb c "]" || Ascii.eqb c "^" ||
  Ascii.eqb c "|".

Definition valid_host (h : string) : bool :=
  negb (is_empty h) && all_chars (fun c => negb (forbidden_host_char c)) h.

Fixpoint digits_value (acc : N) (s : string) : N :=
  match s with
  | EmptyString => acc
  | String c s' => digits_value (10 * acc + N.of_nat (nat_of_ascii c - 48)) s'
  end.

(** The port of an authority: what follows the host is empty or a colon
    and digits; a value above 65535 is a failure. *)
Definition parse_port (s : string) : option (option N) :=
  match s with
  | EmptyString => Some None
  | String _ ds =>
      if all_chars is_digit ds then
        if is_empty ds then Some None
        else let n := digits_value 0 ds in
             if (n <=? 65535)%N then Some (Some n) else None
      else None
  end.

Definition strip_default (s : string) (p : option N) : option N :=
  match p, default_port s with
  | Some n, Some d => if (n =? d)%N then None else Some n
  | _, _ => p
  end.

(** Path, query and fragment of what follows the authority. *)
Definition parse_rest (r : string) : string * option string * option string :=
  let '(p, r1) := span (fun c => negb (is_question c || is_hash c)) r in
  let '(q, r2) :=
    match r1 with
    | String c r1' =>
        if is_question c then
          let '(q, r2) := span (fun c => negb (is_hash c)) r1' in (Some q, r2)
        else (None, r1)
    | EmptyString => (None, r1)
    end in
  let f := match r2 with String _ f => Some f | EmptyString => None end in
  (if is_empty p then "/" else p, q, f).

(** [new URL(input)]; [None] is the thrown [TypeError]. *)
Definition parse (input : string) : option URL :=
  let '(sch, after) := span (fun c => negb (is_colon c)) input in
  match after with
  | EmptyString => None
  | String _ after =>
      let s := toLowerCase sch in
      if valid_scheme sch && special_scheme s then
        let '(auth, rest) :=
          span (fun c => negb (is_authority_end c)) (snd (span is_slash after)) in
        let '(h, portpart) := span (fun c => negb (is_colon c)) auth in
        if valid_host h then
          match parse_port portpart with
          | Some p =>
              let '(pth, q, f) := parse_rest rest in
              Some (mkURL s (toLowerCase h) (strip_default s p) pth q f)
          | None => None
          end
        else None
      else None
  end.

(** Getters. *)
Definition protocol (u : URL) : string := scheme u +:+ ":".
Definition hostname (u : URL) : string := host u.
Definition port (u : URL) : string :=
  match port_num u with
  | None => ""
  | Some n => NilZero.string_of_uint (N.to_uint n)
  end.
Definition pathname (u : URL) : string := path u.

(** Setters, as far as [normalizeRelayUrl] uses them.  A host that does
    not parse leaves the URL unchanged; the path of a special URL is
    never empty, so setting it to [''] leaves a single slash. *)
Definition set_hostname (u : URL) (h : string) : URL :=
  if valid_host h
  then mkURL (scheme u) (toLowerCase h) (port_num u) (path u) (query u) (fragment u)
  else u.

Definition set_port (u : URL) (p : string) : URL :=
  if is_empty p
  then mkURL (scheme u) (host u) None (path u) (query u) (fragment u)
  else match parse_port (String ":" p) with
       | Some n => mkURL (scheme u) (host u) (strip_default (scheme u) n)
                         (path u) (query u) (fragment u)
       | None => u
       end.

Definition set_pathname (u : URL) (p : string) : URL :=
  let '(p', _) := span (fun c => negb (is_question c || is_hash c)) p in
  mkURL (scheme u) (host u) (port_num u)
        (if head_is is_slash p' then p' else String "/" p')
        (query u) (fragment u).

(** [u.toString()], the serialized href. *)
Definition toString (u : URL) : string :=
  scheme u +:+ "://" +:+ host u +:+
  (match port_num u with
   | None => ""
   | Some n => ":" +:+ NilZero.string_of_uint (N.to_uint n)
   end) +:+
  path u +:+
  (match query u with None => "" | Some q => "?" +:+ q end) +:+
  (match fragment u with None => "" | Some f => "#" +:+ f end).

(** Inputs on which the model is exact. *)
Definition host_char (c : ascii) : bool :=
  is_alpha c || is_digit c || Ascii.eqb c "-" || Ascii.eqb c "." || Ascii.eqb c "_".

Fixpoint last_label (acc s : string) : string :=
  match s with
  | EmptyString => acc
  | String c s' => if Ascii.eqb c "." then last_label s' s' else last_label acc s'
  end.

(** Domain names: plain characters, and a last label that starts with a
    letter (so the host is not read as an IPv4 address). *)
Definition host_plain (h : string) : bool :=
  all_chars host_char h && head_is is_alpha (last_label h h).

Definition rest_char (c : ascii) : bool :=
  is_alpha c || is_digit c ||
  existsb (Ascii.eqb c) (list_ascii_of_string "-_~/?#=&+,;:@!$*()").

(** What follows the authority: empty or introduced by [/], [?] or [#],
    made of characters that are serialized as written (in particular no
    dot, hence no dot segment). *)
Definition rest_plain (r : string) : bool :=
  (is_empty r || head_is is_authority_end r) && all_chars rest_char r.

End Url.

(** ** [lib/relay-utils.ts] *)

Inductive RelayStatusType := good | ok | bad | unknown | testing.

Module RelayUtils.

(** Normalize a relay URL for consistent comparison. *)
Definition normalizeRelayUrl (url : string) : string :=
  match Url.parse url with
  | Some parsed =>
      let parsed := Url.set_hostname parsed (toLowerCase (Url.hostname parsed)) in
      let parsed :=
        if (String.eqb (Url.protocol parsed) "wss:" && String.eqb (Url.port parsed) "443")
           || (String.eqb (Url.protocol parsed) "ws:" && String.eqb (Url.port parsed) "80")
        then Url.set_port parsed ""
        else parsed in
      let parsed :=
        if String.eqb (Url.pathname parsed) "/"
        then Url.set_pathname parsed ""
        else parsed in
      strip_trailing_slash (Url.toString parsed)
  | None => strip_trailing_slash (toLowerCase url)
  end.

Definition isValidRelayUrl (url : string) : bool :=
  match Url.parse url with
  | Some parsed =>
      String.eqb (Url.protocol parsed) "wss:" || String.eqb (Url.protocol parsed) "ws:"
  | None => false
  end.

(** Latency in whole milliseconds; [None] is [null]. *)
Definition categorizeLatency (latencyMs : option Z) : RelayStatusType :=
  match latencyMs with
  | None => bad
  | Some l => if (l <? 100)%Z then good else if (l <? 300)%Z then ok else bad
  end.

Definition getHttpUrl (wsUrl : string) : string :=
  replace_first "ws://" "http://" (replace_first "wss://" "https://" wsUrl).

Definition isSameRelay (url1 url2 : string) : bool :=
  String.eqb (normalizeRelayUrl url1) (normalizeRelayUrl url2).

(** [deduplicateRelays], with the loop state ([seen], [result]) passed
    along. *)
Fixpoint deduplicate_loop (seen : gset string) (urls : list string) : list string :=
  match urls with
  | [] => []
  | url :: urls' =>
      let normalized := normalizeRelayUrl url in
      if decide (normalized ∈ seen) then deduplicate_loop seen urls'
      else url :: deduplicate_loop ({[normalized]} ∪ seen) urls'
  end.

Definition deduplicateRelays (urls : list string) : list string :=
  deduplicate_loop ∅ urls.

End RelayUtils.

Import RelayUtils.

(** ** Records of the protocol and the runtime's error values *)

(** A tag is an array of strings; [t !! 0] is its name. *)
Definition Tag := list string.

Record NostrEvent := mkEvent {
  ev_id : string;
  ev_pubkey : string;
  ev_kind : Z;
  ev_content : string;
  ev_tags : list Tag;
  ev_created_at : Z
}.

(** A thrown value: an [Error] with its message, or anything else. *)
Inductive Thrown := ErrorObj (message : string) | OtherValue.

Inductive Result (A : Type) := Ok (a : A) | Throw (e : Thrown).
Arguments Ok {A} a.
Arguments Throw {A} e.

(** [tags.filter(([name]) => name === n)]. *)
Definition tag_named (n : string) (t : Tag) : bool :=
  match t !! 0%nat with
  | Some name => String.eqb name n
  | None => false
  end.

(** A JavaScript [Set] of strings in insertion order. *)
Definition set_add (x : string) (s : list string) : list string :=
  if decide (x ∈ s) then s else s ++ [x].

Definition set_of_list (l : list string) : list string :=
  fold_left (fun s x => set_add x s) l [].

(** ** [hooks/useRelayPing.ts]: the health prober *)

Module RelayPing.

(** The NIP-11 document, as far as its fields are named here; every
    field is optional. *)
Record NIP11Info := mkNIP11 {
  nip11_name : option string;
  nip11_description : option string;
  nip11_supported_nips : option (list Z);
  nip11_software : option string;
  nip11_version : option string
}.

Record RelayStatusWithInfo := mkStatus {
  url : string;
  latency : option Z;
  status : RelayStatusType;
  lastTested : Z;
  nip11 : option NIP11Info
}.

(** What [fetch] and [response.json()] do for one probe.  [FetchRejected]
    is a rejected promise: the 5000 ms abort signal fired or the
    network failed.  A response carries its [ok] flag and the parsed
    body, [None] when [response.json()] rejects. *)
Inductive FetchOutcome :=
| FetchRejected
| FetchResponse (response_ok : bool) (body : option NIP11Info).

(** The environment of one probe: the fetch, the rounded difference of
    the two [performance.now()] readings, and the two [Date.now()]
    readings. *)
Record ProbeEnv := mkProbeEnv {
  fetch : string -> FetchOutcome;
  elapsed : Z;
  date_start : Z;
  date_end : Z
}.

(** The first [setStatuses]: mark as testing. *)
Definition mark_testing (env : ProbeEnv) (u : string)
    (statuses : gmap string RelayStatusWithInfo) : gmap string RelayStatusWithInfo :=
  <[u := mkStatus u None testing (date_start env) None]> statuses.

(** The status object a probe resolves to. *)
Definition probe_result (env : ProbeEnv) (u : string) : RelayStatusWithInfo :=
  let httpUrl := getHttpUrl u in
  match fetch env httpUrl with
  | FetchResponse response_ok body =>
      let latency := elapsed env in
      let nip11 := if response_ok then body else None in
      if response_ok
      then mkStatus u (Some latency) (categorizeLatency (Some latency)) (date_end env) nip11
      else mkStatus u None bad (date_end env) None
  | FetchRejected => mkStatus u None bad (date_end env) None
  end.

(** [testRelay]: the resolved status and the status map after both
    updates. *)
Definition testRelay (env : ProbeEnv) (u : string)
    (statuses : gmap string RelayStatusWithInfo)
    : RelayStatusWithInfo * gmap string RelayStatusWithInfo :=
  let statuses := mark_testing env u statuses in
  let result := probe_result env u in
  (result, <[u := result]> statuses).

(** [testAllRelays]: the probe at index [i] runs in environment
    [envs i]; probes complete here in dispatch order.  Returns
    [resultMap] and the status map. *)
Fixpoint testAll_loop (envs : nat -> ProbeEnv) (i : nat) (urls : list string)
    (statuses : gmap string RelayStatusWithInfo)
    : list RelayStatusWithInfo * gmap string RelayStatusWithInfo :=
  match urls with
  | [] => ([], statuses)
  | u :: urls' =>
      let '(r, statuses) := testRelay (envs i) u statuses in
      let '(rs, statuses) := testAll_loop envs (S i) urls' statuses in
      (r :: rs, statuses)
  end.

Definition testAllRelays (envs : nat -> ProbeEnv) (urls : list string)
    (statuses : gmap string RelayStatusWithInfo)
    : gmap string RelayStatusWithInfo * gmap string RelayStatusWithInfo :=
  let '(results, statuses) := testAll_loop envs 0 urls statuses in
  (fold_left (fun resultMap result => <[url result := result]> resultMap) results ∅,
   statuses).

End RelayPing.

(** ** [hooks/useRelayPing.ts]: the contact aggregator ([useContactRelays]) *)

Module ContactRelays.

(** Relays that index NIP-65 data, in order of preference. *)
Definition NIP65_RELAYS : list string :=
  ["wss://purplepag.es"; "wss://indexer.coracle.social"; "wss://user.kindpag.es"].

Definition BATCH_SIZE : nat := 100.

Inductive SourceKind := src_nip65 | src_profile | src_both.

Record ContactRelayInfo := mkContact {
  c_pubkey : string;
  c_displayName : option string;
  c_picture : option string;
  c_relays : list string;
  c_source : SourceKind
}.

Record RelaySuggestion := mkSuggestion {
  s_url : string;
  contactCount : nat;
  contacts : list ContactRelayInfo;
  s_source : SourceKind;
  alreadyUsed : bool
}.

Record ContactRelaysResult := mkResult {
  suggestions : list RelaySuggestion;
  r_contactCount : nat;
  analyzedCount : nat
}.

(** A query resolves to events or rejects (abort, timeout, failure). *)
Inductive QueryResult := QueryRejected | QueryEvents (events : list NostrEvent).

(** Where a batch query is sent: an indexer relay of the chain, or the
    main pool ([nostr.query]). *)
Inductive Target := Indexer (relayUrl : string) | MainPool.

(** The queries a run issues, in order. *)
Inductive Issued :=
| ContactListQuery
| ProbeQuery (relayUrl : string)
| BatchQuery (target : Target) (authors : list string).

(** The network as the run sees it. *)
Record Network := mkNetwork {
  contact_list : QueryResult;                    (* kinds [3], limit 1 *)
  probe : string -> QueryResult;                 (* kinds [10002], limit 1 *)
  batch : Target -> list string -> QueryResult   (* kinds [10002], authors *)
}.

(** The fallback chain: the first relay whose probe returns an event
    is the working relay; a rejected or empty probe moves on. *)
Fixpoint find_working (net : Network) (chain : list string)
    : option string * list Issued :=
  match chain with
  | [] => (None, [])
  | relayUrl :: chain' =>
      match probe net relayUrl with
      | QueryEvents (_ :: _) => (Some relayUrl, [ProbeQuery relayUrl])
      | _ => let '(w, t) := find_working net chain' in (w, ProbeQuery relayUrl :: t)
      end
  end.

(** [relayUsage]: a [Map] from relay to the [Set] of pubkeys, both in
    insertion order. *)
Definition Usage := list (string * list string).

Fixpoint usage_add (relay pk : string) (u : Usage) : Usage :=
  match u with
  | [] => [(relay, [pk])]
  | (r, pks) :: u' =>
      if String.eqb r relay then (r, set_add pk pks) :: u'
      else (r, pks) :: usage_add relay pk u'
  end.

Record State := mkState {
  relayUsage : Usage;
  contactInfo : gmap string ContactRelayInfo
}.

(** The relays of one event; [None] when an [r] tag has no URL and
    [normalizeRelayUrl(undefined)] throws a [TypeError]. *)
Fixpoint event_relays (tags : list Tag) : option (list string) :=
  match tags with
  | [] => Some []
  | t :: tags' =>
      if tag_named "r" t then
        match t !! 1%nat, event_relays tags' with
        | Some u, Some rs => Some (normalizeRelayUrl u :: rs)
        | _, _ => None
        end
      else event_relays tags'
  end.

Definition process_event (st : State) (event : NostrEvent) : option State :=
  match event_relays (ev_tags event) with
  | None => None
  | Some relays =>
      let usage :=
        fold_left (fun u relay => usage_add relay (ev_pubkey event) u)
                  relays (relayUsage st) in
      let info :=
        match contactInfo st !! ev_pubkey event with
        | Some _ => contactInfo st
        | None => <[ev_pubkey event :=
                      mkContact (ev_pubkey event) None None relays src_nip65]>
                    (contactInfo st)
        end in
      Some (mkState usage info)
  end.

(** The events of one batch; the flag tells that one of them threw,
    which leaves the batch loop through the outer [catch]. *)
Fixpoint process_events (st : State) (events : list NostrEvent) : State * bool :=
  match events with
  | [] => (st, false)
  | e :: events' =>
      match process_event st e with
      | Some st' => process_events st' events'
      | None => (st, true)
      end
  end.

(** [contactPubkeys.slice(i, i + BATCH_SIZE)] for [i = 0, 100, ...]. *)
Definition batches (contactPubkeys : list string) : list (list string) :=
  map (fun k => take BATCH_SIZE (drop (k * BATCH_SIZE) contactPubkeys))
      (seq 0 ((length contactPubkeys + (BATCH_SIZE - 1)) / BATCH_SIZE)).

Definition target_of (workingRelay : option string) : Target :=
  match workingRelay with
  | Some r => Indexer r
  | None => MainPool
  end.

(** The batch loop: a rejected batch query is skipped ([continue]). *)
Fixpoint batch_loop (net : Network) (workingRelay : option string)
    (bs : list (list string)) (st : State) : State * list Issued :=
  match bs with
  | [] => (st, [])
  | b :: bs' =>
      let q := BatchQuery (target_of workingRelay) b in
      match batch net (target_of workingRelay) b with
      | QueryRejected =>
          let '(st', t) := batch_loop net workingRelay bs' st in (st', q :: t)
      | QueryEvents nip65Events =>
          match process_events st nip65Events with
          | (st', true) => (st', [q])
          | (st', false) =>
              let '(st'', t) := batch_loop net workingRelay bs' st' in (st'', q :: t)
          end
      end
  end.

Definition source_eqb (a b : SourceKind) : bool :=
  match a, b with
  | src_nip65, src_nip65 | src_profile, src_profile | src_both, src_both => true
  | _, _ => false
  end.

(** One entry of [relayUsage] as a suggestion. *)
Definition to_suggestion (info : gmap string ContactRelayInfo)
    (userRelaySet : list string) (entry : string * list string) : RelaySuggestion :=
  let '(u, pubkeys) := entry in
  let contacts := omap (fun pk => info !! pk) pubkeys in
  let hasNip65 :=
    existsb (fun c => source_eqb (c_source c) src_nip65 || source_eqb (c_source c) src_both)
            contacts in
  let hasProfile :=
    existsb (fun c => source_eqb (c_source c) src_profile || source_eqb (c_source c) src_both)
            contacts in
  let source :=
    if hasNip65 && hasProfile then src_both
    else if hasNip65 then src_nip65 else src_profile in
  mkSuggestion u (length pubkeys) contacts source
               (existsb (fun userRelay => isSameRelay userRelay u) userRelaySet).

(** [Array.prototype.sort] with the comparator
    [(a, b) => b.contactCount - a.contactCount].  The sort is stable:
    an element goes in front of the later elements unless they compare
    strictly greater. *)
Fixpoint sort_insert (x : RelaySuggestion) (l : list RelaySuggestion)
    : list RelaySuggestion :=
  match l with
  | [] => [x]
  | y :: l' =>
      if (contactCount x <? contactCount y)%nat
      then y :: sort_insert x l'
      else x :: l
  end.

Definition sort_by_count (l : list RelaySuggestion) : list RelaySuggestion :=
  foldr sort_insert [] l.

(** Step 4: the usage map as sorted suggestions. *)
Definition build_suggestions (st : State) (userRelays : list string)
    : list RelaySuggestion :=
  let userRelaySet := set_of_list (map normalizeRelayUrl userRelays) in
  sort_by_count (map (to_suggestion (contactInfo st) userRelaySet) (relayUsage st)).

(** [contactListEvent.tags.filter(p).map(pk).filter(Boolean)]. *)
Definition contact_pubkeys (tags : list Tag) : list string :=
  omap (fun t : Tag =>
          if tag_named "p" t then
            match t !! 1%nat with
            | Some pk => if is_empty pk then None else Some pk
            | None => None
            end
          else None) tags.

Definition empty_result : ContactRelaysResult := mkResult [] 0 0.

(** [queryFn]: [Throw] is a rejected promise, [Ok None] is [null].  The
    second component lists the queries issued. *)
Definition queryFn (net : Network) (pubkey : option string) (userRelays : list string)
    : Result (option ContactRelaysResult) * list Issued :=
  match pubkey with
  | None => (Ok None, [])
  | Some pk =>
      if is_empty pk then (Ok None, []) else
      match contact_list net with
      | QueryRejected => (Throw OtherValue, [ContactListQuery])
      | QueryEvents [] => (Ok (Some empty_result), [ContactListQuery])
      | QueryEvents (contactListEvent :: _) =>
          let contactPubkeys := contact_pubkeys (ev_tags contactListEvent) in
          match contactPubkeys with
          | [] => (Ok (Some empty_result), [ContactListQuery])
          | _ :: _ =>
              let '(workingRelay, probes) := find_working net NIP65_RELAYS in
              let '(st, queries) :=
                batch_loop net workingRelay (batches contactPubkeys) (mkState [] ∅) in
              (Ok (Some (mkResult (build_suggestions st userRelays)
                                  (length contactPubkeys)
                                  (size (contactInfo st)))),
               ContactListQuery :: probes ++ queries)
          end
      end
  end.

End ContactRelays.

(** ** [hooks/usePublishRelayLists.ts]: the publication orchestrator *)

Module Publish.

(** Transform cryptic relay errors into user-friendly messages. *)
Definition formatRelayError (error : Thrown) : string :=
  let msg := match error with ErrorObj m => m | OtherValue => "Unknown error" end in
  if includes "no promise in promise.any was resolved" msg
     || includes "All promises were rejected" msg
  then "All relays failed to accept the event. Please check your relay configuration."
  else msg.

Record RelayListsToPublish := mkLists {
  inboxRelays : list string;
  outboxRelays : list string;
  dmRelays : list string;
  searchRelays : list string;
  blockedRelays : list string;
  indexerRelays : list string;
  proxyRelays : list string;
  broadcastRelays : list string;
  trustedRelays : list string;
  profileEvent : option NostrEvent;
  contactListEvent : option NostrEvent
}.

(** The inbox loop of [buildNIP65Tags]: the tags pushed and [seen]. *)
Fixpoint inbox_loop (outboxSet seen : gset string) (inbox : list string)
    : list Tag * gset string :=
  match inbox with
  | [] => ([], seen)
  | url :: inbox' =>
      let normalized := normalizeRelayUrl url in
      if decide (normalized ∈ seen) then inbox_loop outboxSet seen inbox'
      else
        let '(tags, seen') := inbox_loop outboxSet ({[normalized]} ∪ seen) inbox' in
        ((if decide (normalized ∈ outboxSet) then ["r"; url] else ["r"; url; "read"])
           :: tags, seen')
  end.

Fixpoint outbox_loop (seen : gset string) (outbox : list string) : list Tag :=
  match outbox with
  | [] => []
  | url :: outbox' =>
      let normalized := normalizeRelayUrl url in
      if decide (normalized ∈ seen) then outbox_loop seen outbox'
      else ["r"; url; "write"] :: outbox_loop ({[normalized]} ∪ seen) outbox'
  end.

(** Build NIP-65 tags from inbox/outbox relay lists. *)
Definition buildNIP65Tags (inbox outbox : list string) : list Tag :=
  let outboxSet : gset string := list_to_set (map normalizeRelayUrl outbox) in
  let '(tags, seen) := inbox_loop outboxSet ∅ inbox in
  tags ++ outbox_loop seen outbox.

Record EventTemplate := mkTemplate {
  t_kind : Z;
  t_content : string;
  t_tags : list Tag;
  t_created_at : Z
}.

Record PublishResult := mkPublishResult {
  nip65 : bool;
  dm : bool;
  search : bool;
  blocked : bool;
  indexer : bool;
  proxy : bool;
  broadcast : bool;
  trusted : bool;
  profile : bool;
  contactList : bool;
  errors : list string
}.

Definition Signer := EventTemplate -> Result NostrEvent.

(** The surroundings of a publication: the page's location, the clock
    ([Date.now()] in milliseconds, read when the record of a kind is
    built) and the transport ([nostr.event]). *)
Record Env := mkEnv {
  location_protocol : string;
  location_hostname : string;
  date_now : Z -> Z;
  nostr_event : NostrEvent -> Result unit
}.

(** What the run handed to the signer and to the transport, in order. *)
Record Log := mkLog {
  signed : list EventTemplate;
  sent : list NostrEvent
}.

Definition addClientTag (env : Env) (tags : list Tag) : list Tag :=
  if String.eqb (location_protocol env) "https:"
  then tags ++ [["client"; location_hostname env]]
  else tags.

Definition relay_tags (urls : list string) : list Tag :=
  map (fun url => ["relay"; url]) urls.

Definition template (env : Env) (kind : Z) (content : string) (tags : list Tag)
    : EventTemplate :=
  mkTemplate kind content (addClientTag env tags) (date_now env kind / 1000).

Definition push_error (e : string) (r : PublishResult) : PublishResult :=
  mkPublishResult (nip65 r) (dm r) (search r) (blocked r) (indexer r) (proxy r)
                  (broadcast r) (trusted r) (profile r) (contactList r)
                  (errors r ++ [e]).

Definition set_nip65 (r : PublishResult) : PublishResult :=
  mkPublishResult true (dm r) (search r) (blocked r) (indexer r) (proxy r)
                  (broadcast r) (trusted r) (profile r) (contactList r) (errors r).
Definition set_dm (r : PublishResult) : PublishResult :=
  mkPublishResult (nip65 r) true (search r) (blocked r) (indexer r) (proxy r)
                  (broadcast r) (trusted r) (profile r) (contactList r) (errors r).
Definition set_search (r : PublishResult) : PublishResult :=
  mkPublishResult (nip65 r) (dm r) true (blocked r) (indexer r) (proxy r)
                  (broadcast r) (trusted r) (profile r) (contactList r) (errors r).
Definition set_blocked (r : PublishResult) : PublishResult :=
  mkPublishResult (nip65 r) (dm r) (search r) true (indexer r) (proxy r)
                  (broadcast r) (trusted r) (profile r) (contactList r) (errors r).
Definition set_indexer (r : PublishResult) : PublishResult :=
  mkPublishResult (nip65 r) (dm r) (search r) (blocked r) true (proxy r)
                  (broadcast r) (trusted r) (profile r) (contactList r) (errors r).
Definition set_proxy (r : PublishResult) : PublishResult :=
  mkPublishResult (nip65 r) (dm r) (search r) (blocked r) (indexer r) true
                  (broadcast r) (trusted r) (profile r) (contactList r) (errors r).
Definition set_broadcast (r : PublishResult) : PublishResult :=
  mkPublishResult (nip65 r) (dm r) (search r) (blocked r) (indexer r) (proxy r)
                  true (trusted r) (profile r) (contactList r) (errors r).
Definition set_trusted (r : PublishResult) : PublishResult :=
  mkPublishResult (nip65 r) (dm r) (search r) (blocked r) (indexer r) (proxy r)
                  (broadcast r) true (profile r) (contactList r) (errors r).
Definition set_profile (r : PublishResult) : PublishResult :=
  mkPublishResult (nip65 r) (dm r) (search r) (blocked r) (indexer r) (proxy r)
                  (broadcast r) (trusted r) true (contactList r) (errors r).
Definition set_contactList (r : PublishResult) : PublishResult :=
  mkPublishResult (nip65 r) (dm r) (search r) (blocked r) (indexer r) (proxy r)
                  (broadcast r) (trusted r) (profile r) true (errors r).

(** One [try { sign; send; flag = true } catch (e) { errors.push(...) }]
    block. *)
Definition publish_block (env : Env) (signEvent : Signer) (label : string)
    (set_flag : PublishResult -> PublishResult) (tmpl : EventTemplate)
    (st : PublishResult * Log) : PublishResult * Log :=
  let '(results, log) := st in
  match signEvent tmpl with
  | Throw e =>
      (push_error (label +:+ ": " +:+ formatRelayError e) results,
       mkLog (signed log ++ [tmpl]) (sent log))
  | Ok event =>
      let log := mkLog (signed log ++ [tmpl]) (sent log ++ [event]) in
      match nostr_event env event with
      | Ok _ => (set_flag results, log)
      | Throw e => (push_error (label +:+ ": " +:+ formatRelayError e) results, log)
      end
  end.

Definition nonempty {A} (l : list A) : bool := (0 <? length l)%nat.

Definition without_client (tags : list Tag) : list Tag :=
  filter (fun t => negb (tag_named "client" t)) tags.

Definition initial_results : PublishResult :=
  mkPublishResult false false false false false false false false false false [].

(** [mutationFn]; [Throw] is the rejection for a missing user. *)
Definition mutationFn (env : Env) (user : option Signer) (lists : RelayListsToPublish)
    : Result PublishResult * Log :=
  match user with
  | None => (Throw (ErrorObj "User is not logged in"), mkLog [] [])
  | Some signEvent =>
      let block := publish_block env signEvent in
      let st := (initial_results, mkLog [] []) in
      let st :=
        if nonempty (inboxRelays lists) || nonempty (outboxRelays lists)
        then block "NIP-65" set_nip65
               (template env 10002 ""
                  (buildNIP65Tags (inboxRelays lists) (outboxRelays lists))) st
        else st in
      let st :=
        if nonempty (dmRelays lists)
        then block "DM relays" set_dm
               (template env 10050 "" (relay_tags (dmRelays lists))) st
        else st in
      let st :=
        if nonempty (searchRelays lists)
        then block "Search relays" set_search
               (template env 10007 "" (relay_tags (searchRelays lists))) st
        else st in
      let st :=
        if nonempty (blockedRelays lists)
        then block "Blocked relays" set_blocked
               (template env 10006 "" (relay_tags (blockedRelays lists))) st
        else st in
      let st :=
        if nonempty (indexerRelays lists)
        then block "Indexer relays" set_indexer
               (template env 10086 "" (relay_tags (indexerRelays lists))) st
        else st in
      let st :=
        if nonempty (proxyRelays lists)
        then block "Proxy relays" set_proxy
               (template env 10087 "" (relay_tags (proxyRelays lists))) st
        else st in
      let st :=
        if nonempty (broadcastRelays lists)
        then block "Broadcast relays" set_broadcast
               (template env 10088 "" (relay_tags (broadcastRelays lists))) st
        else st in
      let st :=
        if nonempty (trustedRelays lists)
        then block "Trusted relays" set_trusted
               (template env 10089 "" (relay_tags (trustedRelays lists))) st
        else st in
      let st :=
        match profileEvent lists with
        | Some ev =>
            block "Profile" set_profile
              (template env 0 (ev_content ev) (without_client (ev_tags ev))) st
        | None => st
        end in
      let st :=
        match contactListEvent lists with
        | Some ev =>
            block "Contact list" set_contactList
              (template env 3 (ev_content ev) (without_client (ev_tags ev))) st
        | None => st
        end in
      (Ok (fst st), snd st)
  end.

End Publish.

(** ** [hooks/useUserRelays.ts]: re-parsing the relay lists *)

Module UserRelays.

Record NIP65Relay := mkNIP65Relay {
  url : string;
  read : bool;
  write : bool
}.

(** [!marker || marker === m]: a missing or empty marker is falsy. *)
Definition marker_allows (marker : option string) (m : string) : bool :=
  match marker with
  | None => true
  | Some s => is_empty s || String.eqb s m
  end.

(** One [r] tag; [None] when the URL is missing and
    [normalizeRelayUrl(undefined)] throws. *)
Definition parse_r_tag (t : Tag) : option NIP65Relay :=
  match t !! 1%nat with
  | Some u =>
      let marker := t !! 2%nat in
      Some (mkNIP65Relay (normalizeRelayUrl u)
                         (marker_allows marker "read")
                         (marker_allows marker "write"))
  | None => None
  end.

(** Parse NIP-65 relays (kind 10002): the [r] tags of the event. *)
Definition parseNIP65 (tags : list Tag) : option (list NIP65Relay) :=
  mapM parse_r_tag (filter (tag_named "r") tags).

Definition getInboxRelays (nip65 : list NIP65Relay) : list string :=
  map url (filter (fun r => read r) nip65).

Definition getOutboxRelays (nip65 : list NIP65Relay) : list string :=
  map url (filter (fun r => write r) nip65).

End UserRelays.

(** ** [hooks/useRelayReviews.ts]: review parsing *)

Module Reviews.

Record RelayReview := mkReview {
  id : string;
  pubkey : string;
  relayUrl : string;
  content : string;
  rating : float;
  createdAt : Z
}.

(** [Math.min] and [Math.max] on two numbers: NaN if either is NaN, and
    the negative zero is below the positive one. *)
Definition Math_min (a b : float) : float :=
  if is_nan a || is_nan b then nan
  else if (a <? b)%float then a
  else if (b <? a)%float then b
  else if get_sign a then a else b.

Definition Math_max (a b : float) : float :=
  if is_nan a || is_nan b then nan
  else if (a <? b)%float then b
  else if (b <? a)%float then a
  else if get_sign a then b else a.

(** [tags.find(([name]) => name === n)]. *)
Definition find_tag (n : string) (tags : list Tag) : option Tag :=
  List.find (tag_named n) tags.

Section Parse.

(** The runtime's [parseFloat] on strings. *)
Variable parseFloat : string -> float.

(** [parseFloat(ratingTag[1])]: a missing element is [undefined],
    which parses to NaN. *)
Definition parse_rating_value (ratingTag : Tag) : float :=
  match ratingTag !! 1%nat with
  | Some s => parseFloat s
  | None => nan
  end.

Definition review_rating (tags : list Tag) : float :=
  match find_tag "rating" tags with
  | Some ratingTag =>
      let parsed := parse_rating_value ratingTag in
      if negb (is_nan parsed) then
        let rating := if (1 <? parsed)%float then (parsed / 5)%float else parsed in
        Math_max 0 (Math_min 1 rating)
      else 0.5%float
  | None => 0.5%float
  end.

(** Parse a relay review event; [None] is [null]. *)
Definition parseReviewEvent (event : NostrEvent) : option RelayReview :=
  match find_tag "r" (ev_tags event) with
  | None => None
  | Some rTag =>
      match rTag !! 1%nat with
      | None => None
      | Some u =>
          if is_empty u then None
          else Some (mkReview (ev_id event) (ev_pubkey event) (normalizeRelayUrl u)
                              (ev_content event) (review_rating (ev_tags event))
                              (ev_created_at event))
      end
  end.

End Parse.

End Reviews.

(** ** [Array.prototype.sort] with a comparator *)

Module JsArray.

Section Sort.

Context {A : Type}.

(** The comparator returns a number of which only the sign is used.  The
    sort is stable: an element goes in front of the later elements
    unless the comparator puts it strictly after them. *)
Variable compareFn : A -> A -> Z.

Fixpoint sort_insert (x : A) (l : list A) : list A :=
  match l with
  | [] => [x]
  | y :: l' =>
      if (0 <? compareFn x y)%Z then y :: sort_insert x l' else x :: l
  end.

Definition sort (l : list A) : list A := foldr sort_insert [] l.

End Sort.

(** [a.every((v, i) => f(v, i))], from index [i] on. *)
Fixpoint every_from {A} (f : A -> nat -> bool) (i : nat) (l : list A) : bool :=
  match l with
  | [] => true
  | v :: l' => f v i && every_from f (S i) l'
  end.

(** [a.join(sep)]. *)
Fixpoint join (sep : string) (l : list string) : string :=
  match l with
  | [] => ""
  | [x] => x
  | x :: l' => x +:+ sep +:+ join sep l'
  end.

End JsArray.

(** ** [lib/relay-utils.ts]: display, ordering and wording *)

Module RelayDisplay.



Section SortByLatency.

(** [T extends { latency: number | null }]. *)
Context {T : Type}.
Variable latency : T -> option Z.

Definition compare_latency (a b : T) : Z :=
  match latency a, latency b with
  | None, None => 0
  | None, Some _ => 1
  | Some _, None => -1
  | Some x, Some y => x - y
  end.

(** Sort relays by latency (fastest first, unknown last). *)
Definition sortByLatency (relays : list T) : list T :=
  JsArray.sort compare_latency relays.

End SortByLatency.

(** Get a fun description based on latency. *)
Definition getLatencyDescription (latency : option Z) : string :=
  match latency with
  | None => "Unreachable"
  | Some l =>
      if (l <? 50)%Z then "Lightning fast!"
      else if (l <? 100)%Z then "Super quick"
      else if (l <? 200)%Z then "Pretty good"
      else if (l <? 300)%Z then "Decent"
      else if (l <? 500)%Z then "A bit slow"
      else "Quite slow"
  end.

End RelayDisplay.


(** ** [hooks/useUserRelays.ts]: fetching the relay lists *)

(** What an asynchronous function settles to.  The reason of a
    rejection is not modelled. *)
Inductive Promise (A : Type) := Resolved (a : A) | Rejected.
Arguments Resolved {A} a.
Arguments Rejected {A}.

Module UserRelaysQuery.

(** All relay-related event kinds. *)
Definition RELAY_KINDS : list Z :=
  [10002; 10050; 10007; 10006; 10086; 10087; 10088; 10089]%Z.

(** Helper to get most recent event of a kind:
    [allEvents.filter(e => e.kind === kind)
              .sort((a, b) => b.created_at - a.created_at)[0]]. *)
Definition getLatestOfKind (allEvents : list NostrEvent) (kind : Z) : option NostrEvent :=
  head (JsArray.sort (fun a b => (ev_created_at b - ev_created_at a)%Z)
                     (filter (fun e => ev_kind e = kind) allEvents)).

(** Helper to parse relay tags; [None] when a [relay] tag has no URL and
    [normalizeRelayUrl(undefined)] throws. *)
Definition parseRelayTags (event : option NostrEvent) : option (list string) :=
  match event with
  | Some ev =>
      mapM (fun t : Tag => normalizeRelayUrl <$> t !! 1%nat)
           (filter (tag_named "relay") (ev_tags ev))
  | None => Some []
  end.

Record UserRelayLists := mkUserRelayLists {
  nip65 : list UserRelays.NIP65Relay;
  dmRelays : list string;
  searchRelays : list string;
  blockedRelays : list string;
  indexerRelays : list string;
  proxyRelays : list string;
  broadcastRelays : list string;
  trustedRelays : list string;
  fetchedAt : Z
}.

(** The two sources as the run sees them: the main pool and
    [wss://purplepag.es], each asked for the relay kinds of one author. *)
Record Sources := mkSources {
  pool_query : string -> ContactRelays.QueryResult;
  purplepages_query : string -> ContactRelays.QueryResult
}.

(** [queryFn] of [useUserRelays]; [now] is the reading of [Date.now()]. *)
Definition queryFn (net : Sources) (now : Z) (pubkey : option string)
    : Promise (option UserRelayLists) :=
  match pubkey with
  | None => Resolved None
  | Some pk =>
      if is_empty pk then Resolved None else
      match pool_query net pk with
      | ContactRelays.QueryRejected => Rejected
      | ContactRelays.QueryEvents events =>
          let purplepagesEvents :=
            match purplepages_query net pk with
            | ContactRelays.QueryEvents evs => evs
            | ContactRelays.QueryRejected => []
            end in
          let allEvents := (events ++ purplepagesEvents)%list in
          let nip65Event := getLatestOfKind allEvents 10002 in
          let dmEvent := getLatestOfKind allEvents 10050 in
          let searchEvent := getLatestOfKind allEvents 10007 in
          let blockedEvent := getLatestOfKind allEvents 10006 in
          let indexerEvent := getLatestOfKind allEvents 10086 in
          let proxyEvent := getLatestOfKind allEvents 10087 in
          let broadcastEvent := getLatestOfKind allEvents 10088 in
          let trustedEvent := getLatestOfKind allEvents 10089 in
          let nip65 :=
            match nip65Event with
            | Some ev => UserRelays.parseNIP65 (ev_tags ev)
            | None => Some []
            end in
          match nip65, parseRelayTags dmEvent, parseRelayTags searchEvent,
                parseRelayTags blockedEvent, parseRelayTags indexerEvent,
                parseRelayTags proxyEvent, parseRelayTags broadcastEvent,
                parseRelayTags trustedEvent with
          | Some nip65, Some dm, Some search, Some blocked, Some indexer,
            Some proxy, Some broadcast, Some trusted =>
              Resolved (Some (mkUserRelayLists nip65 dm search blocked indexer
                                               proxy broadcast trusted now))
          | _, _, _, _, _, _, _, _ => Rejected
          end
      end
  end.

End UserRelaysQuery.

(** ** [hooks/usePublishRelayLists.ts]: what the user is told *)

Module PublishToasts.

Import Publish.

Record Toast := mkToast {
  title : string;
  description : string;
  destructive : bool     (* [variant: 'destructive'] *)
}.

(** What [onSuccess] does, in order. *)
Inductive Effect :=
| InvalidateQueries (queryKey : list string)
| ShowToast (t : Toast).

Definition newline : string := String (ascii_of_nat 10) "".

Definition part (flag : bool) (name : string) : list string :=
  if flag then [name] else [].

Definition onSuccess (result : PublishResult) : list Effect :=
  let successParts :=
    (part (nip65 result) "inbox/outbox" ++ part (dm result) "DM"
     ++ part (search result) "search" ++ part (blocked result) "blocked"
     ++ part (indexer result) "indexer" ++ part (proxy result) "proxy"
     ++ part (broadcast result) "broadcast" ++ part (trusted result) "trusted")%list in
  let identityParts :=
    (part (profile result) "profile" ++ part (contactList result) "contact list")%list in
  ([InvalidateQueries ["userRelays"]]
  ++ (if nonempty successParts || nonempty identityParts then
        let description :=
          if nonempty successParts
          then "Updated your " +:+ JsArray.join ", " successParts +:+ " relays."
          else "" in
        let description :=
          if nonempty identityParts then
            (description +:+ (if is_empty description then "" else " "))
            +:+ "Your " +:+ JsArray.join " and " identityParts +:+ " "
            +:+ (if (1 <? length identityParts)%nat then "were" else "was")
            +:+ " synced to all relays."
          else description in
        [ShowToast (mkToast "Published successfully!" description false)]
      else [])
  ++ (if nonempty (errors result)
      then [ShowToast (mkToast "Some updates failed"
                               (JsArray.join newline (errors result)) true)]
      else []))%list.

Definition onError (error : Thrown) : list Effect :=
  [ShowToast (mkToast "Failed to publish"
                      (match error with ErrorObj m => m | OtherValue => "Unknown error" end)
                      true)].

End PublishToasts.


(** ** [components/relay-optimizer/RelayOptimizerPage.tsx]: editing the lists *)

Module Page.

Import UserRelays.

(** [s.trim()] on ASCII text: tab, line feed, vertical tab, form feed,
    carriage return and space go from both ends. *)
Definition is_space (c : ascii) : bool :=
  existsb (Nat.eqb (nat_of_ascii c)) [9; 10; 11; 12; 13; 32]%nat.

Fixpoint trim_start (s : string) : string :=
  match s with
  | EmptyString => EmptyString
  | String c s' => if is_space c then trim_start s' else s
  end.

Fixpoint trim_end (s : string) : string :=
  match s with
  | EmptyString => EmptyString
  | String c s' =>
      let t := trim_end s' in
      if is_empty t && is_space c then EmptyString else String c t
  end.

Definition trim (s : string) : string := trim_end (trim_start s).

(** The lists being edited. *)
Record Lists := mkLists {
  inboxRelays : list string;
  outboxRelays : list string;
  dmRelays : list string;
  searchRelays : list string
}.

Inductive RelayType := inbox | outbox | dm | search.

(** [relays.some(r => isSameRelay(r, url))]. *)
Definition some_same (relays : list string) (url : string) : bool :=
  existsb (fun r => isSameRelay r url) relays.

(** [relays.filter(r => !isSameRelay(r, url))]. *)
Definition without_same (relays : list string) (url : string) : list string :=
  filter (fun r => negb (isSameRelay r url)) relays.

(** The [switch] of [handleAddRelay] and the suggestion handlers: the
    URL goes to the end of a list that has no relay the same as [key]. *)
Definition add_unless_same (relays : list string) (key url : string) : list string :=
  if negb (some_same relays key) then (relays ++ [url])%list else relays.

(** [handleAddRelay]: the lists afterwards and the URLs handed to
    [testRelay].  [newRelayUrl] is the text of the dialog. *)
Definition handleAddRelay (st : Lists) (addDialogType : RelayType) (newRelayUrl : string)
    : Lists * list string :=
  let url := trim newRelayUrl in
  if is_empty url then (st, []) else
  let url :=
    if negb (startsWith "wss://" url) && negb (startsWith "ws://" url)
    then "wss://" +:+ url else url in
  if negb (isValidRelayUrl url) then (st, []) else
  let normalized := normalizeRelayUrl url in
  let st :=
    match addDialogType with
    | inbox =>
        mkLists (add_unless_same (inboxRelays st) normalized url) (outboxRelays st)
                (dmRelays st) (searchRelays st)
    | outbox =>
        mkLists (inboxRelays st) (add_unless_same (outboxRelays st) normalized url)
                (dmRelays st) (searchRelays st)
    | dm =>
        mkLists (inboxRelays st) (outboxRelays st)
                (add_unless_same (dmRelays st) normalized url) (searchRelays st)
    | search =>
        mkLists (inboxRelays st) (outboxRelays st) (dmRelays st)
                (add_unless_same (searchRelays st) normalized url)
    end in
  (st, [url]).

(** [relayMap]: a [Map] from canonical URL to the record shown, in
    insertion order.  [existing.read = true] writes to the record the
    map holds. *)
Definition RelayMap := list (string * NIP65Relay).

Fixpoint map_get (key : string) (m : RelayMap) : option NIP65Relay :=
  match m with
  | [] => None
  | (k, v) :: m' => if String.eqb k key then Some v else map_get key m'
  end.

Fixpoint map_modify (key : string) (f : NIP65Relay -> NIP65Relay) (m : RelayMap)
    : RelayMap :=
  match m with
  | [] => []
  | (k, v) :: m' =>
      if String.eqb k key then (k, f v) :: m' else (k, v) :: map_modify key f m'
  end.

Definition inbox_step (relayMap : RelayMap) (u : string) : RelayMap :=
  let normalized := normalizeRelayUrl u in
  match map_get normalized relayMap with
  | Some existing =>
      map_modify normalized (fun e => mkNIP65Relay (url e) true (write e)) relayMap
  | None => (relayMap ++ [(normalized, mkNIP65Relay u true false)])%list
  end.

Definition outbox_step (relayMap : RelayMap) (u : string) : RelayMap :=
  let normalized := normalizeRelayUrl u in
  match map_get normalized relayMap with
  | Some existing =>
      map_modify normalized (fun e => mkNIP65Relay (url e) (read e) true) relayMap
  | None => (relayMap ++ [(normalized, mkNIP65Relay u false true)])%list
  end.

(** Build NIP65 array from inbox/outbox. *)
Definition nip65Relays (inboxRelays outboxRelays : list string) : list NIP65Relay :=
  map snd (fold_left outbox_step outboxRelays (fold_left inbox_step inboxRelays [])).

(** Handlers for relay cards. *)
Definition handleToggleRead (inboxRelays : list string) (u : string) : list string :=
  let normalized := normalizeRelayUrl u in
  let isCurrentlyRead := some_same inboxRelays normalized in
  if isCurrentlyRead then without_same inboxRelays normalized
  else (inboxRelays ++ [u])%list.

Definition handleToggleWrite (outboxRelays : list string) (u : string) : list string :=
  let normalized := normalizeRelayUrl u in
  let isCurrentlyWrite := some_same outboxRelays normalized in
  if isCurrentlyWrite then without_same outboxRelays normalized
  else (outboxRelays ++ [u])%list.

Definition handleRemoveNip65 (st : Lists) (u : string) : Lists :=
  let normalized := normalizeRelayUrl u in
  mkLists (without_same (inboxRelays st) normalized)
          (without_same (outboxRelays st) normalized)
          (dmRelays st) (searchRelays st).

Definition handleRemoveDm (dmRelays : list string) (u : string) : list string :=
  without_same dmRelays u.

Definition handleRemoveSearch (searchRelays : list string) (u : string) : list string :=
  without_same searchRelays u.

(** Suggestion handlers. *)
Definition handleAddToInbox (inboxRelays : list string) (u : string) : list string :=
  add_unless_same inboxRelays u u.

Definition handleAddToOutbox (outboxRelays : list string) (u : string) : list string :=
  add_unless_same outboxRelays u u.

Definition handleAddToDm (dmRelays : list string) (u : string) : list string :=
  add_unless_same dmRelays u u.

(** Suggestions excluding already used. *)
Definition unusedSuggestions (suggestions : option (list ContactRelays.RelaySuggestion))
    : list ContactRelays.RelaySuggestion :=
  match suggestions with
  | None => []
  | Some l => take 20 (filter (fun s => negb (ContactRelays.alreadyUsed s)) l)
  end.

(** The default comparator of [sort]: strings by their code units. *)
Definition compare_strings (a b : string) : Z :=
  match String.compare a b with
  | Lt => -1
  | Eq => 0
  | Gt => 1
  end.

Definition arraysEqual (a b : list string) : bool :=
  if negb (length a =? length b)%nat then false else
  let sortedA := JsArray.sort compare_strings a in
  let sortedB := JsArray.sort compare_strings b in
  JsArray.every_from
    (fun v i => match sortedB !! i with
                | Some w => String.eqb v w
                | None => false
                end) 0 sortedA.

(** Detect changes; [originalState] is [null] until the lists are loaded. *)
Definition hasChanges (st : Lists) (originalState : option Lists) : bool :=
  match originalState with
  | None => false
  | Some original =>
      negb (arraysEqual (inboxRelays st) (inboxRelays original))
      || negb (arraysEqual (outboxRelays st) (outboxRelays original))
      || negb (arraysEqual (dmRelays st) (dmRelays original))
      || negb (arraysEqual (searchRelays st) (searchRelays original))
  end.

End Page.


(** ** [hooks/useRelayReviews.ts]: stars and summaries *)

Module ReviewQueries.

Import Reviews.

(** Kind 1986 is used for relay reviews. *)
Definition RELAY_REVIEW_KIND : Z := 1986.

(** Relays to query for reviews. *)
Definition REVIEW_RELAYS : list string :=
  ["wss://relay.primal.net"; "wss://relay.damus.io"; "wss://nos.lol"].

(** An integer below [2^63] in absolute value as a number. *)
Definition float_of_Z (n : Z) : float :=
  if (n <? 0)%Z then (- of_uint63 (Uint63.of_Z (- n)))%float
  else of_uint63 (Uint63.of_Z n).

(** [Math.round]: the nearest integer, the larger one at a tie; a value
    that rounds to zero keeps its sign.  A finite number is
    [(-1)^s * m * 2^e]; with [e < 0] the integer part of [x + 1/2] is
    [(±2m + 2^-e) / 2^(1-e)] rounded down. *)
Definition Math_round (x : float) : float :=
  match Prim2SF x with
  | S754_finite s m e =>
      if (0 <=? e)%Z then x
      else
        let n := ((2 * (if s then Z.neg m else Z.pos m) + 2 ^ (- e)) / 2 ^ (1 - e))%Z in
        if (n =? 0)%Z then (if s then neg_zero else zero) else float_of_Z n
  | _ => x
  end.

(** Convert 0-1 rating to 1-5 stars. *)
Definition ratingToStars (rating : float) : float := Math_round (rating * 5).

(** Convert 1-5 stars to 0-1 rating. *)
Definition starsToRating (stars : float) : float := (stars / 5)%float.

Record RelayReviewSummary := mkSummary {
  s_relayUrl : string;
  averageRating : float;
  reviewCount : nat;
  reviews : list RelayReview
}.

(** [reviews.reduce((sum, r) => sum + r.rating, 0) / reviews.length]. *)
Definition average (reviews : list RelayReview) : float :=
  (fold_left (fun sum r => sum + rating r) reviews 0
   / float_of_Z (Z.of_nat (length reviews)))%float.

(** Get average rating as stars (1-5) from reviews. *)
Definition getAverageStars (reviews : list RelayReview) : option float :=
  match reviews with
  | [] => None
  | _ :: _ => Some (ratingToStars (average reviews))
  end.

(** Deduplicate by event ID: the [filter] with its [seen] set. *)
Fixpoint unique_by_id (seen : gset string) (events : list NostrEvent) : list NostrEvent :=
  match events with
  | [] => []
  | e :: events' =>
      if decide (ev_id e ∈ seen) then unique_by_id seen events'
      else e :: unique_by_id ({[ev_id e]} ∪ seen) events'
  end.

(** The review queries as the run sees them: the main pool and the
    review relays, each asked for kind 1986 with the given [#r] values. *)
Record ReviewSources := mkReviewSources {
  pool_reviews : list string -> ContactRelays.QueryResult;
  relay_reviews : string -> list string -> ContactRelays.QueryResult
}.

(** A query that fails counts for no events. *)
Definition events_or_none (q : ContactRelays.QueryResult) : list NostrEvent :=
  match q with
  | ContactRelays.QueryEvents events => events
  | ContactRelays.QueryRejected => []
  end.

(** [allEvents]: the pool's events, then those of the review relays in
    their order. *)
Definition gather (net : ReviewSources) (urls : list string) : list NostrEvent :=
  (events_or_none (pool_reviews net urls)
   ++ concat (map (fun relay => events_or_none (relay_reviews net relay urls))
                  REVIEW_RELAYS))%list.

Definition by_most_recent (a b : RelayReview) : Z := (createdAt b - createdAt a)%Z.

Definition summarize (relayUrl : string) (reviews : list RelayReview)
    : RelayReviewSummary :=
  mkSummary relayUrl
            (if (0 <? length reviews)%nat then average reviews else 0%float)
            (length reviews) reviews.

Section Queries.

Variable parseFloat : string -> float.

(** [queryFn] of [useRelayReviews]; every query is guarded, so the
    promise always resolves: [None] is [null]. *)
Definition relayReviews (net : ReviewSources) (relayUrl : option string)
    : option RelayReviewSummary :=
  match relayUrl with
  | None => None
  | Some u =>
      if is_empty u then None else
      let normalizedUrl := normalizeRelayUrl u in
      let allEvents := gather net [normalizedUrl] in
      let uniqueEvents := unique_by_id ∅ allEvents in
      let reviews := omap (parseReviewEvent parseFloat) uniqueEvents in
      let reviews := JsArray.sort by_most_recent reviews in
      Some (summarize normalizedUrl reviews)
  end.

(** Group reviews by relay URL. *)
Definition group_review (reviewsByRelay : gmap string (list RelayReview))
    (event : NostrEvent) : gmap string (list RelayReview) :=
  match parseReviewEvent parseFloat event with
  | Some review =>
      let existing := default [] (reviewsByRelay !! relayUrl review) in
      <[relayUrl review := (existing ++ [review])%list]> reviewsByRelay
  | None => reviewsByRelay
  end.

(** [queryFn] of [useMultipleRelayReviews]; the result is a [Map] keyed
    by canonical URL. *)
Definition multipleRelayReviews (net : ReviewSources) (relayUrls : list string)
    : gmap string RelayReviewSummary :=
  match relayUrls with
  | [] => ∅
  | _ :: _ =>
      let normalizedUrls := set_of_list (map normalizeRelayUrl relayUrls) in
      let allEvents := gather net normalizedUrls in
      let uniqueEvents := unique_by_id ∅ allEvents in
      let reviewsByRelay := fold_left group_review uniqueEvents ∅ in
      fold_left
        (fun summaries u =>
           let reviews := default [] (reviewsByRelay !! u) in
           let reviews := JsArray.sort by_most_recent reviews in
           <[u := summarize u reviews]> summaries)
        normalizedUrls ∅
  end.

End Queries.

End ReviewQueries.


(** ** [hooks/useRelayReviews.ts]: submitting a review *)

Module ReviewSubmit.

Import Publish ReviewQueries.

Section Submit.

(** The runtime's [Number.prototype.toFixed(2)]. *)
Variable toFixed2 : float -> string.

(** The record handed to the signer; [rating] is the number of stars. *)
Definition review_template (env : Env) (relayUrl : string) (rating : float)
    (content : string) : EventTemplate :=
  let normalizedUrl := normalizeRelayUrl relayUrl in
  let ratingValue := toFixed2 (starsToRating rating) in
  let tags := [["L"; "review"]; ["l"; "review/relay"; "review"];
               ["rating"; ratingValue]; ["r"; normalizedUrl]] in
  let tags :=
    if String.eqb (location_protocol env) "https:"
    then (tags ++ [["client"; location_hostname env]])%list
    else tags in
  mkTemplate RELAY_REVIEW_KIND (Page.trim content) tags
             (date_now env RELAY_REVIEW_KIND / 1000).

(** [mutationFn] of [useSubmitRelayReview]: the canonical URL and the
    signed event, or the rejection. *)
Definition mutationFn (env : Env) (user : option Signer) (relayUrl : string)
    (rating : float) (content : string) : Result (string * NostrEvent) :=
  match user with
  | None => Throw (ErrorObj "You must be logged in to submit a review")
  | Some signEvent =>
      match signEvent (review_template env relayUrl rating content) with
      | Throw e => Throw e
      | Ok event =>
          match nostr_event env event with
          | Throw e => Throw e
          | Ok _ => Ok (normalizeRelayUrl relayUrl, event)
          end
      end
  end.

End Submit.

End ReviewSubmit.

(** * Vocabulary of the contract and example inputs

    Definitions that follow the words of the specification (the adopted
    index relay, the tag of a URL, the categories and their record
    types) and the concrete inputs the examples run on. *)

Section NormalizerVocabulary.

(** A relay URL written out from its parts: scheme [ws] or [wss], host,
    the scheme's default port spelled out or left out, what follows the
    authority, and a trailing slash or none. *)
Definition scheme_of (wss : bool) : string := if wss then "wss" else "ws".

Definition default_port_of (wss : bool) : string := if wss then "443" else "80".

Definition relay_url (wss : bool) (h : string) (explicit_port : bool) (rest : string)
    (slash : bool) : string :=
  scheme_of wss +:+ "://" +:+ h
    +:+ (if explicit_port then ":" +:+ default_port_of wss else "")
    +:+ rest +:+ (if slash then "/" else "").

(** What follows the authority once parsed and serialized again: an
    empty path is serialized as a slash. *)
Definition serialized_rest (R : string) : string :=
  (if head_is (fun c => negb (Url.is_question c || Url.is_hash c)) R then "" else "/")
    +:+ R.

End NormalizerVocabulary.

Section ProberVocabulary.

Import RelayPing.

(** Example environments: a relay answering in [ms] milliseconds. *)
Definition answering (ms : Z) (doc : option NIP11Info) : ProbeEnv :=
  mkProbeEnv (fun _ => FetchResponse true doc) ms 1000 (1000 + ms).

Definition unreachable : ProbeEnv :=
  mkProbeEnv (fun _ => FetchRejected) 5000 1000 6000.

End ProberVocabulary.

Section AggregatorVocabulary.

Import ContactRelays.




Definition by_count_desc (a b : RelaySuggestion) : Prop :=
  (contactCount b ≤ contactCount a)%nat.




End AggregatorVocabulary.

Section RoundTripVocabulary.

Import Publish UserRelays.

(** The identities of a list of URLs. *)
Definition identities (urls : list string) : gset string :=
  list_to_set (map normalizeRelayUrl urls).

(** The tag of one URL as the contract words it: no marker when the
    identity is in both lists, [read] when only in the inbox, [write]
    when only in the outbox. *)
Definition nip65_tag_for (inbox outbox : list string) (u : string) : Tag :=
  if decide (normalizeRelayUrl u ∈ identities inbox) then
    if decide (normalizeRelayUrl u ∈ identities outbox) then ["r"; u]
    else ["r"; u; "read"]
  else ["r"; u; "write"].


End RoundTripVocabulary.

Section PublishVocabulary.

Import Publish.

(** The records a publication can send, in the order of the blocks of
    [mutationFn]. *)
Inductive Category :=
| cat_nip65 | cat_dm | cat_search | cat_blocked | cat_indexer
| cat_proxy | cat_broadcast | cat_trusted | cat_profile | cat_contactList.

#[global] Instance Category_eq_dec : EqDecision Category.
Proof. solve_decision. Defined.

Definition all_categories : list Category :=
  [cat_nip65; cat_dm; cat_search; cat_blocked; cat_indexer;
   cat_proxy; cat_broadcast; cat_trusted; cat_profile; cat_contactList].

(** The record type of each category, as the contract tables it. *)
Definition kind_of (c : Category) : Z :=
  match c with
  | cat_nip65 => 10002 | cat_dm => 10050 | cat_search => 10007
  | cat_blocked => 10006 | cat_indexer => 10086 | cat_proxy => 10087
  | cat_broadcast => 10088 | cat_trusted => 10089
  | cat_profile => 0 | cat_contactList => 3
  end.

(** The categories whose record is one [relay] tag per endpoint. *)
Definition singleton_category (c : Category) : bool :=
  match c with
  | cat_dm | cat_search | cat_blocked | cat_indexer
  | cat_proxy | cat_broadcast | cat_trusted => true
  | _ => false
  end.

Definition urls_of (lists : RelayListsToPublish) (c : Category) : list string :=
  match c with
  | cat_dm => dmRelays lists | cat_search => searchRelays lists
  | cat_blocked => blockedRelays lists | cat_indexer => indexerRelays lists
  | cat_proxy => proxyRelays lists | cat_broadcast => broadcastRelays lists
  | cat_trusted => trustedRelays lists
  | _ => []
  end.

Definition label (c : Category) : string :=
  match c with
  | cat_nip65 => "NIP-65" | cat_dm => "DM relays" | cat_search => "Search relays"
  | cat_blocked => "Blocked relays" | cat_indexer => "Indexer relays"
  | cat_proxy => "Proxy relays" | cat_broadcast => "Broadcast relays"
  | cat_trusted => "Trusted relays" | cat_profile => "Profile"
  | cat_contactList => "Contact list"
  end.

Definition flag (c : Category) (r : PublishResult) : bool :=
  match c with
  | cat_nip65 => nip65 r | cat_dm => dm r | cat_search => search r
  | cat_blocked => blocked r | cat_indexer => indexer r | cat_proxy => proxy r
  | cat_broadcast => broadcast r | cat_trusted => trusted r
  | cat_profile => profile r | cat_contactList => contactList r
  end.

Definition set_flag (c : Category) : PublishResult → PublishResult :=
  match c with
  | cat_nip65 => set_nip65 | cat_dm => set_dm | cat_search => set_search
  | cat_blocked => set_blocked | cat_indexer => set_indexer | cat_proxy => set_proxy
  | cat_broadcast => set_broadcast | cat_trusted => set_trusted
  | cat_profile => set_profile | cat_contactList => set_contactList
  end.

(** Whether the block of a category runs. *)
Definition attempted (lists : RelayListsToPublish) (c : Category) : bool :=
  match c with
  | cat_nip65 => nonempty (inboxRelays lists) || nonempty (outboxRelays lists)
  | cat_profile => bool_decide (is_Some (profileEvent lists))
  | cat_contactList => bool_decide (is_Some (contactListEvent lists))
  | _ => nonempty (urls_of lists c)
  end.

Definition resigned (env : Env) (kind : Z) (ev : option NostrEvent) : EventTemplate :=
  match ev with
  | Some ev => template env kind (ev_content ev) (without_client (ev_tags ev))
  | None => template env kind "" []
  end.

(** The record its block hands to the signer. *)
Definition template_of (env : Env) (lists : RelayListsToPublish) (c : Category)
    : EventTemplate :=
  match c with
  | cat_nip65 =>
      template env 10002 "" (buildNIP65Tags (inboxRelays lists) (outboxRelays lists))
  | cat_profile => resigned env 0 (profileEvent lists)
  | cat_contactList => resigned env 3 (contactListEvent lists)
  | _ => template env (kind_of c) "" (relay_tags (urls_of lists c))
  end.

Definition step (env : Env) (signEvent : Signer) (lists : RelayListsToPublish)
    (st : PublishResult * Log) (c : Category) : PublishResult * Log :=
  if attempted lists c
  then publish_block env signEvent (label c) (set_flag c) (template_of env lists c) st
  else st.

(** Signing and sending one record. *)
Definition outcome (env : Env) (signEvent : Signer) (t : EventTemplate) : Result unit :=
  match signEvent t with
  | Ok event => nostr_event env event
  | Throw e => Throw e
  end.

Definition succeeds (env : Env) (signEvent : Signer) (lists : RelayListsToPublish)
    (c : Category) : bool :=
  match outcome env signEvent (template_of env lists c) with
  | Ok _ => true
  | Throw _ => false
  end.

Definition error_of (env : Env) (signEvent : Signer) (lists : RelayListsToPublish)
    (c : Category) : list string :=
  if attempted lists c then
    match outcome env signEvent (template_of env lists c) with
    | Ok _ => []
    | Throw e => [label c +:+ ": " +:+ formatRelayError e]
    end
  else [].

Definition attempted_categories (lists : RelayListsToPublish) : list Category :=
  filter (fun c => attempted lists c) all_categories.

(** Example publication: an [https] page, a signer that signs whatever it
    is handed, a transport that rejects kind 10007 the way [Promise.any]
    does, and lists with three non-empty categories. *)
Definition example_env : Env :=
  mkEnv "https:" "relayopti.example" (fun _ => 1700000000123%Z)
        (fun ev => if (ev_kind ev =? 10007)%Z
                   then Throw (ErrorObj "All promises were rejected")
                   else Ok tt).

Definition example_signer : Signer :=
  fun t => Ok (mkEvent "signed" "me" (t_kind t) (t_content t) (t_tags t) (t_created_at t)).

Definition example_lists : RelayListsToPublish :=
  mkLists ["wss://a.example.com"; "wss://b.example.com"]
          ["wss://b.example.com"; "wss://c.example.com"]
          ["wss://dm.example.com"]
          ["wss://search.example.com"; "wss://find.example.com"]
          [] [] [] [] [] None None.

End PublishVocabulary.

Section ReviewVocabulary.

Import Reviews.

(** The first [r] tag of an event carries a URL. *)
Definition first_r_tag_has_url (tags : list Tag) : bool :=
  match find_tag "r" tags with
  | Some rTag => match rTag !! 1%nat with
                 | Some u => negb (is_empty u)
                 | None => false
                 end
  | None => false
  end.

(** Some [r] tag of an event carries a URL. *)
Definition some_r_tag_has_url (tags : list Tag) : bool :=
  existsb (fun t => tag_named "r" t &&
                    match t !! 1%nat with
                    | Some u => negb (is_empty u)
                    | None => false
                    end) tags.

End ReviewVocabulary.

(** ** Vocabulary of the further properties *)

Section UtilsVocabulary.

(** One latency is at least as good as another: a measured latency is
    better than none, and a smaller one better than a larger one. *)
Definition latency_le (a b : option Z) : Prop :=
  match a, b with
  | Some x, Some y => (x ≤ y)%Z
  | Some _, None => True
  | None, Some _ => False
  | None, None => True
  end.

End UtilsVocabulary.

Section AggregationVocabulary.

Import ContactRelays.

(** A usage map is well formed over a set [Q] of pubkeys: every relay
    has one entry, and the entry of a relay lists at least one pubkey,
    no pubkey twice, and pubkeys of [Q] only. *)
Definition usage_wf (Q : string → Prop) (u : Usage) : Prop :=
  NoDup (map fst u) ∧
  Forall (fun e : string * list string =>
            (∃ raw, fst e = normalizeRelayUrl raw) ∧
            snd e ≠ [] ∧ NoDup (snd e) ∧ Forall Q (snd e)) u.

(** The contact records are those of relay-list events, filed under
    their own pubkey. *)
Definition info_wf (info : gmap string ContactRelayInfo) : Prop :=
  ∀ pk c, info !! pk = Some c → c_pubkey c = pk ∧ c_source c = src_nip65.

Definition state_wf (st : State) : Prop :=
  usage_wf (fun pk => is_Some (contactInfo st !! pk)) (relayUsage st) ∧
  info_wf (contactInfo st).

End AggregationVocabulary.

Section FetchVocabulary.

Import UserRelaysQuery.

(** The events a fetch merges: those of the main pool, then those of
    [wss://purplepag.es] (none when it is unavailable). *)
Definition fetched_events (net : Sources) (pk : string) : list NostrEvent :=
  match pool_query net pk with
  | ContactRelays.QueryEvents events =>
      (events ++ match purplepages_query net pk with
                 | ContactRelays.QueryEvents evs => evs
                 | ContactRelays.QueryRejected => []
                 end)%list
  | ContactRelays.QueryRejected => []
  end.

(** The list of a category in what was fetched. *)
Definition fetched_list (c : Category) (r : UserRelayLists) : list string :=
  match c with
  | cat_dm => dmRelays r | cat_search => searchRelays r
  | cat_blocked => blockedRelays r | cat_indexer => indexerRelays r
  | cat_proxy => proxyRelays r | cat_broadcast => broadcastRelays r
  | cat_trusted => trustedRelays r
  | _ => []
  end.

(** Example: the pool holds an old search list, [purplepag.es] the one
    just published from an [https] page. *)
Definition example_sources : Sources :=
  mkSources
    (fun _ => ContactRelays.QueryEvents
                [mkEvent "old" "me" 10007 "" [["relay"; "wss://old.example.com"]] 1600000000])
    (fun _ => ContactRelays.QueryEvents
                [mkEvent "new" "me" 10007 ""
                         [["relay"; "wss://search.example.com"];
                          ["relay"; "wss://find.example.com"];
                          ["client"; "relayopti.example"]] 1700000000]).

End FetchVocabulary.

Section ToastVocabulary.

Import PublishToasts.

Definition toasts (effects : list Effect) : list Toast :=
  omap (fun e => match e with ShowToast t => Some t | InvalidateQueries _ => None end)
       effects.

(** The record a signer returns for a template, if it signs it. *)
Definition signed_event (signEvent : Publish.Signer) (t : Publish.EventTemplate)
    : option NostrEvent :=
  match signEvent t with
  | Ok event => Some event
  | Throw _ => None
  end.

(** Example: a profile that carries the attribution of another client. *)
Definition example_profile : NostrEvent :=
  mkEvent "p1" "me" 0 "{}" [["client"; "other-client"]; ["alt"; "profile"]] 1600000000.

Definition example_identity_lists : Publish.RelayListsToPublish :=
  Publish.mkLists [] [] [] [] [] [] [] [] [] (Some example_profile) None.

End ToastVocabulary.

Section PageVocabulary.

Import UserRelays Page.

(** The list of a type. *)
Definition list_of (ty : RelayType) (st : Lists) : list string :=
  match ty with
  | inbox => inboxRelays st
  | outbox => outboxRelays st
  | dm => dmRelays st
  | search => searchRelays st
  end.

(** The tag that publishes one record of the page. *)
Definition tag_of_record (r : NIP65Relay) : Tag :=
  if read r && write r then ["r"; url r]
  else if read r then ["r"; url r; "read"]
  else ["r"; url r; "write"].

(** The record of a URL, given the two lists. *)
Definition page_record (inboxRelays outboxRelays : list string) (u : string) : NIP65Relay :=
  mkNIP65Relay u (bool_decide (normalizeRelayUrl u ∈ identities inboxRelays))
                 (bool_decide (normalizeRelayUrl u ∈ identities outboxRelays)).

(** Strings in the order of their code units. *)
Definition string_le (a b : string) : Prop := String.compare a b ≠ Gt.

End PageVocabulary.

Section StarsVocabulary.

Import Reviews ReviewQueries.

(** A review with a given rating. *)
Definition review_rated (rating : float) : RelayReview :=
  mkReview "id" "author" "wss://relay.example.com" "" rating 1700000000.

(** The parsed reviews of the events gathered for some URLs, each event
    once. *)
Definition parsed_reviews (parseFloat : string → float) (net : ReviewSources)
    (urls : list string) : list RelayReview :=
  omap (parseReviewEvent parseFloat) (unique_by_id ∅ (gather net urls)).

End StarsVocabulary.

Section SubmitVocabulary.

(** Example runtime functions for one value: three stars are written
    [0.60], which reads as three fifths. *)
Definition example_toFixed2 : float → string := fun _ => "0.60".

Definition example_parseFloat : string → float :=
  fun _ => ReviewQueries.starsToRating 3.

End SubmitVocabulary.

(** * Verified properties *)

(** ** Health prober *)

Section ProberFacts.

Import RelayPing.

Lemma categorizeLatency_buckets :
  categorizeLatency (Some 50%Z) = good ∧ categorizeLatency (Some 250%Z) = ok ∧
  categorizeLatency (Some 400%Z) = bad ∧ categorizeLatency None = bad ∧
  categorizeLatency (Some 99%Z) = good ∧ categorizeLatency (Some 100%Z) = ok ∧
  categorizeLatency (Some 299%Z) = ok ∧ categorizeLatency (Some 300%Z) = bad.
Proof. repeat split; reflexivity. Qed.

Lemma categorizeLatency_spec (l : Z) :
  categorizeLatency (Some l) =
    if decide (l < 100)%Z then good else if decide (l < 300)%Z then ok else bad.
Proof.
  unfold categorizeLatency.
  destruct (Z.ltb_spec l 100), (Z.ltb_spec l 300);
    repeat case_decide; try reflexivity; lia.
Qed.

(** C7.  [testRelay] is a total function into status objects: whatever
    the fetch does, the probe resolves to a status for the probed URL.
    On an [ok] response the latency is recorded and bucketed (good below
    100, ok below 300, bad otherwise) and the capability document is
    attached when it parsed and left out when it did not; on a rejected
    fetch or a response that is not [ok] the state is bad with no
    latency. *)
Theorem testRelay_always_resolves (env : ProbeEnv) (u : string)
    (statuses : gmap string RelayStatusWithInfo) :
  let r := fst (testRelay env u statuses) in
  url r = u ∧ lastTested r = date_end env ∧
  match fetch env (getHttpUrl u) with
  | FetchResponse true body =>
      latency r = Some (elapsed env) ∧ nip11 r = body ∧
      status r = (if decide (elapsed env < 100)%Z then good
                  else if decide (elapsed env < 300)%Z then ok else bad)
  | FetchResponse false _ | FetchRejected =>
      latency r = None ∧ nip11 r = None ∧ status r = bad
  end.
Proof.
  cbn zeta. unfold testRelay, probe_result. cbn [fst].
  destruct (fetch env (getHttpUrl u)) as [|[] body]; cbn.
  - auto.
  - rewrite <- categorizeLatency_spec. auto.
  - auto.
Qed.

Example probe_examples :
  let probe env := fst (testRelay env "wss://relay.example.com" ∅) in
  (status (probe (answering 50 None)), latency (probe (answering 50 None)))
  = (good, Some 50%Z) ∧
  status (probe (answering 250 None)) = ok ∧
  (status (probe (answering 400 None)), latency (probe (answering 400 None)))
  = (bad, Some 400%Z) ∧
  (status (probe unreachable), latency (probe unreachable), nip11 (probe unreachable))
  = (bad, None, None) ∧
  getHttpUrl "wss://relay.example.com" = "https://relay.example.com" ∧
  getHttpUrl "ws://relay.example.com" = "http://relay.example.com".
Proof. vm_compute. repeat split. Qed.

(** C5, as the code has it.  The status map is keyed by the URL string
    handed to [testRelay]: the probe's entry is written under that
    string and nowhere else, and the result map of [testAllRelays] has
    exactly the probed strings as keys. *)
Theorem status_map_keyed_by_raw_url (env : ProbeEnv) (envs : nat -> ProbeEnv)
    (u : string) (urls : list string) (statuses : gmap string RelayStatusWithInfo) :
  snd (testRelay env u statuses) = <[u := fst (testRelay env u statuses)]> statuses ∧
  url (fst (testRelay env u statuses)) = u ∧
  dom (fst (testAllRelays envs urls statuses)) = list_to_set urls.
Proof.
  split; [|split].
  - unfold testRelay, mark_testing. cbn. apply insert_insert_eq.
  - unfold testRelay, probe_result. cbn.
    destruct (fetch env (getHttpUrl u)) as [|[] body]; reflexivity.
  - unfold testAllRelays.
    destruct (testAll_loop envs 0 urls statuses) as [results st] eqn:E.
    cbn [fst].
    assert (Hurls : map url results = urls).
    { clear -E. revert statuses results st E. generalize 0%nat.
      induction urls as [|x xs IH]; intros i statuses results st E; cbn in E.
      - by inversion E.
      - destruct (testAll_loop envs (S i) xs _) as [rs st'] eqn:E'.
        inversion E; subst. cbn. f_equal; [|eapply IH, E'].
        unfold probe_result. destruct (fetch _ _) as [|[] ?]; reflexivity. }
    rewrite <- Hurls. clear.
    assert (G : ∀ (m : gmap string RelayStatusWithInfo),
               dom (fold_left (fun resultMap result => <[url result := result]> resultMap)
                              results m)
               = list_to_set (map url results) ∪ dom m).
    { induction results as [|r rs IH]; intros m; cbn.
      - set_solver.
      - rewrite IH, dom_insert_L. set_solver. }
    rewrite G. set_solver.
Qed.

(** C5 as stated fails: probing a URL with a trailing slash leaves no
    entry under its canonical identity, and probing two spellings of
    one relay leaves two entries. *)
Lemma status_map_not_keyed_by_identity :
  let m1 := snd (testRelay unreachable "wss://relay.example.com/" ∅) in
  let m2 := snd (testRelay unreachable "wss://relay.example.com" m1) in
  normalizeRelayUrl "wss://relay.example.com/" = "wss://relay.example.com" ∧
  m1 !! normalizeRelayUrl "wss://relay.example.com/" = None ∧
  is_Some (m1 !! "wss://relay.example.com/") ∧
  isSameRelay "wss://relay.example.com/" "wss://relay.example.com" = true ∧
  size m2 = 2.
Proof. vm_compute. repeat split. eauto. Qed.

End ProberFacts.

(** ** Contact aggregator *)

Section AggregatorFacts.

Import ContactRelays.







(** *** Ranking *)

Lemma sort_insert_elem (x y : RelaySuggestion) (l : list RelaySuggestion) :
  y ∈ sort_insert x l ↔ y = x ∨ y ∈ l.
Proof.
  induction l as [|z l IH]; cbn [sort_insert].
  - rewrite !elem_of_cons. tauto.
  - destruct (contactCount x <? contactCount z)%nat;
      rewrite !elem_of_cons, ?IH; tauto.
Qed.

Lemma sort_insert_sorted (x : RelaySuggestion) (l : list RelaySuggestion) :
  StronglySorted by_count_desc l → StronglySorted by_count_desc (sort_insert x l).
Proof.
  induction 1 as [|z l Hs IH Hz]; cbn [sort_insert].
  - repeat constructor.
  - destruct (Nat.ltb_spec (contactCount x) (contactCount z)).
    + constructor; [exact IH|].
      apply Forall_forall. intros y Hy. apply sort_insert_elem in Hy.
      destruct Hy as [->|Hy]; [unfold by_count_desc; lia|].
      rewrite Forall_forall in Hz. by apply Hz.
    + constructor; [by constructor|].
      constructor; [unfold by_count_desc; lia|].
      eapply Forall_impl; [exact Hz|]. unfold by_count_desc. intros; cbn in *. lia.
Qed.

Lemma sort_by_count_sorted (l : list RelaySuggestion) :
  StronglySorted by_count_desc (sort_by_count l).
Proof.
  induction l as [|x l IH]; cbn [sort_by_count foldr]; [constructor|].
  by apply sort_insert_sorted.
Qed.

Lemma sort_insert_perm (x : RelaySuggestion) (l : list RelaySuggestion) :
  sort_insert x l ≡ₚ x :: l.
Proof.
  induction l as [|z l IH]; cbn [sort_insert]; [reflexivity|].
  destruct (contactCount x <? contactCount z)%nat; [|reflexivity].
  rewrite IH. apply Permutation_swap.
Qed.

Lemma sort_by_count_perm (l : list RelaySuggestion) : sort_by_count l ≡ₚ l.
Proof.
  induction l as [|x l IH]; cbn [sort_by_count foldr]; [reflexivity|].
  fold (sort_by_count l). by rewrite sort_insert_perm, IH.
Qed.



(** The usage map keeps its keys in first-seen order. *)
Lemma usage_add_first_seen (relay pk : string) (u : Usage) :
  map fst (usage_add relay pk u)
  = if decide (relay ∈ map fst u) then map fst u else (map fst u ++ [relay])%list.
Proof.
  induction u as [|[r pks] u IH]; cbn [usage_add map fst].
  - rewrite decide_False by apply not_elem_of_nil. reflexivity.
  - destruct (String.eqb_spec r relay) as [->|Hne]; cbn [map fst].
    + rewrite decide_True by (apply elem_of_cons; auto). reflexivity.
    + rewrite IH. destruct (decide (relay ∈ map fst u)) as [Hin|Hnin].
      * rewrite decide_True by (apply elem_of_cons; auto). reflexivity.
      * rewrite decide_False; [reflexivity|].
        rewrite elem_of_cons. intros [->|Hin]; auto.
Qed.



End AggregatorFacts.


(** ** Inbox/outbox tags and their re-parsing *)

Section RoundTrip.

Import Publish UserRelays.

Lemma dedup_elem (seen : gset string) (l : list string) (x : string) :
  x ∈ map normalizeRelayUrl (deduplicate_loop seen l)
  ↔ x ∈ map normalizeRelayUrl l ∧ x ∉ seen.
Proof.
  revert seen. induction l as [|u l IH]; intros seen; cbn.
  - rewrite elem_of_nil. tauto.
  - destruct (decide (normalizeRelayUrl u ∈ seen)) as [Hin|Hnin]; cbn.
    + rewrite IH, elem_of_cons. split; [tauto|].
      intros [[->|H] Hx]; tauto.
    + rewrite !elem_of_cons, IH, elem_of_union, elem_of_singleton.
      split.
      * intros [->|[H1 H2]]; [tauto|]. split; [tauto|]. intros H. apply H2. tauto.
      * intros [[->|H1] H2]; [tauto|].
        destruct (decide (x = normalizeRelayUrl u)); [tauto|]. right. tauto.
Qed.

Lemma dedup_in_raw (seen : gset string) (l : list string) (u : string) :
  u ∈ deduplicate_loop seen l → u ∈ l ∧ normalizeRelayUrl u ∉ seen.
Proof.
  revert seen. induction l as [|v l IH]; intros seen; cbn.
  - intros H. by apply elem_of_nil in H.
  - destruct (decide (normalizeRelayUrl v ∈ seen)) as [Hin|Hnin].
    + intros H. apply IH in H. rewrite elem_of_cons. tauto.
    + rewrite !elem_of_cons. intros [->|H]; [tauto|].
      apply IH in H. rewrite elem_of_union in H. tauto.
Qed.

Lemma dedup_app (seen : gset string) (l1 l2 : list string) :
  deduplicate_loop seen (l1 ++ l2)
  = (deduplicate_loop seen l1 ++ deduplicate_loop (identities l1 ∪ seen) l2)%list.
Proof.
  revert seen. induction l1 as [|u l IH]; intros seen; cbn.
  - unfold identities. cbn. f_equal. set_solver.
  - destruct (decide (normalizeRelayUrl u ∈ seen)) as [Hin|Hnin].
    + rewrite IH. do 2 f_equal. unfold identities. cbn. set_solver.
    + cbn. rewrite IH. do 3 f_equal. unfold identities. cbn. set_solver.
Qed.

Lemma inbox_loop_spec (outboxSet seen : gset string) (inbox : list string) :
  inbox_loop outboxSet seen inbox
  = (map (fun u => if decide (normalizeRelayUrl u ∈ outboxSet)
                   then ["r"; u] else ["r"; u; "read"])
         (deduplicate_loop seen inbox),
     identities inbox ∪ seen).
Proof.
  revert seen. induction inbox as [|u l IH]; intros seen; cbn.
  - f_equal. unfold identities. cbn. set_solver.
  - destruct (decide (normalizeRelayUrl u ∈ seen)) as [Hin|Hnin].
    + rewrite IH. f_equal. unfold identities. cbn. set_solver.
    + rewrite IH. cbn. f_equal. unfold identities. cbn. set_solver.
Qed.

Lemma outbox_loop_spec (seen : gset string) (outbox : list string) :
  outbox_loop seen outbox
  = map (fun u => ["r"; u; "write"]) (deduplicate_loop seen outbox).
Proof.
  revert seen. induction outbox as [|u l IH]; intros seen; cbn; [reflexivity|].
  destruct (decide (normalizeRelayUrl u ∈ seen)); cbn; by rewrite IH.
Qed.

Lemma map_ext_elem {A B} (f g : A → B) (l : list A) :
  (∀ x, x ∈ l → f x = g x) → map f l = map g l.
Proof.
  induction l as [|a l IH]; intros H; cbn; [reflexivity|].
  rewrite H by (apply elem_of_cons; auto).
  rewrite IH; [reflexivity|]. intros x Hx. apply H, elem_of_cons. auto.
Qed.

(** The tags built are the contract's tag of every URL of
    [inbox ++ outbox], deduplicated by identity, first spelling kept. *)
Lemma buildNIP65Tags_spec (inbox outbox : list string) :
  buildNIP65Tags inbox outbox
  = map (nip65_tag_for inbox outbox) (deduplicateRelays (inbox ++ outbox)).
Proof.
  unfold buildNIP65Tags, deduplicateRelays.
  rewrite inbox_loop_spec, outbox_loop_spec, dedup_app, map_app.
  f_equal; apply map_ext_elem; intros u Hu; apply dedup_in_raw in Hu as [Hu Hs];
    unfold nip65_tag_for.
  - rewrite (decide_True (P := normalizeRelayUrl u ∈ identities inbox)).
    + reflexivity.
    + unfold identities. rewrite elem_of_list_to_set.
      apply list_elem_of_fmap. eauto.
  - rewrite (decide_False (P := normalizeRelayUrl u ∈ identities inbox)).
    + reflexivity.
    + intros H. apply Hs. apply elem_of_union. auto.
Qed.



Lemma filter_bool_cons {A} (f : A → bool) (x : A) (l : list A) :
  filter (fun y => f y) (x :: l)
  = if f x then x :: filter (fun y => f y) l else filter (fun y => f y) l.
Proof. rewrite filter_cons. destruct (f x); reflexivity. Qed.




Lemma identities_dedup (l : list string) (x : string) :
  (∃ u, u ∈ deduplicateRelays l ∧ normalizeRelayUrl u = x) ↔ x ∈ identities l.
Proof.
  unfold identities. rewrite elem_of_list_to_set.
  pose proof (dedup_elem ∅ l x) as H. unfold deduplicateRelays.
  rewrite list_elem_of_fmap in H. split.
  - intros (u & Hu & <-). apply H. eauto.
  - intros Hx. destruct H as [_ H].
    destruct H as (u & -> & Hu); [split; [exact Hx|apply not_elem_of_empty]|]. eauto.
Qed.

Lemma identities_app (l1 l2 : list string) (x : string) :
  x ∈ identities (l1 ++ l2) ↔ x ∈ identities l1 ∨ x ∈ identities l2.
Proof.
  unfold identities. rewrite map_app, !elem_of_list_to_set. apply elem_of_app.
Qed.


End RoundTrip.


(** ** Publication orchestrator *)

Section PublishFacts.

Import Publish.

Lemma mutationFn_steps (env : Env) (signEvent : Signer) (lists : RelayListsToPublish) :
  mutationFn env (Some signEvent) lists
  = let st := fold_left (step env signEvent lists) all_categories
                        (initial_results, mkLog [] []) in
    (Ok (fst st), snd st).
Proof.
  unfold mutationFn. cbn [fold_left all_categories]. unfold step.
  cbn [attempted template_of label set_flag urls_of kind_of resigned].
  destruct (profileEvent lists), (contactListEvent lists); reflexivity.
Qed.

Lemma set_flag_spec (c c' : Category) (r : PublishResult) :
  flag c (set_flag c' r) = bool_decide (c = c') || flag c r.
Proof. destruct c, c'; cbn; try reflexivity; by rewrite ?orb_true_r. Qed.

Lemma push_error_flag (c : Category) (e : string) (r : PublishResult) :
  flag c (push_error e r) = flag c r.
Proof. by destruct c. Qed.

Lemma set_flag_errors (c : Category) (r : PublishResult) :
  errors (set_flag c r) = errors r.
Proof. by destruct c. Qed.

Section Run.

Variables (env : Env) (signEvent : Signer) (lists : RelayListsToPublish).

Let run_step := step env signEvent lists.

Lemma step_flag (c c' : Category) (st : PublishResult * Log) :
  flag c (fst (run_step st c'))
  = (bool_decide (c = c') && attempted lists c && succeeds env signEvent lists c)
    || flag c (fst st).
Proof.
  unfold run_step, step, succeeds, publish_block, outcome.
  destruct st as [r log].
  destruct (decide (c = c')) as [<-|Hne].
  - rewrite bool_decide_eq_true_2 by reflexivity.
    destruct (attempted lists c); [|reflexivity].
    destruct (signEvent _) as [ev|e]; [destruct (nostr_event env ev) as [[]|e]|];
      cbn [fst andb orb]; rewrite ?set_flag_spec, ?push_error_flag; try reflexivity.
    by rewrite bool_decide_eq_true_2.
  - rewrite (bool_decide_eq_false_2 _ Hne).
    destruct (attempted lists c'); [|reflexivity].
    destruct (signEvent _) as [ev|e]; [destruct (nostr_event env ev) as [[]|e]|];
      cbn [fst andb orb]; rewrite ?set_flag_spec, ?push_error_flag; try reflexivity.
    by rewrite (bool_decide_eq_false_2 _ Hne).
Qed.

Lemma step_errors (c : Category) (st : PublishResult * Log) :
  errors (fst (run_step st c))
  = (errors (fst st) ++ error_of env signEvent lists c)%list.
Proof.
  unfold run_step, step, error_of, publish_block, outcome.
  destruct st as [r log].
  destruct (attempted lists c); [|by rewrite app_nil_r].
  destruct (signEvent _) as [ev|e]; [destruct (nostr_event env ev) as [[]|e]|];
    cbn [fst push_error errors]; rewrite ?set_flag_errors, ?app_nil_r; reflexivity.
Qed.

Lemma step_signed (c : Category) (st : PublishResult * Log) :
  signed (snd (run_step st c))
  = (signed (snd st)
     ++ if attempted lists c then [template_of env lists c] else [])%list.
Proof.
  unfold run_step, step, publish_block.
  destruct st as [r log].
  destruct (attempted lists c); [|by rewrite app_nil_r].
  destruct (signEvent _) as [ev|e]; [destruct (nostr_event env ev) as [[]|e]|];
    reflexivity.
Qed.

Lemma fold_flag (c : Category) (cs : list Category) (st : PublishResult * Log) :
  flag c (fst (fold_left run_step cs st))
  = (bool_decide (c ∈ cs) && attempted lists c && succeeds env signEvent lists c)
    || flag c (fst st).
Proof.
  revert st. induction cs as [|c' cs IH]; intros st; cbn [fold_left].
  - rewrite bool_decide_eq_false_2 by apply not_elem_of_nil. reflexivity.
  - rewrite IH, step_flag.
    destruct (decide (c = c')) as [<-|Hne].
    + rewrite (bool_decide_eq_true_2 (c = c)) by reflexivity.
      rewrite (bool_decide_eq_true_2 (c ∈ c :: cs)) by (apply elem_of_cons; auto).
      destruct (bool_decide (c ∈ cs)), (attempted lists c),
               (succeeds env signEvent lists c), (flag c (fst st)); reflexivity.
    + rewrite (bool_decide_eq_false_2 (c = c')) by exact Hne.
      cbn [andb orb].
      destruct (decide (c ∈ cs)) as [Hin|Hnin].
      * rewrite (bool_decide_eq_true_2 (c ∈ cs)) by exact Hin.
        rewrite (bool_decide_eq_true_2 (c ∈ c' :: cs)) by (apply elem_of_cons; auto).
        reflexivity.
      * rewrite (bool_decide_eq_false_2 (c ∈ cs)) by exact Hnin.
        rewrite (bool_decide_eq_false_2 (c ∈ c' :: cs)); [reflexivity|].
        rewrite elem_of_cons. tauto.
Qed.

Lemma fold_errors (cs : list Category) (st : PublishResult * Log) :
  errors (fst (fold_left run_step cs st))
  = (errors (fst st) ++ concat (map (error_of env signEvent lists) cs))%list.
Proof.
  revert st. induction cs as [|c cs IH]; intros st; cbn [fold_left map concat].
  - by rewrite app_nil_r.
  - rewrite IH, step_errors, <- app_assoc. reflexivity.
Qed.

Lemma fold_signed (cs : list Category) (st : PublishResult * Log) :
  signed (snd (fold_left run_step cs st))
  = (signed (snd st)
     ++ map (template_of env lists) (filter (fun c => attempted lists c) cs))%list.
Proof.
  revert st. induction cs as [|c cs IH]; intros st; cbn [fold_left].
  - by rewrite app_nil_r.
  - rewrite IH, step_signed, filter_bool_cons, <- app_assoc.
    destruct (attempted lists c); reflexivity.
Qed.

(** The outcome of a publication, category by category: a flag is set
    exactly when the block of its own category ran and its record was
    signed and accepted; the errors are those of the blocks that
    failed, in block order; the signer saw the records of the blocks
    that ran. *)
Lemma mutationFn_outcome :
  ∃ r log,
    mutationFn env (Some signEvent) lists = (Ok r, log) ∧
    (∀ c, flag c r = attempted lists c && succeeds env signEvent lists c) ∧
    errors r = concat (map (error_of env signEvent lists) all_categories) ∧
    signed log = map (template_of env lists) (attempted_categories lists).
Proof.
  rewrite mutationFn_steps. cbn zeta. eexists _, _. split; [reflexivity|].
  fold run_step. split; [|split].
  - intros c. rewrite fold_flag. cbn [fst].
    rewrite bool_decide_eq_true_2.
    + destruct c; cbn; by rewrite orb_false_r.
    + unfold all_categories. destruct c; set_solver.
  - rewrite fold_errors. reflexivity.
  - rewrite fold_signed. reflexivity.
Qed.

End Run.

Lemma concat_single {B} (g : Category → list B) (f : Category) (l : list Category) :
  NoDup l → f ∈ l → (∀ c, c ≠ f → g c = []) → concat (map g l) = g f.
Proof.
  induction 1 as [|c l Hc Hl IH]; intros Hf Hg.
  - by apply elem_of_nil in Hf.
  - cbn. apply elem_of_cons in Hf as [<-|Hf].
    + assert (E : concat (map g l) = []).
      { clear IH Hl. induction l as [|c l IH]; cbn; [reflexivity|].
        rewrite Hg, IH; [reflexivity| |].
        - intros H. apply Hc, elem_of_cons. auto.
        - intros ->. apply Hc, elem_of_cons. auto. }
      rewrite E. apply app_nil_r.
    + rewrite (Hg c); [|intros ->; contradiction].
      cbn. apply IH; auto.
Qed.

Lemma count_without (a : Category → bool) (f : Category) (l : list Category) :
  NoDup l → f ∈ l → a f = true →
  S (length (filter (fun c => a c && negb (bool_decide (c = f))) l))
  = length (filter (fun c => a c) l).
Proof.
  induction 1 as [|c l Hc Hl IH]; intros Hf Ha.
  - by apply elem_of_nil in Hf.
  - rewrite !filter_bool_cons. apply elem_of_cons in Hf as [<-|Hf].
    + rewrite Ha, bool_decide_eq_true_2 by reflexivity. cbn. f_equal. f_equal.
      clear IH Hl. induction l as [|c l IH]; [reflexivity|].
      rewrite !filter_bool_cons.
      rewrite (bool_decide_eq_false_2 (c = f)).
      * rewrite andb_true_r, IH; [reflexivity|].
        intros H. apply Hc, elem_of_cons. auto.
      * intros ->. apply Hc, elem_of_cons. auto.
    + rewrite (bool_decide_eq_false_2 (c = f)) by (intros ->; contradiction).
      rewrite andb_true_r. destruct (a c); cbn; rewrite <- IH by auto; reflexivity.
Qed.

Lemma all_categories_NoDup : NoDup all_categories.
Proof. apply (bool_decide_unpack _). vm_compute. exact I. Qed.

Lemma in_all_categories (c : Category) : c ∈ all_categories.
Proof. unfold all_categories. destruct c; set_solver. Qed.

(** C2.  When exactly three blocks run and the transport rejects the
    record of exactly one of them, the two other records being signed
    and accepted: every flag is decided by the block of its own
    category alone; the flag of the failed category is false; exactly
    two flags are true; among the three categories that ran exactly one
    flag is false; and the error list is the single entry of the failed
    category, its label followed by the formatted message. *)
Theorem publish_one_failure (env : Env) (signEvent : Signer)
    (lists : RelayListsToPublish) (failed : Category)
    (event : NostrEvent) (e : Thrown) :
  length (attempted_categories lists) = 3%nat →
  attempted lists failed = true →
  signEvent (template_of env lists failed) = Ok event →
  nostr_event env event = Throw e →
  forallb (fun c => bool_decide (c = failed) || succeeds env signEvent lists c)
          (attempted_categories lists) = true →
  ∃ r log,
    mutationFn env (Some signEvent) lists = (Ok r, log) ∧
    (∀ c, flag c r = attempted lists c && succeeds env signEvent lists c) ∧
    flag failed r = false ∧
    length (filter (fun c => flag c r) all_categories) = 2%nat ∧
    length (filter (fun c => negb (flag c r)) (attempted_categories lists)) = 1%nat ∧
    errors r = [label failed +:+ ": " +:+ formatRelayError e].
Proof.
  intros H3 Hatt Hsign Hsend Hothers.
  destruct (mutationFn_outcome env signEvent lists) as (r & log & Hrun & Hflag & Herr & _).
  exists r, log.
  assert (Hfail : succeeds env signEvent lists failed = false).
  { unfold succeeds, outcome. by rewrite Hsign, Hsend. }
  assert (Hok : ∀ c, flag c r = attempted lists c && negb (bool_decide (c = failed))).
  { intros c. rewrite Hflag.
    destruct (attempted lists c) eqn:Hc; [|reflexivity]. cbn [andb].
    destruct (decide (c = failed)) as [->|Hne].
    - rewrite bool_decide_eq_true_2 by reflexivity. exact Hfail.
    - rewrite (bool_decide_eq_false_2 _ Hne).
      rewrite forallb_forall in Hothers.
      specialize (Hothers c). rewrite (bool_decide_eq_false_2 _ Hne) in Hothers.
      apply Hothers. apply list_elem_of_In, list_elem_of_filter.
      split; [by rewrite Hc|apply in_all_categories]. }
  repeat split; [exact Hrun|exact Hflag|..].
  - by rewrite Hflag, Hfail, andb_false_r.
  - pose proof (count_without (attempted lists) failed all_categories
                  all_categories_NoDup (in_all_categories failed) Hatt) as Hcount.
    fold (attempted_categories lists) in Hcount. rewrite H3 in Hcount.
    rewrite (list_filter_iff _ (fun c => attempted lists c
                                         && negb (bool_decide (c = failed)))).
    + lia.
    + intros c. by rewrite Hok.
  - unfold attempted_categories. rewrite list_filter_filter.
    rewrite (list_filter_iff _ (fun c => c = failed)).
    + clear -Hatt. generalize (in_all_categories failed) all_categories_NoDup.
      induction all_categories as [|c l IH]; intros Hin Hnd.
      * by apply elem_of_nil in Hin.
      * apply NoDup_cons in Hnd as [Hc Hl]. rewrite filter_cons.
        apply elem_of_cons in Hin as [<-|Hin].
        -- rewrite decide_True by reflexivity. cbn. f_equal.
           clear IH Hl. induction l as [|c l IH]; [reflexivity|].
           rewrite filter_cons, decide_False.
           ++ apply IH. intros H. apply Hc, elem_of_cons. auto.
           ++ intros ->. apply Hc, elem_of_cons. auto.
        -- rewrite decide_False by (intros ->; contradiction). auto.
    + intros c. rewrite Hok. split.
      * intros [H1 H2]. destruct (attempted lists c); [|done]. cbn in H1.
        destruct (decide (c = failed)) as [->|Hne]; [reflexivity|].
        rewrite (bool_decide_eq_false_2 _ Hne) in H1. done.
      * intros ->. rewrite Hatt, bool_decide_eq_true_2 by reflexivity. done.
  - rewrite Herr.
    rewrite (concat_single _ failed _ all_categories_NoDup (in_all_categories failed)).
    + unfold error_of, outcome. by rewrite Hatt, Hsign, Hsend.
    + intros c Hne. unfold error_of.
      destruct (attempted lists c) eqn:Hc; [|reflexivity].
      specialize (Hok c). rewrite Hflag, Hc, (bool_decide_eq_false_2 _ Hne) in Hok.
      cbn in Hok. unfold succeeds in Hok.
      destruct (outcome env signEvent (template_of env lists c)); [reflexivity|done].
Qed.

Lemma template_kind (env : Env) (lists : RelayListsToPublish) (c : Category) :
  t_kind (template_of env lists c) = kind_of c.
Proof.
  destruct c; try reflexivity; cbn; unfold resigned;
    [destruct (profileEvent lists)|destruct (contactListEvent lists)]; reflexivity.
Qed.

Lemma kind_of_inj (c c' : Category) : kind_of c = kind_of c' → c = c'.
Proof. destruct c, c'; cbn; intros H; try reflexivity; discriminate H. Qed.

Lemma filter_kind_unique (env : Env) (lists : RelayListsToPublish) (c : Category)
    (l : list Category) :
  NoDup l → c ∈ l →
  filter (fun t => t_kind t = kind_of c) (map (template_of env lists) l)
  = [template_of env lists c].
Proof.
  induction 1 as [|c' l Hc Hl IH]; intros Hin.
  - by apply elem_of_nil in Hin.
  - rewrite map_cons, filter_cons, template_kind.
    apply elem_of_cons in Hin as [<-|Hin].
    + rewrite decide_True by reflexivity. f_equal.
      clear IH Hl. induction l as [|c' l IH]; [reflexivity|].
      rewrite map_cons, filter_cons, template_kind, decide_False.
      * apply IH. intros H. apply Hc, elem_of_cons. auto.
      * intros H. apply kind_of_inj in H as ->. apply Hc, elem_of_cons. auto.
    + rewrite decide_False; [by apply IH|].
      intros H. apply kind_of_inj in H as ->. contradiction.
Qed.

(** C9.  For a category whose record is a plain relay list
    (direct-message 10050, search 10007, block-list 10006, indexer
    10086, proxy 10087, broadcast 10088, trusted 10089) with a non-empty
    list, the publication hands the signer exactly one record of that
    kind: empty content, one [relay] tag per configured URL in list
    order, followed by the [client] tag with the host name exactly when
    the page's protocol is [https:]. *)
Theorem singleton_category_record (env : Env) (signEvent : Signer)
    (lists : RelayListsToPublish) (c : Category) (u : string) (us : list string) :
  singleton_category c = true →
  urls_of lists c = u :: us →
  ∃ r log,
    mutationFn env (Some signEvent) lists = (Ok r, log) ∧
    filter (fun t => t_kind t = kind_of c) (signed log)
    = [mkTemplate (kind_of c) ""
         (map (fun url => ["relay"; url]) (u :: us)
          ++ if String.eqb (location_protocol env) "https:"
             then [["client"; location_hostname env]] else [])%list
         (date_now env (kind_of c) / 1000)].
Proof.
  intros Hs Hurls.
  destruct (mutationFn_outcome env signEvent lists) as (r & log & Hrun & _ & _ & Hsigned).
  exists r, log. split; [exact Hrun|].
  rewrite Hsigned, filter_kind_unique.
  - rewrite <- Hurls.
    destruct c; try discriminate Hs; cbn [template_of kind_of];
      unfold template, addClientTag, relay_tags;
      destruct (String.eqb (location_protocol env) "https:");
      rewrite ?app_nil_r; reflexivity.
  - unfold attempted_categories. apply NoDup_filter, all_categories_NoDup.
  - apply list_elem_of_filter. split; [|apply in_all_categories].
    destruct c; try discriminate Hs; cbn [attempted]; rewrite Hurls; exact I.
Qed.

Lemma publish_one_failure_witness :
  ∃ r log,
    mutationFn example_env (Some example_signer) example_lists = (Ok r, log) ∧
    (∀ c, flag c r = attempted example_lists c
                     && succeeds example_env example_signer example_lists c) ∧
    flag cat_search r = false ∧
    length (filter (fun c => flag c r) all_categories) = 2%nat ∧
    length (filter (fun c => negb (flag c r)) (attempted_categories example_lists)) = 1%nat ∧
    errors r = ["Search relays" +:+ ": "
                +:+ formatRelayError (ErrorObj "All promises were rejected")].
Proof.
  apply (publish_one_failure example_env example_signer example_lists cat_search
           (mkEvent "signed" "me" 10007 ""
                    [["relay"; "wss://search.example.com"];
                     ["relay"; "wss://find.example.com"];
                     ["client"; "relayopti.example"]] 1700000000)
           (ErrorObj "All promises were rejected")); reflexivity.
Defined.

Lemma singleton_category_record_witness :
  ∃ r log,
    mutationFn example_env (Some example_signer) example_lists = (Ok r, log) ∧
    filter (fun t => t_kind t = kind_of cat_search) (signed log)
    = [mkTemplate 10007 ""
         [["relay"; "wss://search.example.com"]; ["relay"; "wss://find.example.com"];
          ["client"; "relayopti.example"]]
         1700000000].
Proof.
  apply (singleton_category_record example_env example_signer example_lists cat_search
           "wss://search.example.com" ["wss://find.example.com"]); reflexivity.
Defined.

End PublishFacts.


(** ** Binary64 comparisons and division *)

Section FloatFacts.

Lemma SFcompare_swap (x y : spec_float) :
  SFcompare y x
  = match SFcompare x y with Some c => Some (CompOpp c) | None => None end.
Proof.
  destruct x as [sx|sx| |sx mx ex], y as [sy|sy| |sy my ey]; cbn;
    try reflexivity; try (destruct sx; reflexivity); try (destruct sy; reflexivity);
    try (destruct sx, sy; reflexivity).
  destruct sx, sy; try reflexivity; f_equal;
    rewrite (Z.compare_antisym ex ey); destruct (ex ?= ey)%Z; cbn; try reflexivity;
    rewrite (Pos.compare_cont_antisym _ _ Eq); cbn; try reflexivity.
  by rewrite CompOpp_involutive.
Qed.

Lemma SFcompare_refl (x : spec_float) : x ≠ S754_nan → SFcompare x x = Some Eq.
Proof.
  destruct x as [s|s| |s m e]; cbn; intros H; try reflexivity; try congruence.
  - by destruct s.
  - destruct s; rewrite Z.compare_refl, Pos.compare_cont_refl; reflexivity.
Qed.

Lemma SFcompare_total (x y : spec_float) :
  x ≠ S754_nan → y ≠ S754_nan → SFcompare x y ≠ None.
Proof.
  destruct x as [sx|sx| |sx mx ex], y as [sy|sy| |sy my ey]; cbn; congruence.
Qed.

Lemma is_nan_false (x : float) : is_nan x = false ↔ Prim2SF x ≠ S754_nan.
Proof.
  unfold is_nan. rewrite FloatAxioms.eqb_spec. unfold SFeqb. split.
  - intros H E. rewrite E in H. discriminate H.
  - intros H. by rewrite SFcompare_refl.
Qed.

Lemma ltb_leb (x y : float) : (x <? y)%float = true → (x <=? y)%float = true.
Proof.
  rewrite FloatAxioms.ltb_spec, FloatAxioms.leb_spec. unfold SFltb, SFleb.
  destruct (SFcompare _ _) as [[]|]; congruence.
Qed.

Lemma not_ltb_leb (x y : float) :
  is_nan x = false → is_nan y = false →
  (y <? x)%float = false → (x <=? y)%float = true.
Proof.
  rewrite !is_nan_false, FloatAxioms.ltb_spec, FloatAxioms.leb_spec. unfold SFltb, SFleb.
  intros Hx Hy. rewrite (SFcompare_swap (Prim2SF x) (Prim2SF y)).
  pose proof (SFcompare_total _ _ Hx Hy).
  destruct (SFcompare (Prim2SF x) (Prim2SF y)) as [[]|]; cbn; congruence.
Qed.

Lemma shr_1_nonneg (mrs : shr_record) : (0 ≤ shr_m mrs → 0 ≤ shr_m (shr_1 mrs))%Z.
Proof.
  destruct mrs as [m r s]. destruct m as [|p|p]; cbn; try lia; destruct p; cbn; lia.
Qed.

Lemma iter_pos_inv {A} (P : A → Prop) (f : A → A) :
  (∀ x, P x → P (f x)) → ∀ n x, P x → P (SpecFloat.iter_pos f n x).
Proof. intros Hf. induction n as [n IH|n IH|]; intros x Hx; cbn; auto. Qed.

Lemma shr_nonneg (mrs : shr_record) (e n : Z) :
  (0 ≤ shr_m mrs → 0 ≤ shr_m (fst (shr mrs e n)))%Z.
Proof.
  intros H. unfold shr. destruct n; cbn; auto.
  apply (iter_pos_inv (fun r => 0 ≤ shr_m r)%Z); auto using shr_1_nonneg.
Qed.

Lemma shr_record_m (m : Z) (l : location) : shr_m (shr_record_of_loc m l) = m.
Proof. destruct l as [|[]]; reflexivity. Qed.

Lemma round_nonneg (m : Z) (l : location) : (0 ≤ m → 0 ≤ round_nearest_even m l)%Z.
Proof. intros H. destruct l as [|[]]; cbn; try lia; destruct (Z.even m); lia. Qed.

Lemma binary_round_aux_not_nan (p em : Z) (s : bool) (mx ex : Z) (lx : location) :
  (0 ≤ mx)%Z → binary_round_aux p em s mx ex lx ≠ S754_nan.
Proof.
  intros H. unfold binary_round_aux, shr_fexp.
  destruct (shr (shr_record_of_loc mx lx) ex _) as [mrs' e'] eqn:E1.
  destruct (shr (shr_record_of_loc
                   (round_nearest_even (shr_m mrs') (loc_of_shr_record mrs'))
                   loc_Exact) e' _) as [mrs'' e''] eqn:E2.
  assert (H1 : (0 ≤ shr_m mrs')%Z).
  { change mrs' with (fst (mrs', e')). rewrite <- E1.
    apply shr_nonneg. by rewrite shr_record_m. }
  assert (H2 : (0 ≤ shr_m mrs'')%Z).
  { change mrs'' with (fst (mrs'', e'')). rewrite <- E2.
    apply shr_nonneg. rewrite shr_record_m. by apply round_nonneg. }
  destruct (shr_m mrs'') as [|q|q]; try discriminate; [|lia].
  destruct (Z.leb _ _); discriminate.
Qed.

Lemma SFdiv_finite_not_nan (p em : Z) sx mx ex sy my ey :
  SFdiv p em (S754_finite sx mx ex) (S754_finite sy my ey) ≠ S754_nan.
Proof.
  unfold SFdiv, SFdiv_core_binary.
  set (m' := match _ with Z0 => Z.pos mx | Zpos _ => _ | Zneg _ => _ end).
  assert (Hm : (0 ≤ m')%Z).
  { subst m'. destruct (_ - _ - _)%Z; try lia. apply Z.shiftl_nonneg. lia. }
  pose proof (Z_div_mod m' (Z.pos my) ltac:(lia)) as Hd.
  destruct (Z.div_eucl m' (Z.pos my)) as [q r].
  apply binary_round_aux_not_nan. nia.
Qed.

(** A number that is not NaN divided by five is not NaN. *)
Lemma div5_not_nan (x : float) : is_nan x = false → is_nan (x / 5) = false.
Proof.
  rewrite !is_nan_false, FloatAxioms.div_spec. unfold SF64div.
  change (Prim2SF 5) with (S754_finite false 5629499534213120 (-50)).
  destruct (Prim2SF x) as [s|s| |s m e]; intros H; cbn [SFdiv];
    try discriminate; try congruence.
  apply SFdiv_finite_not_nan.
Qed.

End FloatFacts.

(** ** Review parsing *)

Section ReviewFacts.

Import Reviews.

Variable parseFloat : string → float.

Lemma Math_min_1_bounds (r : float) :
  is_nan r = false →
  is_nan (Math_min 1 r) = false ∧ (Math_min 1 r <=? 1)%float = true.
Proof.
  intros Hr. unfold Math_min.
  change (is_nan 1) with false. rewrite Hr. cbn [orb].
  change (get_sign 1) with false.
  destruct (1 <? r)%float eqn:E1; [split; reflexivity|].
  destruct (r <? 1)%float eqn:E2; (split; [exact Hr|]).
  - by apply ltb_leb.
  - by apply not_ltb_leb.
Qed.

Lemma Math_max_0_bounds (m : float) :
  is_nan m = false → (m <=? 1)%float = true →
  (0 <=? Math_max 0 m)%float = true ∧ (Math_max 0 m <=? 1)%float = true.
Proof.
  intros Hm Hle. unfold Math_max.
  change (is_nan 0) with false. rewrite Hm. cbn [orb].
  change (get_sign 0) with false.
  destruct (0 <? m)%float eqn:E1; [split; [by apply ltb_leb|exact Hle]|].
  destruct (m <? 0)%float eqn:E2; split; reflexivity.
Qed.

Lemma clamp_bounds (r : float) :
  is_nan r = false →
  (0 <=? Math_max 0 (Math_min 1 r))%float = true ∧
  (Math_max 0 (Math_min 1 r) <=? 1)%float = true.
Proof.
  intros Hr. destruct (Math_min_1_bounds r Hr). by apply Math_max_0_bounds.
Qed.

Lemma review_rating_bounds (tags : list Tag) :
  (0 <=? review_rating parseFloat tags)%float = true ∧
  (review_rating parseFloat tags <=? 1)%float = true.
Proof.
  unfold review_rating.
  destruct (find_tag "rating" tags) as [ratingTag|]; [|split; reflexivity].
  destruct (is_nan (parse_rating_value parseFloat ratingTag)) eqn:Hn;
    cbn [negb]; [split; reflexivity|].
  destruct (1 <? _)%float; apply clamp_bounds; [by apply div5_not_nan|exact Hn].
Qed.

(** C10, as the code has it.  [parseReviewEvent] returns [null] exactly
    when the first [r] tag of the event is missing or carries no URL
    (later [r] tags are not consulted).  Otherwise it returns a review
    for the normalized URL of that tag whose rating is not NaN and lies
    in the closed interval from 0 to 1: without a rating tag, or with
    one whose value is not a number, the rating is 0.5; a number above 1
    is divided by 5; the number is then clamped to the interval. *)
Theorem review_parsing (event : NostrEvent) :
  (parseReviewEvent parseFloat event = None
   ↔ first_r_tag_has_url (ev_tags event) = false) ∧
  match parseReviewEvent parseFloat event with
  | Some review =>
      (0 <=? rating review)%float = true ∧ (rating review <=? 1)%float = true ∧
      rating review = review_rating parseFloat (ev_tags event)
  | None => True
  end ∧
  match find_tag "rating" (ev_tags event) with
  | None => review_rating parseFloat (ev_tags event) = 0.5%float
  | Some ratingTag =>
      let parsed := parse_rating_value parseFloat ratingTag in
      review_rating parseFloat (ev_tags event)
      = if is_nan parsed then 0.5%float
        else if (1 <? parsed)%float then Math_max 0 (Math_min 1 (parsed / 5))
        else Math_max 0 (Math_min 1 parsed)
  end.
Proof.
  split; [|split].
  - unfold parseReviewEvent, first_r_tag_has_url.
    destruct (find_tag "r" (ev_tags event)) as [rTag|]; [|split; reflexivity].
    destruct (rTag !! 1%nat) as [u|]; [|split; reflexivity].
    destruct (is_empty u); cbn; split; intros H; try reflexivity; discriminate H.
  - unfold parseReviewEvent.
    destruct (find_tag "r" (ev_tags event)) as [rTag|]; [|exact I].
    destruct (rTag !! 1%nat) as [u|]; [|exact I].
    destruct (is_empty u); [exact I|]. cbn [rating].
    destruct (review_rating_bounds (ev_tags event)). auto.
  - unfold review_rating.
    destruct (find_tag "rating" (ev_tags event)) as [ratingTag|]; [|reflexivity].
    cbn zeta. destruct (is_nan _); cbn [negb]; [reflexivity|].
    destruct (1 <? _)%float; reflexivity.
Qed.

End ReviewFacts.

(** C10 as stated fails: an event whose first [r] tag is bare and whose
    second [r] tag carries a URL is rejected, although it has an [r] tag
    carrying a URL. *)
Lemma review_with_later_r_tag_rejected :
  let event := mkEvent "id1" "author" 1986 "solid relay"
                       [["r"]; ["r"; "wss://relay.example.com"]; ["rating"; "0.75"]]
                       1700000000 in
  Reviews.parseReviewEvent (fun _ => 0.75%float) event = None ∧
  some_r_tag_has_url (ev_tags event) = true.
Proof. vm_compute. split; reflexivity. Qed.

Example rating_on_five_scale :
  Reviews.review_rating (fun _ => 2.5%float)
                        [["r"; "wss://relay.example.com"]; ["rating"; "2.5"]]
  = 0.5%float ∧
  Reviews.review_rating (fun _ => 0.75%float) [["rating"; "0.75"]] = 0.75%float ∧
  Reviews.review_rating (fun _ => 12%float) [["rating"; "12"]] = 1%float ∧
  Reviews.review_rating (fun _ => (-3)%float) [["rating"; "-3"]] = 0%float ∧
  Reviews.review_rating (fun _ => nan) [["rating"; "great"]] = 0.5%float ∧
  Reviews.review_rating (fun _ => 1%float) [["rating"]] = 0.5%float.
Proof. vm_compute. repeat split. Qed.

(** ** Identity normalizer *)

Section NormalizerFacts.

Example normalize_examples :
  normalizeRelayUrl "wss://Relay.Example.com:443/" = "wss://relay.example.com" ∧
  normalizeRelayUrl "wss://relay.example.com" = "wss://relay.example.com" ∧
  normalizeRelayUrl "WS://Relay.Example.com:80" = "ws://relay.example.com" ∧
  normalizeRelayUrl "wss://relay.example.com:8443/inbox/" = "wss://relay.example.com:8443/inbox" ∧
  normalizeRelayUrl "Relay.Example.com/" = "relay.example.com" ∧
  deduplicateRelays ["wss://a.com"; "wss://a.com/"] = ["wss://a.com"].
Proof. vm_compute. repeat split. Qed.

(** *** Strings *)

Lemma str_app_cons (x : ascii) (a b : string) : String x a +:+ b = String x (a +:+ b).
Proof. reflexivity. Qed.

Lemma str_app_nil_l (b : string) : "" +:+ b = b.
Proof. reflexivity. Qed.

Lemma str_app_assoc (a b c : string) : (a +:+ b) +:+ c = a +:+ (b +:+ c).
Proof.
  induction a as [|x a IH]; [reflexivity|]. by rewrite !str_app_cons, IH.
Qed.

Lemma str_app_nil_r (a : string) : a +:+ "" = a.
Proof.
  induction a as [|x a IH]; [reflexivity|]. by rewrite str_app_cons, IH.
Qed.

Lemma span_app_stop (f : ascii → bool) (a b : string) :
  all_chars f a = true → head_is f b = false → span f (a +:+ b) = (a, b).
Proof.
  intros Ha Hb. induction a as [|x a IH].
  - rewrite str_app_nil_l. destruct b as [|y b]; cbn in *; [reflexivity|].
    by rewrite Hb.
  - rewrite str_app_cons. cbn in *.
    apply andb_prop in Ha as [Hx Ha]. by rewrite Hx, IH.
Qed.

Lemma span_stop (f : ascii → bool) (s : string) :
  head_is f s = false → span f s = ("", s).
Proof. destruct s as [|c s]; cbn; [reflexivity|]. by intros ->. Qed.

Lemma all_chars_app (f : ascii → bool) (a b : string) :
  all_chars f (a +:+ b) = all_chars f a && all_chars f b.
Proof.
  induction a as [|x a IH]; [reflexivity|].
  rewrite str_app_cons. cbn. by rewrite IH, andb_assoc.
Qed.

Lemma all_chars_impl (f g : ascii → bool) (s : string) :
  (∀ c, implb (f c) (g c) = true) → all_chars f s = true → all_chars g s = true.
Proof.
  intros H. induction s as [|x s IH]; cbn; [reflexivity|].
  intros Hs. apply andb_prop in Hs as [Hx Hs].
  specialize (H x). rewrite Hx in H. cbn in H. by rewrite H, IH.
Qed.

Lemma toLowerCase_app (a b : string) :
  toLowerCase (a +:+ b) = toLowerCase a +:+ toLowerCase b.
Proof.
  induction a as [|x a IH]; [reflexivity|].
  rewrite str_app_cons. cbn [toLowerCase]. by rewrite IH.
Qed.

Lemma lower_ascii_idem (c : ascii) : lower_ascii (lower_ascii c) = lower_ascii c.
Proof. destruct c as [[] [] [] [] [] [] [] []]; reflexivity. Qed.

Lemma toLowerCase_idem (s : string) : toLowerCase (toLowerCase s) = toLowerCase s.
Proof.
  induction s as [|x s IH]; cbn; [reflexivity|]. by rewrite lower_ascii_idem, IH.
Qed.

Lemma strip_trailing_slash_app (a : string) : strip_trailing_slash (a +:+ "/") = a.
Proof.
  induction a as [|x a IH]; [reflexivity|].
  rewrite str_app_cons. cbn [strip_trailing_slash]. rewrite IH.
  destruct a; reflexivity.
Qed.

Lemma strip_trailing_slash_id (a : string) :
  ends_with_slash a = false → strip_trailing_slash a = a.
Proof.
  induction a as [|x a IH]; [reflexivity|].
  cbn [ends_with_slash strip_trailing_slash]. destruct a as [|y a].
  - intros ->. reflexivity.
  - intros H. by rewrite IH.
Qed.

Lemma ends_with_slash_app (a b : string) :
  is_empty b = false → ends_with_slash (a +:+ b) = ends_with_slash b.
Proof.
  intros Hb. induction a as [|x a IH]; [reflexivity|].
  rewrite str_app_cons. cbn [ends_with_slash]. rewrite IH.
  destruct (a +:+ b) eqn:E; [|reflexivity].
  destruct a, b; discriminate.
Qed.

(** *** Parsing a relay URL *)

Ltac ascii_cases c := destruct c as [[] [] [] [] [] [] [] []]; reflexivity.

Lemma host_char_not_authority_end (c : ascii) :
  implb (Url.host_char c) (negb (Url.is_authority_end c)) = true.
Proof. ascii_cases c. Qed.

Lemma host_char_not_colon (c : ascii) :
  implb (Url.host_char c) (negb (Url.is_colon c)) = true.
Proof. ascii_cases c. Qed.

Lemma host_char_not_forbidden (c : ascii) :
  implb (Url.host_char c) (negb (Url.forbidden_host_char c)) = true.
Proof. ascii_cases c. Qed.

Lemma host_plain_valid (h : string) : Url.host_plain h = true → Url.valid_host h = true.
Proof.
  unfold Url.host_plain, Url.valid_host. intros H.
  apply andb_prop in H as [Hc Hl]. apply andb_true_intro. split.
  - destruct h; [discriminate Hl|reflexivity].
  - eapply all_chars_impl; [|exact Hc]. apply host_char_not_forbidden.
Qed.

Lemma span_two_slashes (X : string) :
  head_is Url.is_slash X = false → snd (span Url.is_slash ("//" +:+ X)) = X.
Proof.
  intros H. change ("//" +:+ X) with (String "/" (String "/" X)).
  cbn [span]. change (Url.is_slash "/") with true. cbn iota.
  by rewrite (span_stop _ X H).
Qed.

Lemma parse_relay_url (wss : bool) (h : string) (p : bool) (R : string) :
  Url.host_plain h = true →
  head_is (fun c => negb (Url.is_authority_end c)) R = false →
  Url.parse (scheme_of wss +:+ "://" +:+ h
             +:+ (if p then ":" +:+ default_port_of wss else "") +:+ R)
  = let '(pth, q, f) := Url.parse_rest R in
    Some (Url.mkURL (scheme_of wss) (toLowerCase h) None pth q f).
Proof.
  intros Hh HR.
  pose proof (host_plain_valid h Hh) as Hv.
  apply andb_prop in Hh as [Hc _].
  set (portpart := if p then ":" +:+ default_port_of wss else "").
  unfold Url.parse.
  rewrite (span_app_stop _ (scheme_of wss)); [|by destruct wss|by destruct wss].
  change ("://" +:+ h +:+ portpart +:+ R)
    with (String ":" ("//" +:+ h +:+ portpart +:+ R)).
  replace (Url.valid_scheme (scheme_of wss)
           && Url.special_scheme (toLowerCase (scheme_of wss)))
    with true by (by destruct wss).
  rewrite span_two_slashes.
  2:{ destruct h as [|c h]; [discriminate Hv|].
      rewrite str_app_cons. cbn in *. apply andb_prop in Hc as [Hc _].
      pose proof (host_char_not_authority_end c) as H. rewrite Hc in H. cbn in H.
      unfold Url.is_authority_end in H. apply negb_true_iff in H.
      apply orb_false_elim in H as [H _]. by apply orb_false_elim in H as [H _]. }
  rewrite <- str_app_assoc.
  rewrite (span_app_stop _ (h +:+ portpart) R); [|clear HR|exact HR].
  2:{ rewrite all_chars_app. apply andb_true_intro. split.
      - eapply all_chars_impl; [|exact Hc]. apply host_char_not_authority_end.
      - subst portpart. by destruct p, wss. }
  rewrite (span_app_stop _ h portpart).
  2:{ eapply all_chars_impl; [|exact Hc]. apply host_char_not_colon. }
  2:{ subst portpart. by destruct p. }
  rewrite Hv.
  replace (toLowerCase (scheme_of wss)) with (scheme_of wss) by (by destruct wss).
  assert (Hp : ∃ n, Url.parse_port portpart = Some n
                    ∧ Url.strip_default (scheme_of wss) n = None).
  { subst portpart. destruct p, wss; eexists; split; reflexivity. }
  destruct Hp as (n & -> & ->). reflexivity.
Qed.

Lemma span_app_eq (f : ascii → bool) (s : string) :
  fst (span f s) +:+ snd (span f s) = s.
Proof.
  induction s as [|c s IH]; [reflexivity|]. cbn [span].
  destruct (f c); [|reflexivity].
  destruct (span f s) as [a b]. cbn in *. by rewrite str_app_cons, IH.
Qed.

Lemma span_fst_empty (f : ascii → bool) (s : string) :
  is_empty (fst (span f s)) = negb (head_is f s).
Proof.
  destruct s as [|c s]; [reflexivity|]. cbn.
  destruct (f c); [|reflexivity]. by destruct (span f s).
Qed.

Lemma span_snd_head (f : ascii → bool) (s : string) : head_is f (snd (span f s)) = false.
Proof.
  induction s as [|c s IH]; [reflexivity|]. cbn [span].
  destruct (f c) eqn:E; [|cbn; exact E]. by destruct (span f s).
Qed.

(** Serializing what [parse_rest] read gives the text back, with a slash
    in front when the path was empty. *)
Lemma parse_rest_serialized (R : string) :
  let '(pth, q, f) := Url.parse_rest R in
  pth +:+ (match q with None => "" | Some q => "?" +:+ q end)
      +:+ (match f with None => "" | Some f => "#" +:+ f end)
  = serialized_rest R.
Proof.
  unfold Url.parse_rest, serialized_rest.
  set (nqh := fun c => negb (Url.is_question c || Url.is_hash c)).
  pose proof (span_app_eq nqh R) as E.
  pose proof (span_fst_empty nqh R) as Hemp.
  pose proof (span_snd_head nqh R) as Hhead.
  destruct (span nqh R) as [p r1]. cbn [fst snd] in *.
  assert (Hq : ∀ X, (if is_empty p then "/" else p) +:+ X
                    = (if head_is nqh R then "" else "/") +:+ p +:+ X).
  { intros X. destruct (head_is nqh R); cbn in Hemp; destruct p; try discriminate Hemp;
      reflexivity. }
  set (pre := if head_is nqh R then "" else "/") in *. clearbody pre.
  rewrite <- E. clear E Hemp.
  destruct r1 as [|c r1].
  - rewrite Hq. reflexivity.
  - destruct (Url.is_question c) eqn:Ec.
    + unfold Url.is_question in Ec. apply Ascii.eqb_eq in Ec as ->.
      pose proof (span_app_eq (fun c => negb (Url.is_hash c)) r1) as E2.
      pose proof (span_snd_head (fun c => negb (Url.is_hash c)) r1) as Hh2.
      destruct (span (fun c => negb (Url.is_hash c)) r1) as [q r2]. cbn [fst snd] in *.
      rewrite Hq, <- E2. destruct r2 as [|d r2].
      * by rewrite !str_app_nil_r.
      * cbn in Hh2. apply negb_false_iff in Hh2.
        unfold Url.is_hash in Hh2. apply Ascii.eqb_eq in Hh2 as ->.
        reflexivity.
    + cbn in Hhead. unfold nqh in Hhead. rewrite Ec in Hhead. cbn in Hhead.
      apply negb_false_iff in Hhead.
      unfold Url.is_hash in Hhead. apply Ascii.eqb_eq in Hhead as ->.
      rewrite Hq. reflexivity.
Qed.

(** The canonical form of a relay URL written out from its parts. *)
Lemma normalize_relay_url (wss : bool) (h : string) (p : bool) (R : string) :
  Url.host_plain h = true →
  head_is (fun c => negb (Url.is_authority_end c)) R = false →
  normalizeRelayUrl (scheme_of wss +:+ "://" +:+ h
                     +:+ (if p then ":" +:+ default_port_of wss else "") +:+ R)
  = strip_trailing_slash
      (scheme_of wss +:+ "://" +:+ toLowerCase h +:+ serialized_rest R).
Proof.
  intros Hh HR. unfold normalizeRelayUrl.
  rewrite (parse_relay_url wss h p R Hh HR).
  pose proof (parse_rest_serialized R) as HS.
  destruct (Url.parse_rest R) as [[pth q] f].
  unfold Url.set_hostname, Url.hostname. cbn [Url.host Url.scheme Url.port_num
    Url.path Url.query Url.fragment].
  rewrite !toLowerCase_idem.
  set (u := Url.mkURL (scheme_of wss) (toLowerCase h) None pth q f).
  assert (Hu : (if Url.valid_host (toLowerCase h) then u else u) = u)
    by (by destruct (Url.valid_host _)).
  rewrite Hu. clear Hu.
  replace (String.eqb (Url.port u) "443") with false by reflexivity.
  replace (String.eqb (Url.port u) "80") with false by reflexivity.
  rewrite !andb_false_r. cbn [orb].
  assert (Hp : (if String.eqb (Url.pathname u) "/" then Url.set_pathname u "" else u) = u).
  { destruct (String.eqb_spec (Url.pathname u) "/") as [E|_]; [|reflexivity].
    unfold u in *. cbn in E. subst pth. reflexivity. }
  rewrite Hp. unfold Url.toString, u.
  cbn [Url.host Url.scheme Url.port_num Url.path Url.query Url.fragment].
  rewrite str_app_nil_l, <- HS. reflexivity.
Qed.

Lemma serialized_rest_slash (rest : string) :
  (is_empty rest || head_is Url.is_authority_end rest) = true →
  Url.rest_plain rest = true →
  ends_with_slash rest = false →
  ∀ P, strip_trailing_slash (P +:+ serialized_rest (rest +:+ "/"))
       = strip_trailing_slash (P +:+ serialized_rest rest).
Proof.
  intros _ _ Hend P. destruct rest as [|c rest]; [reflexivity|].
  unfold serialized_rest. rewrite str_app_cons. cbn [head_is].
  set (pre := if negb (Url.is_question c || Url.is_hash c) then "" else "/").
  rewrite <- str_app_cons, <- !str_app_assoc, strip_trailing_slash_app.
  symmetry. apply strip_trailing_slash_id.
  rewrite ends_with_slash_app; [exact Hend|reflexivity].
Qed.

Lemma normalize_relay_url_parts (wss : bool) (h : string) (p : bool) (rest : string)
    (s : bool) :
  Url.host_plain h = true →
  Url.rest_plain rest = true →
  ends_with_slash rest = false →
  normalizeRelayUrl (relay_url wss h p rest s)
  = strip_trailing_slash
      (scheme_of wss +:+ "://" +:+ toLowerCase h +:+ serialized_rest rest).
Proof.
  intros Hh Hr He.
  assert (Hhead : (is_empty rest || head_is Url.is_authority_end rest) = true).
  { unfold Url.rest_plain in Hr. by apply andb_prop in Hr as [Hr _]. }
  assert (HR : head_is (fun c => negb (Url.is_authority_end c))
                       (rest +:+ (if s then "/" else "")) = false).
  { destruct rest as [|c rest].
    - by destruct s.
    - rewrite str_app_cons. cbn in *. by rewrite Hhead. }
  unfold relay_url. rewrite (normalize_relay_url wss h p _ Hh HR).
  destruct s; [|by rewrite str_app_nil_r].
  rewrite <- !str_app_assoc. by apply serialized_rest_slash.
Qed.



(** *** Idempotence away from the doubled slash *)

Lemma host_char_lower (c : ascii) :
  implb (Url.host_char c) (Url.host_char (lower_ascii c)) = true.
Proof. ascii_cases c. Qed.

Lemma is_alpha_lower (c : ascii) : is_alpha (lower_ascii c) = is_alpha c.
Proof. ascii_cases c. Qed.

Lemma is_dot_lower (c : ascii) : Ascii.eqb (lower_ascii c) "." = Ascii.eqb c ".".
Proof. ascii_cases c. Qed.

Lemma last_label_lower (a s : string) :
  Url.last_label (toLowerCase a) (toLowerCase s) = toLowerCase (Url.last_label a s).
Proof.
  revert a. induction s as [|c s IH]; intros a; [reflexivity|].
  cbn [toLowerCase Url.last_label]. rewrite is_dot_lower.
  destruct (Ascii.eqb c "."); apply IH.
Qed.

Lemma host_plain_lower (h : string) :
  Url.host_plain h = true → Url.host_plain (toLowerCase h) = true.
Proof.
  unfold Url.host_plain. intros H. apply andb_prop in H as [Hc Hl].
  apply andb_true_intro. split.
  - clear Hl. induction h as [|c h IH]; [reflexivity|]. cbn in *.
    apply andb_prop in Hc as [Hc Hh].
    pose proof (host_char_lower c) as H. rewrite Hc in H. cbn in H.
    by rewrite H, IH.
  - rewrite last_label_lower. destruct (Url.last_label h h) as [|c l]; [discriminate Hl|].
    cbn in *. by rewrite is_alpha_lower.
Qed.

(** The canonical remainder: nothing for an empty remainder, otherwise
    the remainder with its path made explicit. *)
Lemma canonical_remainder (P rest : string) :
  Url.rest_plain rest = true →
  ends_with_slash rest = false →
  let rest' := if is_empty rest then "" else serialized_rest rest in
  strip_trailing_slash (P +:+ serialized_rest rest) = P +:+ rest' ∧
  Url.rest_plain rest' = true ∧
  ends_with_slash rest' = false ∧
  serialized_rest rest' = if is_empty rest' then "/" else rest'.
Proof.
  intros Hr He. destruct rest as [|c rest].
  - cbn zeta. cbn [is_empty]. split; [|repeat split].
    change (serialized_rest "") with "/".
    rewrite str_app_nil_r. apply strip_trailing_slash_app.
  - cbn zeta. cbn [is_empty].
    unfold Url.rest_plain in Hr. apply andb_prop in Hr as [Hhead Hchars].
    cbn [is_empty orb head_is] in Hhead.
    unfold serialized_rest. cbn [head_is].
    set (nqh := negb (Url.is_question c || Url.is_hash c)).
    assert (Hpre : (if nqh then "" else "/") +:+ String c rest
                   = if nqh then String c rest else String "/" (String c rest))
      by (by destruct nqh).
    rewrite Hpre.
    assert (Hne : ends_with_slash (if nqh then String c rest
                                   else String "/" (String c rest)) = false)
      by (by destruct nqh).
    repeat split.
    + apply strip_trailing_slash_id. rewrite ends_with_slash_app; [exact Hne|].
      by destruct nqh.
    + unfold Url.rest_plain. cbn [all_chars] in Hchars.
      destruct nqh; cbn [is_empty orb head_is all_chars].
      * by rewrite Hhead, Hchars.
      * by rewrite Hchars.
    + exact Hne.
    + destruct nqh eqn:E; cbn [is_empty head_is].
      * fold nqh. by rewrite E.
      * reflexivity.
Qed.

(** X2.  On relay URLs whose remainder does not end in a slash the
    canonical form is a fixed point of [normalizeRelayUrl]: the property
    of C3 holds away from the doubled slash. *)
Lemma normalize_idempotent_relay_url (wss : bool) (h : string) (p : bool)
    (rest : string) (s : bool) :
  Url.host_plain h = true →
  Url.rest_plain rest = true →
  ends_with_slash rest = false →
  normalizeRelayUrl (normalizeRelayUrl (relay_url wss h p rest s))
  = normalizeRelayUrl (relay_url wss h p rest s).
Proof.
  intros Hh Hr He.
  rewrite (normalize_relay_url_parts wss h p rest s Hh Hr He).
  destruct (canonical_remainder (scheme_of wss +:+ "://" +:+ toLowerCase h) rest Hr He)
    as (E1 & Hr' & He' & E2).
  cbn zeta in *. set (rest' := if is_empty rest then "" else serialized_rest rest) in *.
  rewrite !str_app_assoc in E1. rewrite E1.
  assert (Hu : scheme_of wss +:+ "://" +:+ toLowerCase h +:+ rest'
               = relay_url wss (toLowerCase h) false rest' false).
  { unfold relay_url. by rewrite str_app_nil_l, str_app_nil_r. }
  rewrite Hu.
  rewrite (normalize_relay_url_parts wss (toLowerCase h) false rest' false
             (host_plain_lower h Hh) Hr' He').
  rewrite toLowerCase_idem.
  destruct (canonical_remainder (scheme_of wss +:+ "://" +:+ toLowerCase h) rest' Hr' He')
    as (E3 & _ & _ & _).
  cbn zeta in E3. rewrite !str_app_assoc in E3. rewrite E3.
  unfold relay_url. rewrite str_app_nil_l, str_app_nil_r.
  do 3 f_equal. rewrite E2. by destruct rest'.
Qed.

Lemma normalize_idempotent_relay_url_witness :
  normalizeRelayUrl (normalizeRelayUrl "wss://Relay.Example.com:443/inbox?x=1/")
  = normalizeRelayUrl "wss://Relay.Example.com:443/inbox?x=1/".
Proof.
  apply (normalize_idempotent_relay_url true "Relay.Example.com" true "/inbox?x=1" true);
    reflexivity.
Defined.

(** C3 at the failing inputs.  Only one trailing slash is removed, in
    the fallback branch and in the parsed branch alike, so a second
    application removes another one: [normalizeRelayUrl] is not
    idempotent on inputs that end in two slashes. *)
Theorem normalizeRelayUrl_not_idempotent :
  Url.parse "relay.example.com//" = None ∧
  normalizeRelayUrl "relay.example.com//" = "relay.example.com/" ∧
  normalizeRelayUrl (normalizeRelayUrl "relay.example.com//") = "relay.example.com" ∧
  isValidRelayUrl "wss://relay.example.com//" = true ∧
  normalizeRelayUrl "wss://relay.example.com//" = "wss://relay.example.com/" ∧
  normalizeRelayUrl (normalizeRelayUrl "wss://relay.example.com//")
  = "wss://relay.example.com".
Proof. vm_compute. repeat split. Qed.

(** C8 at the failing input.  The example of the contract holds, but
    two valid relay URLs that differ only in a trailing slash are told
    apart when the shorter one already ends in a slash. *)
Theorem isSameRelay_misses_second_slash :
  isSameRelay "wss://Relay.Example.com:443/" "wss://relay.example.com" = true ∧
  isValidRelayUrl "wss://relay.example.com/" = true ∧
  isValidRelayUrl "wss://relay.example.com//" = true ∧
  isSameRelay "wss://relay.example.com/" "wss://relay.example.com//" = false.
Proof. vm_compute. repeat split. Qed.

End NormalizerFacts.


(** * Further verified properties *)

(** ** Stable sorting with a comparator *)

Section SortFacts.

Context {A : Type} (compareFn : A → A → Z).

Lemma js_sort_insert_perm (x : A) (l : list A) :
  JsArray.sort_insert compareFn x l ≡ₚ x :: l.
Proof.
  induction l as [|z l IH]; cbn [JsArray.sort_insert]; [reflexivity|].
  destruct (0 <? compareFn x z)%Z; [|reflexivity].
  rewrite IH. apply Permutation_swap.
Qed.

Lemma js_sort_perm (l : list A) : JsArray.sort compareFn l ≡ₚ l.
Proof.
  induction l as [|x l IH]; cbn [JsArray.sort foldr]; [reflexivity|].
  fold (JsArray.sort compareFn l). by rewrite js_sort_insert_perm, IH.
Qed.

Lemma js_sort_elem (x : A) (l : list A) : x ∈ JsArray.sort compareFn l ↔ x ∈ l.
Proof. by rewrite js_sort_perm. Qed.

Lemma js_sort_length (l : list A) : length (JsArray.sort compareFn l) = length l.
Proof. by rewrite js_sort_perm. Qed.

Section Sorted.

(** An order the comparator decides: [x] is put strictly after [y] only
    when [y] may precede [x], and is left in front of [y] only when it
    may precede [y]. *)
Variable R : A → A → Prop.
Hypothesis R_trans : ∀ x y z, R x y → R y z → R x z.
Hypothesis after_R : ∀ x y, (0 < compareFn x y)%Z → R y x.
Hypothesis before_R : ∀ x y, ¬ (0 < compareFn x y)%Z → R x y.

Lemma js_sort_insert_sorted (x : A) (l : list A) :
  StronglySorted R l → StronglySorted R (JsArray.sort_insert compareFn x l).
Proof.
  induction 1 as [|z l Hs IH Hz]; cbn [JsArray.sort_insert].
  - repeat constructor.
  - destruct (Z.ltb_spec 0 (compareFn x z)) as [Hlt|Hge].
    + constructor; [exact IH|].
      apply Forall_forall. intros y Hy.
      apply (elem_of_Permutation_proper _ _ _ (js_sort_insert_perm x l)) in Hy.
      apply elem_of_cons in Hy as [->|Hy]; [by apply after_R|].
      rewrite Forall_forall in Hz. by apply Hz.
    + assert (Hxz : R x z) by (apply before_R; lia).
      constructor; [by constructor|].
      constructor; [exact Hxz|].
      eapply Forall_impl; [exact Hz|]. intros y Hy. by apply (R_trans x z y).
Qed.

Lemma js_sort_sorted (l : list A) : StronglySorted R (JsArray.sort compareFn l).
Proof.
  induction l as [|x l IH]; cbn [JsArray.sort foldr]; [constructor|].
  by apply js_sort_insert_sorted.
Qed.

End Sorted.

(** Stability: elements that the comparator never puts strictly after
    one another keep their order. *)
Lemma js_sort_stable (P : A → Prop) `{!∀ x, Decision (P x)} (l : list A) :
  (∀ x y, P x → P y → ¬ (0 < compareFn x y)%Z) →
  filter P (JsArray.sort compareFn l) = filter P l.
Proof.
  intros HP.
  assert (Hins : ∀ x l, filter P (JsArray.sort_insert compareFn x l) = filter P (x :: l)).
  { clear l. intros x l. induction l as [|z l IH]; cbn [JsArray.sort_insert]; [reflexivity|].
    destruct (Z.ltb_spec 0 (compareFn x z)) as [Hlt|Hge]; [|reflexivity].
    rewrite (filter_cons _ z), IH, !filter_cons.
    destruct (decide (P z)) as [Pz|], (decide (P x)) as [Px|]; try reflexivity.
    exfalso. exact (HP x z Px Pz Hlt). }
  induction l as [|x l IH]; cbn [JsArray.sort foldr]; [reflexivity|].
  fold (JsArray.sort compareFn l). by rewrite Hins, !filter_cons, IH.
Qed.

End SortFacts.

(** ** [lib/relay-utils.ts]: deduplication, ordering, wording *)

Section UtilsFacts.

Import RelayDisplay.

Lemma dedup_loop_NoDup (seen : gset string) (l : list string) :
  NoDup (map normalizeRelayUrl (deduplicate_loop seen l)).
Proof.
  revert seen. induction l as [|u l IH]; intros seen; cbn; [constructor|].
  destruct (decide (normalizeRelayUrl u ∈ seen)); [apply IH|].
  cbn. constructor; [|apply IH].
  rewrite dedup_elem. set_solver.
Qed.

Lemma dedup_loop_sublist (seen : gset string) (l : list string) :
  deduplicate_loop seen l `sublist_of` l.
Proof.
  revert seen. induction l as [|u l IH]; intros seen; cbn; [constructor|].
  destruct (decide (normalizeRelayUrl u ∈ seen)).
  - apply sublist_cons, IH.
  - apply sublist_skip, IH.
Qed.

Lemma dedup_loop_idem (seen : gset string) (l : list string) :
  deduplicate_loop seen (deduplicate_loop seen l) = deduplicate_loop seen l.
Proof.
  revert seen. induction l as [|u l IH]; intros seen; cbn; [reflexivity|].
  destruct (decide (normalizeRelayUrl u ∈ seen)) as [Hin|Hnin]; [apply IH|].
  cbn. rewrite decide_False by exact Hnin. f_equal. apply IH.
Qed.

(** X3.  [deduplicateRelays] keeps the input's order and spelling, keeps
    one URL for every identity of the input and no two URLs of one
    identity; the URL kept is the first of its identity; deduplicating
    the result again changes nothing. *)
Theorem deduplicateRelays_first_of_identity (urls : list string) :
  deduplicateRelays urls `sublist_of` urls ∧
  NoDup (map normalizeRelayUrl (deduplicateRelays urls)) ∧
  (∀ x, x ∈ map normalizeRelayUrl (deduplicateRelays urls)
        ↔ x ∈ map normalizeRelayUrl urls) ∧
  (∀ before u after,
      urls = (before ++ u :: after)%list →
      normalizeRelayUrl u ∉ map normalizeRelayUrl before →
      u ∈ deduplicateRelays urls) ∧
  deduplicateRelays (deduplicateRelays urls) = deduplicateRelays urls.
Proof.
  unfold deduplicateRelays. repeat split.
  - apply dedup_loop_sublist.
  - apply dedup_loop_NoDup.
  - intros H. by apply dedup_elem in H as [H _].
  - intros H. apply dedup_elem. split; [exact H|apply not_elem_of_empty].
  - intros before u after -> Hu.
    rewrite dedup_app. apply elem_of_app. right. cbn.
    rewrite decide_False; [apply elem_of_cons; auto|].
    unfold identities. rewrite elem_of_union, elem_of_list_to_set. set_solver.
  - apply dedup_loop_idem.
Qed.

(** *** Ordering by latency *)

Section SortByLatencyFacts.

Context {T : Type} (latency : T → option Z).

Lemma compare_latency_after (a b : T) :
  (0 < compare_latency latency a b)%Z → latency_le (latency b) (latency a).
Proof.
  unfold compare_latency, latency_le.
  destruct (latency a), (latency b); cbn; lia.
Qed.

Lemma compare_latency_before (a b : T) :
  ¬ (0 < compare_latency latency a b)%Z → latency_le (latency a) (latency b).
Proof.
  unfold compare_latency, latency_le.
  destruct (latency a), (latency b); cbn; lia.
Qed.

Lemma latency_le_trans (a b c : option Z) :
  latency_le a b → latency_le b c → latency_le a c.
Proof. unfold latency_le. destruct a, b, c; cbn; try tauto; lia. Qed.

(** X4.  [sortByLatency] rearranges its input so that every relay is
    followed only by relays that are no faster: measured latencies come
    in ascending order and the unreachable relays (no latency) come
    last; relays of equal latency keep the order they had. *)
Theorem sortByLatency_fastest_first (relays : list T) (v : option Z) :
  sortByLatency latency relays ≡ₚ relays ∧
  StronglySorted (fun a b => latency_le (latency a) (latency b))
                 (sortByLatency latency relays) ∧
  filter (fun r => latency r = v) (sortByLatency latency relays)
  = filter (fun r => latency r = v) relays.
Proof.
  unfold sortByLatency. split; [apply js_sort_perm|]. split.
  - apply js_sort_sorted.
    + intros x y z. apply latency_le_trans.
    + apply compare_latency_after.
    + apply compare_latency_before.
  - apply js_sort_stable. intros x y Hx Hy.
    unfold compare_latency. rewrite Hx, Hy. destruct v; lia.
Qed.

End SortByLatencyFacts.

(** *** The NIP-11 address of a relay *)

Lemma replace_first_absent (p r s : string) :
  includes p s = false → replace_first p r s = s.
Proof.
  induction s as [|c s IH]; cbn [includes replace_first]; intros H;
    apply orb_false_elim in H as [H1 H2]; rewrite H1; [reflexivity|].
  by rewrite IH.
Qed.

(** X5.  [getHttpUrl] turns the scheme of a relay URL into the scheme
    of its NIP-11 document, [wss] into [https] and [ws] into [http], and
    leaves the rest as it is, provided the rest does not contain a
    WebSocket scheme of its own; a string that contains no WebSocket
    scheme is returned unchanged.  The proviso is needed: each of the
    two replacements rewrites the first occurrence wherever it is. *)
Theorem getHttpUrl_scheme (r : string) :
  (includes "ws://" r = false → getHttpUrl ("wss://" +:+ r) = "https://" +:+ r) ∧
  (includes "wss://" r = false → getHttpUrl ("ws://" +:+ r) = "http://" +:+ r) ∧
  (includes "ws://" r = false → includes "wss://" r = false → getHttpUrl r = r) ∧
  getHttpUrl "wss://a.example.com/ws://b" = "https://a.example.com/http://b".
Proof.
  unfold getHttpUrl. repeat split.
  - intros H.
    change ("wss://" +:+ r) with (String "w" (String "s" (String "s" (String ":"
              (String "/" (String "/" r)))))).
    cbn [replace_first startsWith Ascii.eqb Bool.eqb andb String.length skip].
    change ("https://" +:+ r) with (String "h" (String "t" (String "t" (String "p"
              (String "s" (String ":" (String "/" (String "/" r)))))))).
    cbn [replace_first startsWith Ascii.eqb Bool.eqb andb].
    by rewrite (replace_first_absent _ _ r H).
  - intros H.
    change ("ws://" +:+ r) with (String "w" (String "s" (String ":"
              (String "/" (String "/" r))))).
    cbn [replace_first startsWith Ascii.eqb Bool.eqb andb].
    rewrite (replace_first_absent _ _ r H).
    cbn [replace_first startsWith Ascii.eqb Bool.eqb andb String.length skip].
    reflexivity.
  - intros H1 H2. by rewrite (replace_first_absent _ _ r H2), (replace_first_absent _ _ r H1).
Qed.

(** *** Wording of a latency *)

(** X6.  The wording shown for a latency agrees with the status it is
    given: a good relay is described as lightning fast or super quick,
    an ok one as pretty good or decent, a bad one as unreachable, a
    bit slow or quite slow; and unreachable is said of a missing latency
    only. *)
Theorem latency_description_matches_status (latency : option Z) :
  match categorizeLatency latency with
  | good => getLatencyDescription latency ∈ ["Lightning fast!"; "Super quick"]
  | ok => getLatencyDescription latency ∈ ["Pretty good"; "Decent"]
  | bad => getLatencyDescription latency ∈ ["Unreachable"; "A bit slow"; "Quite slow"]
  | unknown | testing => False
  end ∧
  (getLatencyDescription latency = "Unreachable" ↔ latency = None).
Proof.
  destruct latency as [l|]; cbn [categorizeLatency getLatencyDescription].
  - destruct (Z.ltb_spec l 50), (Z.ltb_spec l 100), (Z.ltb_spec l 200),
             (Z.ltb_spec l 300), (Z.ltb_spec l 500); try lia;
      (split; [set_solver|split; intros; discriminate]).
  - split; [set_solver|done].
Qed.

End UtilsFacts.

(** ** Health prober: the status map after a run *)

Section ProberRunFacts.

Import RelayPing.

Lemma probe_result_url (env : ProbeEnv) (u : string) : url (probe_result env u) = u.
Proof. unfold probe_result. destruct (fetch env _) as [|[] ?]; reflexivity. Qed.

Lemma probe_result_settled (env : ProbeEnv) (u : string) :
  status (probe_result env u) ∈ [good; ok; bad].
Proof.
  unfold probe_result. destruct (fetch env _) as [|[] ?]; cbn [status]; [set_solver| |set_solver].
  unfold categorizeLatency.
  destruct (elapsed env <? 100)%Z; [set_solver|].
  destruct (elapsed env <? 300)%Z; set_solver.
Qed.

(** The statuses of a run: the probe at index [i + k] for the [k]-th URL. *)
Lemma testAll_loop_spec (envs : nat → ProbeEnv) (i : nat) (urls : list string)
    (statuses : gmap string RelayStatusWithInfo) :
  testAll_loop envs i urls statuses
  = (imap (fun k u => probe_result (envs (i + k)%nat) u) urls,
     fold_left (fun m r => <[url r := r]> m)
               (imap (fun k u => probe_result (envs (i + k)%nat) u) urls) statuses).
Proof.
  revert i statuses. induction urls as [|u urls IH]; intros i statuses; [reflexivity|].
  cbn [testAll_loop testRelay imap fold_left]. rewrite IH.
  unfold mark_testing. rewrite insert_insert_eq, probe_result_url, Nat.add_0_r.
  f_equal.
  - f_equal. apply imap_ext. intros k x _. cbn. f_equal. f_equal. lia.
  - f_equal. apply imap_ext. intros k x _. cbn. f_equal. f_equal. lia.
Qed.

Lemma find_app_first {B} (f : B → bool) (l1 l2 : list B) :
  List.find f (l1 ++ l2)
  = match List.find f l1 with Some x => Some x | None => List.find f l2 end.
Proof.
  induction l1 as [|x l1 IH]; cbn; [reflexivity|]. destruct (f x); [reflexivity|exact IH].
Qed.

Lemma fold_insert_lookup (rs : list RelayStatusWithInfo)
    (m : gmap string RelayStatusWithInfo) (u : string) :
  fold_left (fun m r => <[url r := r]> m) rs m !! u
  = match List.find (fun r => bool_decide (url r = u)) (rev rs) with
    | Some r => Some r
    | None => m !! u
    end.
Proof.
  revert m. induction rs as [|r rs IH]; intros m; [reflexivity|].
  cbn [fold_left rev]. rewrite IH, find_app_first.
  destruct (List.find _ (rev rs)) as [r'|]; [reflexivity|]. cbn [List.find].
  destruct (decide (url r = u)) as [E|E].
  - rewrite (bool_decide_eq_true_2 _ E), <- E. apply lookup_insert_eq.
  - rewrite (bool_decide_eq_false_2 _ E). by apply lookup_insert_ne.
Qed.

(** X7.  When [testAllRelays] has run, every probed URL has the same
    entry in the status map and in the returned map, the outcome of a
    probe of that URL and never the [testing] placeholder, and the
    entries of the URLs that were not probed are as they were. *)
Theorem testAllRelays_settles (envs : nat → ProbeEnv) (urls : list string)
    (statuses : gmap string RelayStatusWithInfo) (u : string) :
  let resultMap := fst (testAllRelays envs urls statuses) in
  let statuses' := snd (testAllRelays envs urls statuses) in
  if decide (u ∈ urls) then
    ∃ i, urls !! i = Some u ∧
         statuses' !! u = Some (probe_result (envs i) u) ∧
         resultMap !! u = Some (probe_result (envs i) u) ∧
         status (probe_result (envs i) u) ∈ [good; ok; bad]
  else statuses' !! u = statuses !! u ∧ resultMap !! u = None.
Proof.
  cbn zeta. unfold testAllRelays. rewrite testAll_loop_spec. cbn [fst snd].
  rewrite !fold_insert_lookup.
  set (rs := imap (fun k u => probe_result (envs (0 + k)%nat) u) urls).
  destruct (List.find _ (rev rs)) as [r|] eqn:E.
  - apply find_some in E as [Hin Hu]. apply bool_decide_eq_true in Hu.
    apply in_rev, list_elem_of_In, elem_of_lookup_imap in Hin as (i & x & -> & Hi).
    rewrite probe_result_url in Hu. subst x.
    rewrite decide_True by (eapply list_elem_of_lookup_2; exact Hi).
    exists i. cbn. repeat split; try done. apply probe_result_settled.
  - rewrite decide_False; [split; [reflexivity|apply lookup_empty]|].
    intros Hin. apply list_elem_of_lookup_1 in Hin as [i Hi].
    assert (Hn : bool_decide (url (probe_result (envs i) u) = u) = false).
    { apply (find_none _ _ E). apply (proj1 (in_rev rs _)), list_elem_of_In, elem_of_lookup_imap.
      exists i, u. split; [reflexivity|exact Hi]. }
    rewrite probe_result_url, bool_decide_eq_true_2 in Hn by reflexivity.
    discriminate Hn.
Qed.

End ProberRunFacts.

(** ** Contact aggregator: batches and suggestions *)

Section AggregationFacts.

Import ContactRelays.

Lemma batches_concat_take (l : list string) (m : nat) :
  concat (map (fun k => take BATCH_SIZE (drop (k * BATCH_SIZE) l)) (seq 0 m))
  = take (m * BATCH_SIZE) l.
Proof.
  induction m as [|m IH]; [by rewrite take_0|].
  rewrite seq_S, map_app, concat_app, IH. cbn [map concat Nat.add].
  rewrite app_nil_r, take_take_drop. f_equal. lia.
Qed.

(** X8.  The batches cut the contact list into consecutive pieces: put
    end to end they are the list, every batch holds between one and a
    hundred pubkeys, and every batch but the last holds a hundred. *)
Theorem batches_partition (contactPubkeys : list string) :
  concat (batches contactPubkeys) = contactPubkeys ∧
  Forall (fun b => (1 ≤ length b ≤ BATCH_SIZE)%nat) (batches contactPubkeys) ∧
  (∀ k b, batches contactPubkeys !! k = Some b →
          (S k < length (batches contactPubkeys))%nat → length b = BATCH_SIZE).
Proof.
  unfold batches. set (n := length contactPubkeys).
  set (q := ((n + (BATCH_SIZE - 1)) / BATCH_SIZE)%nat).
  assert (Hq : (n ≤ q * BATCH_SIZE ∧ (q * BATCH_SIZE < n + BATCH_SIZE))%nat).
  { unfold q, BATCH_SIZE.
    pose proof (Nat.div_mod_eq (n + (100 - 1)) 100) as E.
    pose proof (Nat.mod_upper_bound (n + (100 - 1)) 100 ltac:(lia)) as U. lia. }
  split; [|split].
  - rewrite batches_concat_take. apply take_ge. fold n. lia.
  - apply Forall_forall. intros b Hb.
    apply list_elem_of_fmap in Hb as (k & -> & Hk).
    apply list_elem_of_In, in_seq in Hk.
    rewrite length_take, length_drop. fold n. unfold BATCH_SIZE in *. lia.
  - intros k b Hkb Hlast. rewrite length_map, length_seq in Hlast.
    rewrite list_lookup_fmap in Hkb.
    destruct (seq 0 q !! k) as [k'|] eqn:Ek; [|discriminate Hkb].
    apply lookup_seq in Ek as [-> _]. cbn in Hkb. injection Hkb as <-.
    rewrite length_take, length_drop. fold n. unfold BATCH_SIZE in *. lia.
Qed.

(** *** The usage map *)

Lemma set_add_elem (x y : string) (s : list string) : y ∈ set_add x s ↔ y = x ∨ y ∈ s.
Proof.
  unfold set_add. destruct (decide (x ∈ s)).
  - split; [auto|]. intros [->|H]; auto.
  - rewrite elem_of_app, list_elem_of_singleton. tauto.
Qed.

Lemma set_add_NoDup (x : string) (s : list string) : NoDup s → NoDup (set_add x s).
Proof.
  unfold set_add. intros H. destruct (decide (x ∈ s)) as [|Hn]; [exact H|].
  apply NoDup_app. split; [exact H|]. split; [|apply NoDup_singleton].
  intros y Hy ->%list_elem_of_singleton. contradiction.
Qed.

Lemma set_of_list_elem (x : string) (l : list string) : x ∈ set_of_list l ↔ x ∈ l.
Proof.
  unfold set_of_list.
  assert (G : ∀ acc, x ∈ fold_left (fun s x => set_add x s) l acc ↔ x ∈ acc ∨ x ∈ l).
  { induction l as [|y l IH]; intros acc; cbn [fold_left].
    - rewrite elem_of_nil. tauto.
    - rewrite IH, set_add_elem, elem_of_cons. tauto. }
  rewrite G, elem_of_nil. tauto.
Qed.

Lemma usage_add_wf (Q : string → Prop) (raw pk : string) (u : Usage) :
  Q pk → usage_wf Q u → usage_wf Q (usage_add (normalizeRelayUrl raw) pk u).
Proof.
  intros Hpk [Hnd Hall]. split.
  - rewrite usage_add_first_seen. destruct (decide _) as [|Hn]; [exact Hnd|].
    apply NoDup_app. split; [exact Hnd|]. split; [|apply NoDup_singleton].
    intros y Hy ->%list_elem_of_singleton. contradiction.
  - clear Hnd. induction Hall as [|[r pks] u (Hr & Hne & Hpks & HQ) Hall IH];
      cbn [usage_add].
    + constructor; [|constructor]. cbn [fst snd].
      split; [eauto|]. split; [done|]. split; [apply NoDup_singleton|by constructor].
    + destruct (String.eqb r (normalizeRelayUrl raw)).
      * constructor; [|exact Hall]. cbn [fst snd] in *. repeat split.
        -- exact Hr.
        -- intros E. assert (H : pk ∈ set_add pk pks) by (apply set_add_elem; auto).
           rewrite E in H. by apply elem_of_nil in H.
        -- by apply set_add_NoDup.
        -- apply Forall_forall. intros y [->|Hy]%set_add_elem; [exact Hpk|].
           rewrite Forall_forall in HQ. by apply HQ.
      * constructor; [|exact IH]. cbn [fst snd]. auto.
Qed.

Lemma usage_wf_mono (Q Q' : string → Prop) (u : Usage) :
  (∀ pk, Q pk → Q' pk) → usage_wf Q u → usage_wf Q' u.
Proof.
  intros HQ [Hnd Hall]. split; [exact Hnd|].
  eapply Forall_impl; [exact Hall|]. intros e (Hr & Hne & Hpks & Hq).
  repeat split; auto. eapply Forall_impl; [exact Hq|]. exact HQ.
Qed.

Lemma event_relays_normalized (tags : list Tag) (relays : list string) :
  event_relays tags = Some relays → Forall (fun r => ∃ raw, r = normalizeRelayUrl raw) relays.
Proof.
  revert relays. induction tags as [|t tags IH]; intros relays; cbn [event_relays].
  - intros [= <-]. constructor.
  - destruct (tag_named "r" t); [|apply IH].
    destruct (t !! 1%nat) as [u|]; [|discriminate].
    destruct (event_relays tags) as [rs|]; [|discriminate].
    intros [= <-]. constructor; [eauto|]. by apply IH.
Qed.

Lemma fold_usage_add_wf (Q : string → Prop) (pk : string) (relays : list string)
    (u : Usage) :
  Q pk → Forall (fun r => ∃ raw, r = normalizeRelayUrl raw) relays →
  usage_wf Q u →
  usage_wf Q (fold_left (fun u relay => usage_add relay pk u) relays u).
Proof.
  intros Hpk Hr. revert u.
  induction Hr as [|r relays [raw ->] Hr IH]; intros u Hu; cbn [fold_left]; [exact Hu|].
  apply IH. by apply usage_add_wf.
Qed.

Lemma process_event_wf (st st' : State) (event : NostrEvent) :
  state_wf st → process_event st event = Some st' → state_wf st'.
Proof.
  intros [Hu Hi]. unfold process_event.
  destruct (event_relays (ev_tags event)) as [relays|] eqn:Er; [|discriminate].
  intros [= <-]. apply event_relays_normalized in Er.
  set (pk := ev_pubkey event).
  set (info' := match contactInfo st !! pk with
                | Some _ => contactInfo st
                | None => <[pk := mkContact pk None None relays src_nip65]> (contactInfo st)
                end).
  assert (Hsub : ∀ pk', is_Some (contactInfo st !! pk') → is_Some (info' !! pk')).
  { intros pk' H. unfold info'. destruct (contactInfo st !! pk) eqn:E; [exact H|].
    destruct (decide (pk = pk')) as [<-|Hne].
    - rewrite lookup_insert_eq. eauto.
    - by rewrite lookup_insert_ne. }
  assert (Hpk : is_Some (info' !! pk)).
  { unfold info'. destruct (contactInfo st !! pk) eqn:E; [rewrite E; eauto|].
    rewrite lookup_insert_eq. eauto. }
  split; cbn [relayUsage contactInfo].
  - apply (usage_wf_mono _ _ _ Hsub) in Hu.
    by apply (fold_usage_add_wf (fun pk' => is_Some (info' !! pk'))).
  - intros pk' c. unfold info'. destruct (contactInfo st !! pk) eqn:E; [apply Hi|].
    destruct (decide (pk = pk')) as [<-|Hne].
    + rewrite lookup_insert_eq. intros [= <-]. split; reflexivity.
    + rewrite lookup_insert_ne by exact Hne. apply Hi.
Qed.

Lemma process_events_wf (st : State) (events : list NostrEvent) :
  state_wf st → state_wf (fst (process_events st events)).
Proof.
  revert st. induction events as [|e events IH]; intros st H; cbn [process_events]; [exact H|].
  destruct (process_event st e) as [st'|] eqn:E; [|exact H].
  apply IH. by apply (process_event_wf st st' e).
Qed.

Lemma batch_loop_wf (net : Network) (w : option string) (bs : list (list string))
    (st : State) :
  state_wf st → state_wf (fst (batch_loop net w bs st)).
Proof.
  revert st. induction bs as [|b bs IH]; intros st H; cbn [batch_loop]; [exact H|].
  destruct (batch net (target_of w) b) as [|evs].
  - specialize (IH st H). by destruct (batch_loop net w bs st).
  - pose proof (process_events_wf st evs H) as H'.
    destruct (process_events st evs) as [st' []]; [exact H'|].
    specialize (IH st' H'). by destruct (batch_loop net w bs st').
Qed.

(** What a run returns was built from a well-formed state. *)
Lemma queryFn_state (net : Network) (pubkey : option string) (userRelays : list string)
    (r : ContactRelaysResult) :
  fst (queryFn net pubkey userRelays) = Ok (Some r) →
  ∃ st, state_wf st ∧ suggestions r = build_suggestions st userRelays
        ∧ analyzedCount r = size (contactInfo st).
Proof.
  assert (H0 : state_wf (mkState [] ∅)).
  { split; [split; constructor|]. intros pk c H. cbn in H. by rewrite lookup_empty in H. }
  unfold queryFn. destruct pubkey as [pk|]; [|discriminate].
  destruct (is_empty pk); [discriminate|].
  destruct (contact_list net) as [|[|ev evs]]; [discriminate| |].
  - intros [= <-]. by exists (mkState [] ∅).
  - destruct (contact_pubkeys (ev_tags ev)) as [|p ps].
    + intros [= <-]. by exists (mkState [] ∅).
    + destruct (find_working net NIP65_RELAYS) as [w probes].
      pose proof (batch_loop_wf net w (batches (p :: ps)) _ H0) as H.
      destruct (batch_loop net w (batches (p :: ps)) (mkState [] ∅)) as [st t].
      intros [= <-]. by exists st.
Qed.

Lemma omap_lookup_wf (info : gmap string ContactRelayInfo) (pks : list string) :
  info_wf info → Forall (fun pk => is_Some (info !! pk)) pks →
  map c_pubkey (omap (fun pk => info !! pk) pks) = pks ∧
  Forall (fun c => c_source c = src_nip65) (omap (fun pk => info !! pk) pks).
Proof.
  intros Hi. induction 1 as [|pk pks [c Hc] Hall [IH1 IH2]]; [by split; constructor|].
  cbn. rewrite Hc. cbn. destruct (Hi pk c Hc) as [E Hs].
  fold (omap (fun pk => info !! pk) pks). rewrite IH1, E.
  split; [reflexivity|]. by constructor.
Qed.

Lemma to_suggestion_wf (info : gmap string ContactRelayInfo) (userRelaySet : list string)
    (entry : string * list string) :
  info_wf info → snd entry ≠ [] → Forall (fun pk => is_Some (info !! pk)) (snd entry) →
  let s := to_suggestion info userRelaySet entry in
  s_url s = fst entry ∧ contactCount s = length (snd entry) ∧
  map c_pubkey (contacts s) = snd entry ∧ s_source s = src_nip65.
Proof.
  destruct entry as [u pks]. cbn [fst snd]. intros Hi Hne Hall.
  destruct (omap_lookup_wf info pks Hi Hall) as [Hm Hs].
  cbn zeta. unfold to_suggestion. cbn [s_url contactCount contacts s_source].
  repeat split; [exact Hm|].
  set (cs := omap (fun pk => info !! pk) pks) in *.
  assert (H1 : existsb (fun c => source_eqb (c_source c) src_nip65
                                 || source_eqb (c_source c) src_both) cs = true).
  { destruct cs as [|c cs]; [by destruct pks|].
    apply Forall_cons in Hs as [E _]. cbn [existsb]. by rewrite E. }
  assert (H2 : existsb (fun c => source_eqb (c_source c) src_profile
                                 || source_eqb (c_source c) src_both) cs = false).
  { clear -Hs. induction Hs as [|c cs E Hs IH]; [reflexivity|].
    cbn [existsb]. by rewrite E, IH. }
  by rewrite H1, H2.
Qed.

(** X9.  The suggestions a run returns are well formed: no relay is
    suggested twice; every suggested URL is a canonical form; every
    suggestion counts at least one contact, lists exactly the contacts
    it counts, each once, and counts no more contacts than the run
    analysed; and its source is always [nip65], since profiles are never
    read. *)
Theorem suggestions_well_formed (net : Network) (pubkey : option string)
    (userRelays : list string) :
  match fst (queryFn net pubkey userRelays) with
  | Ok (Some r) =>
      NoDup (map s_url (suggestions r)) ∧
      Forall (fun s =>
                (∃ raw, s_url s = normalizeRelayUrl raw) ∧
                (1 ≤ contactCount s ≤ analyzedCount r)%nat ∧
                length (contacts s) = contactCount s ∧
                NoDup (map c_pubkey (contacts s)) ∧
                s_source s = src_nip65) (suggestions r)
  | _ => True
  end.
Proof.
  destruct (fst (queryFn net pubkey userRelays)) as [[r|]|] eqn:E; try exact I.
  destruct (queryFn_state _ _ _ _ E) as (st & [[Hnd Hall] Hi] & -> & ->).
  unfold build_suggestions.
  set (set := set_of_list (map normalizeRelayUrl userRelays)).
  set (entries := map (to_suggestion (contactInfo st) set) (relayUsage st)).
  assert (He : Forall (fun s =>
                (∃ raw, s_url s = normalizeRelayUrl raw) ∧
                (1 ≤ contactCount s ≤ size (contactInfo st))%nat ∧
                length (contacts s) = contactCount s ∧
                NoDup (map c_pubkey (contacts s)) ∧
                s_source s = src_nip65) entries).
  { unfold entries. apply Forall_fmap. eapply Forall_impl; [exact Hall|].
    intros e (Hraw & Hne & Hpks & HQ). cbn.
    destruct (to_suggestion_wf (contactInfo st) set e Hi Hne HQ) as (E1 & E2 & E3 & E4).
    cbn zeta in *. rewrite E1, E2, E3, E4.
    split; [exact Hraw|]. split; [|split; [|split]]; try done.
    - split; [destruct (snd e); [done|cbn; lia]|].
      rewrite <- size_dom.
      change (size (dom (contactInfo st)))
        with (length (elements (dom (contactInfo st)))).
      apply submseteq_length, NoDup_submseteq; [exact Hpks|].
      intros pk Hpk. apply elem_of_elements, elem_of_dom.
      rewrite Forall_forall in HQ. by apply HQ.
    - rewrite <- E3. by rewrite length_map. }
  split.
  - rewrite (sort_by_count_perm entries). unfold entries.
    rewrite map_map.
    rewrite (map_ext_elem _ fst).
    + exact Hnd.
    + intros e He'. rewrite Forall_forall in Hall.
      destruct (Hall e He') as (_ & Hne & _ & HQ).
      by destruct (to_suggestion_wf (contactInfo st) set e Hi Hne HQ).
  - fold entries. rewrite (sort_by_count_perm entries). exact He.
Qed.

(** X10.  A suggestion is marked as already used exactly when its
    canonical form is that of the canonical form of one of the user's
    relays: the user's URLs are normalized once when the set is built
    and once more when they are compared. *)
Theorem alreadyUsed_by_identity (net : Network) (pubkey : option string)
    (userRelays : list string) :
  match fst (queryFn net pubkey userRelays) with
  | Ok (Some r) =>
      Forall (fun s =>
                alreadyUsed s = true
                ↔ ∃ u, u ∈ userRelays ∧
                       normalizeRelayUrl (normalizeRelayUrl u) = normalizeRelayUrl (s_url s))
             (suggestions r)
  | _ => True
  end.
Proof.
  destruct (fst (queryFn net pubkey userRelays)) as [[r|]|] eqn:E; try exact I.
  destruct (queryFn_state _ _ _ _ E) as (st & _ & -> & _).
  unfold build_suggestions. rewrite sort_by_count_perm.
  apply Forall_fmap, Forall_forall. intros [u pks] _. cbn.
  rewrite existsb_exists. split.
  - intros (x & Hx & Hs). apply list_elem_of_In, set_of_list_elem, list_elem_of_fmap in Hx
      as (raw & -> & Hraw).
    exists raw. split; [exact Hraw|]. by apply String.eqb_eq.
  - intros (raw & Hraw & Hs). exists (normalizeRelayUrl raw). split.
    + apply list_elem_of_In, set_of_list_elem, list_elem_of_fmap. eauto.
    + by apply String.eqb_eq.
Qed.

End AggregationFacts.

(** ** Fetching the relay lists *)

Section FetchFacts.

Import UserRelaysQuery.

(** X11.  [getLatestOfKind] returns an event of the kind asked for
    that no other event of that kind is newer than, and among the
    newest ones the first of the merged list (the main pool comes
    first); it returns nothing exactly when there is no event of that
    kind. *)
Theorem getLatestOfKind_newest (allEvents : list NostrEvent) (kind : Z) :
  match getLatestOfKind allEvents kind with
  | Some e =>
      e ∈ allEvents ∧ ev_kind e = kind ∧
      Forall (fun e' => ev_kind e' = kind → (ev_created_at e' ≤ ev_created_at e)%Z)
             allEvents ∧
      head (filter (fun e' => ev_kind e' = kind ∧ ev_created_at e' = ev_created_at e)
                   allEvents) = Some e
  | None => Forall (fun e' => ev_kind e' ≠ kind) allEvents
  end.
Proof.
  unfold getLatestOfKind.
  set (cmp := fun a b => (ev_created_at b - ev_created_at a)%Z).
  set (ofKind := filter (fun e => ev_kind e = kind) allEvents).
  pose proof (js_sort_perm cmp ofKind) as Hperm.
  assert (Hsorted : StronglySorted (fun a b => (ev_created_at b ≤ ev_created_at a)%Z)
                                   (JsArray.sort cmp ofKind)).
  { apply js_sort_sorted; unfold cmp; intros; lia. }
  destruct (JsArray.sort cmp ofKind) as [|e l] eqn:E; cbn [head].
  - apply Permutation_nil_l in Hperm.
    apply Forall_forall. intros e' He' Hk.
    assert (H : e' ∈ ofKind) by (apply list_elem_of_filter; auto).
    rewrite <- Hperm in H. by apply elem_of_nil in H.
  - assert (He : e ∈ ofKind) by (rewrite <- Hperm; apply elem_of_cons; auto).
    apply list_elem_of_filter in He as [Hk He].
    split; [exact He|]. split; [exact Hk|]. split.
    + apply Forall_forall. intros e' He' Hk'.
      assert (H : e' ∈ e :: l).
      { rewrite Hperm. apply list_elem_of_filter. auto. }
      apply elem_of_cons in H as [->|H]; [lia|].
      apply StronglySorted_inv in Hsorted as [_ Hall].
      rewrite Forall_forall in Hall. by apply Hall.
    + assert (Hst : filter (fun e' => ev_created_at e' = ev_created_at e)
                             (JsArray.sort cmp ofKind)
                    = filter (fun e' => ev_created_at e' = ev_created_at e) ofKind).
      { apply js_sort_stable. unfold cmp. intros; lia. }
      rewrite E, filter_cons, decide_True in Hst by reflexivity.
      unfold ofKind in Hst. rewrite list_filter_filter in Hst.
      erewrite list_filter_iff; [rewrite <- Hst; reflexivity|].
      intros x. cbn. tauto.
Qed.

Lemma parseRelayTags_published (env : Publish.Env) (urls : list string) (ev : NostrEvent) :
  ev_tags ev = Publish.addClientTag env (Publish.relay_tags urls) →
  parseRelayTags (Some ev) = Some (map normalizeRelayUrl urls).
Proof.
  intros E. unfold parseRelayTags. rewrite E.
  assert (H : filter (tag_named "relay") (Publish.relay_tags urls) = Publish.relay_tags urls).
  { unfold Publish.relay_tags. clear. induction urls as [|u l IH]; [reflexivity|].
    rewrite map_cons, filter_cons, IH. reflexivity. }
  assert (G : filter (tag_named "relay") (Publish.addClientTag env (Publish.relay_tags urls))
              = Publish.relay_tags urls).
  { unfold Publish.addClientTag. destruct (String.eqb _ _); [|exact H].
    rewrite filter_app, H. cbn. apply app_nil_r. }
  rewrite G. unfold Publish.relay_tags.
  apply mapM_Some_2. clear. induction urls as [|u l IH]; constructor; [reflexivity|exact IH].
Qed.

(** X12.  What is published for a plain relay list is what is fetched
    back: when the newest event of a category's kind among the fetched
    events carries the tags of the record published for that category,
    the fetch resolves that category to the published URLs in their
    order, each in canonical form; the client tag is not taken for a
    relay. *)
Theorem published_list_fetched_back (env : Publish.Env)
    (lists : Publish.RelayListsToPublish) (c : Category)
    (net : Sources) (now : Z) (pk : string) (r : UserRelayLists) (ev : NostrEvent) :
  singleton_category c = true →
  queryFn net now (Some pk) = Resolved (Some r) →
  getLatestOfKind (fetched_events net pk) (kind_of c) = Some ev →
  ev_tags ev = Publish.t_tags (template_of env lists c) →
  fetched_list c r = map normalizeRelayUrl (urls_of lists c).
Proof.
  intros Hc Hq Hlatest Htags.
  assert (Hp : parseRelayTags (Some ev) = Some (map normalizeRelayUrl (urls_of lists c))).
  { apply (parseRelayTags_published env). rewrite Htags.
    destruct c; try discriminate Hc; reflexivity. }
  unfold queryFn, fetched_events in *.
  destruct (is_empty pk); [discriminate Hq|].
  destruct (pool_query net pk) as [|events]; [discriminate Hq|].
  set (all := (events ++ _)%list) in *. cbn zeta in Hq.
  destruct c; try discriminate Hc; cbn [kind_of] in Hlatest; rewrite Hlatest, Hp in Hq;
    repeat case_match; simplify_eq; reflexivity.
Qed.

Lemma published_list_fetched_back_witness :
  searchRelays
    {| nip65 := []; dmRelays := [];
       searchRelays := ["wss://search.example.com"; "wss://find.example.com"];
       blockedRelays := []; indexerRelays := []; proxyRelays := [];
       broadcastRelays := []; trustedRelays := []; fetchedAt := 1700000001000 |}
  = map normalizeRelayUrl (urls_of example_lists cat_search).
Proof.
  apply (published_list_fetched_back example_env example_lists cat_search
           example_sources 1700000001000 "me" _
           (mkEvent "new" "me" 10007 ""
                    [["relay"; "wss://search.example.com"];
                     ["relay"; "wss://find.example.com"];
                     ["client"; "relayopti.example"]] 1700000000));
    reflexivity.
Defined.

End FetchFacts.

(** ** Publication: what is sent and what the user is told *)

Section PublicationFacts.

Import Publish PublishToasts.

Lemma step_sent (env : Env) (signEvent : Signer) (lists : RelayListsToPublish)
    (c : Category) (st : PublishResult * Log) :
  sent (snd (step env signEvent lists st c))
  = (sent (snd st)
     ++ if attempted lists c
        then option_list (signed_event signEvent (template_of env lists c))
        else [])%list.
Proof.
  unfold step, publish_block, signed_event. destruct st as [r log].
  destruct (attempted lists c); [|by rewrite app_nil_r].
  destruct (signEvent _) as [ev|e]; [destruct (nostr_event env ev) as [[]|e]|];
    cbn; rewrite ?app_nil_r; reflexivity.
Qed.

Lemma fold_sent (env : Env) (signEvent : Signer) (lists : RelayListsToPublish)
    (cs : list Category) (st : PublishResult * Log) :
  sent (snd (fold_left (step env signEvent lists) cs st))
  = (sent (snd st)
     ++ omap (fun c => signed_event signEvent (template_of env lists c))
             (filter (fun c => attempted lists c) cs))%list.
Proof.
  revert st. induction cs as [|c cs IH]; intros st; cbn [fold_left].
  - by rewrite app_nil_r.
  - rewrite IH, step_sent, filter_bool_cons, <- app_assoc.
    destruct (attempted lists c); [|reflexivity].
    cbn. by destruct (signed_event signEvent (template_of env lists c)).
Qed.

(** X13.  The trace of a publication.  The signer is handed one
    record for every category that has something to publish, in the
    fixed order of the blocks, each stamped with the clock's reading in
    whole seconds; the transport is handed exactly the events the signer
    returned for these records, in that order, so that nothing unsigned
    is sent and a record the signer refused is not sent; without a
    logged-in user nothing is signed or sent. *)
Theorem publication_trace (env : Env) (signEvent : Signer) (lists : RelayListsToPublish) :
  (∃ r log,
      mutationFn env (Some signEvent) lists = (Ok r, log) ∧
      signed log = map (template_of env lists) (attempted_categories lists) ∧
      map t_kind (signed log) = map kind_of (attempted_categories lists) ∧
      Forall (fun t => t_created_at t = (date_now env (t_kind t) / 1000)%Z) (signed log) ∧
      sent log = omap (signed_event signEvent) (signed log)) ∧
  mutationFn env None lists = (Throw (ErrorObj "User is not logged in"), mkLog [] []).
Proof.
  split; [|reflexivity].
  rewrite mutationFn_steps. cbn zeta. eexists _, _. split; [reflexivity|].
  rewrite fold_signed, fold_sent. cbn [signed sent snd app].
  fold (attempted_categories lists). repeat split.
  - rewrite map_map. apply map_ext. intros c. apply template_kind.
  - apply Forall_fmap, Forall_forall. intros c _. cbn.
    destruct c; try reflexivity; cbn; unfold resigned;
      [destruct (profileEvent lists)|destruct (contactListEvent lists)]; reflexivity.
  - generalize (attempted_categories lists). intros cs.
    induction cs as [|c cs IH]; [reflexivity|]. cbn.
    destruct (signed_event signEvent (template_of env lists c)); cbn; by rewrite IH.
Qed.

Lemma without_client_idem (tags : list Tag) :
  without_client (without_client tags) = without_client tags.
Proof.
  unfold without_client. rewrite list_filter_filter. apply list_filter_iff.
  intros t. tauto.
Qed.

Lemma filter_client_without (tags : list Tag) :
  filter (tag_named "client") (without_client tags) = [].
Proof.
  unfold without_client. rewrite list_filter_filter.
  induction tags as [|t tags IH]; [reflexivity|].
  rewrite filter_cons, IH. destruct (decide _) as [[H1 H2]|]; [|reflexivity].
  by destruct (tag_named "client" t).
Qed.

(** X14.  Re-broadcasting the profile (kind 0) or the contact list
    (kind 3) signs one record of that kind with the content of the
    stored event and its tags in their order, except for the client
    attribution: every [client] tag of the stored event is dropped and
    the page's own is added exactly when the page is served over
    [https], so that attributions never pile up and the attribution of
    another client is not kept. *)
Theorem rebroadcast_replaces_client_tag (env : Env) (signEvent : Signer)
    (lists : RelayListsToPublish) (c : Category) (ev : NostrEvent) :
  (c = cat_profile ∧ profileEvent lists = Some ev)
  ∨ (c = cat_contactList ∧ contactListEvent lists = Some ev) →
  ∃ r log t,
    mutationFn env (Some signEvent) lists = (Ok r, log) ∧
    filter (fun t => t_kind t = kind_of c) (signed log) = [t] ∧
    t_content t = ev_content ev ∧
    without_client (t_tags t) = without_client (ev_tags ev) ∧
    filter (tag_named "client") (t_tags t)
    = (if String.eqb (location_protocol env) "https:"
       then [["client"; location_hostname env]] else []).
Proof.
  intros Hc.
  destruct (mutationFn_outcome env signEvent lists) as (r & log & Hrun & _ & _ & Hsigned).
  exists r, log, (template_of env lists c). split; [exact Hrun|].
  assert (Ht : template_of env lists c
               = template env (kind_of c) (ev_content ev) (without_client (ev_tags ev))).
  { destruct Hc as [[-> E]|[-> E]]; cbn; by rewrite E. }
  split.
  - rewrite Hsigned. apply filter_kind_unique.
    + unfold attempted_categories. apply NoDup_filter, all_categories_NoDup.
    + apply list_elem_of_filter. split; [|apply in_all_categories].
      destruct Hc as [[-> E]|[-> E]]; cbn; rewrite E;
        rewrite bool_decide_eq_true_2 by eauto; exact I.
  - rewrite Ht. unfold template, addClientTag. cbn [t_content t_tags].
    split; [reflexivity|].
    destruct (String.eqb (location_protocol env) "https:").
    + split.
      * unfold without_client at 1. rewrite filter_app. cbn.
        rewrite app_nil_r. apply without_client_idem.
      * rewrite filter_app, filter_client_without. reflexivity.
    + split; [apply without_client_idem|apply filter_client_without].
Qed.

Lemma rebroadcast_replaces_client_tag_witness :
  ∃ r log t,
    mutationFn example_env (Some example_signer) example_identity_lists = (Ok r, log) ∧
    filter (fun t => t_kind t = kind_of cat_profile) (signed log) = [t] ∧
    t_content t = "{}" ∧
    without_client (t_tags t) = [["alt"; "profile"]] ∧
    filter (tag_named "client") (t_tags t) = [["client"; "relayopti.example"]].
Proof.
  apply (rebroadcast_replaces_client_tag example_env example_signer
           example_identity_lists cat_profile example_profile).
  left. split; reflexivity.
Defined.

(** *** Toasts *)

Lemma existsb_pointwise {B} (f g : B → bool) (l : list B) :
  (∀ x, f x = g x) → existsb f l = existsb g l.
Proof. intros H. induction l as [|x l IH]; [reflexivity|]. cbn. by rewrite H, IH. Qed.

Lemma nonempty_app {B} (l1 l2 : list B) :
  nonempty (l1 ++ l2) = nonempty l1 || nonempty l2.
Proof. destruct l1, l2; reflexivity. Qed.

Lemma nonempty_part (b : bool) (name : string) : nonempty (part b name) = b.
Proof. by destruct b. Qed.

Lemma nonempty_concat {B C} (g : B → list C) (l : list B) :
  nonempty (concat (map g l)) = existsb (fun c => nonempty (g c)) l.
Proof.
  induction l as [|c l IH]; [reflexivity|]. cbn [map concat existsb].
  by rewrite nonempty_app, IH.
Qed.

Lemma nonempty_error_of (env : Env) (signEvent : Signer) (lists : RelayListsToPublish)
    (c : Category) :
  nonempty (error_of env signEvent lists c)
  = attempted lists c && negb (succeeds env signEvent lists c).
Proof.
  unfold error_of, succeeds. destruct (attempted lists c); [|reflexivity].
  by destruct (outcome env signEvent (template_of env lists c)).
Qed.

(** X15.  What the user is told after a publication.  A success toast
    is shown exactly when the record of at least one category was
    signed and accepted, a failure toast exactly when the record of at
    least one category that was tried was not, and the failure toast
    lists the errors one per line; so a publication that tried anything
    shows a toast, and one with nothing to publish shows none. *)
Theorem publication_feedback (env : Env) (signEvent : Signer)
    (lists : RelayListsToPublish) :
  ∃ r log,
    mutationFn env (Some signEvent) lists = (Ok r, log) ∧
    ∃ text,
      toasts (onSuccess r)
      = ((if existsb (fun c => attempted lists c && succeeds env signEvent lists c)
                     all_categories
          then [mkToast "Published successfully!" text false] else [])
         ++ (if existsb (fun c => attempted lists c
                                  && negb (succeeds env signEvent lists c))
                        all_categories
             then [mkToast "Some updates failed" (JsArray.join newline (errors r)) true]
             else []))%list ∧
      (toasts (onSuccess r) = [] ↔ attempted_categories lists = []).
Proof.
  destruct (mutationFn_outcome env signEvent lists) as (r & log & Hrun & Hflag & Herr & _).
  exists r, log. split; [exact Hrun|].
  assert (Hs : existsb (fun c => attempted lists c && succeeds env signEvent lists c)
                       all_categories
               = nonempty (part (nip65 r) "inbox/outbox" ++ part (dm r) "DM"
                  ++ part (search r) "search" ++ part (blocked r) "blocked"
                  ++ part (indexer r) "indexer" ++ part (proxy r) "proxy"
                  ++ part (broadcast r) "broadcast" ++ part (trusted r) "trusted")
                 || nonempty (part (profile r) "profile"
                              ++ part (contactList r) "contact list")).
  { rewrite !nonempty_app, !nonempty_part.
    rewrite (existsb_pointwise _ (fun c => flag c r)) by (intros c; by rewrite Hflag).
    cbn. rewrite orb_false_r, !orb_assoc. reflexivity. }
  assert (He : existsb (fun c => attempted lists c
                                 && negb (succeeds env signEvent lists c)) all_categories
               = nonempty (errors r)).
  { rewrite Herr, nonempty_concat. apply existsb_pointwise. intros c.
    by rewrite nonempty_error_of. }
  unfold onSuccess. cbn zeta. rewrite <- Hs, <- He.
  eexists. split.
  - unfold toasts.
    destruct (existsb (fun c => attempted lists c && succeeds env signEvent lists c)
                      all_categories),
             (existsb (fun c => attempted lists c
                                && negb (succeeds env signEvent lists c)) all_categories);
      cbn; reflexivity.
  - assert (Ha : existsb (fun c => attempted lists c && succeeds env signEvent lists c)
                         all_categories
                 || existsb (fun c => attempted lists c
                                      && negb (succeeds env signEvent lists c))
                            all_categories
                 = nonempty (attempted_categories lists)).
    { unfold attempted_categories. generalize all_categories. intros cs.
      induction cs as [|c cs IH]; [reflexivity|].
      rewrite filter_bool_cons. cbn [existsb].
      destruct (attempted lists c), (succeeds env signEvent lists c); cbn in IH |- *;
        rewrite ?orb_true_r; try reflexivity; exact IH. }
    unfold toasts. clear Hs He Hrun Hflag Herr.
    set (b1 := existsb (fun c => attempted lists c && succeeds env signEvent lists c)
                       all_categories) in *.
    set (b2 := existsb (fun c => attempted lists c
                                 && negb (succeeds env signEvent lists c))
                       all_categories) in *.
    set (ac := attempted_categories lists) in *. clearbody b1 b2 ac.
    destruct b1, b2, ac; cbn in Ha |- *;
      split; intros H; try discriminate H; try discriminate Ha; reflexivity.
Qed.

Example toast_examples :
  map description
      (toasts (onSuccess (mkPublishResult true true false false false false false false
                                          true false ["Search relays: timeout"])))
  = ["Updated your inbox/outbox, DM relays. Your profile was synced to all relays.";
     "Search relays: timeout"] ∧
  map description
      (toasts (onSuccess (mkPublishResult false false false false false false false false
                                          true true [])))
  = ["Your profile and contact list were synced to all relays."].
Proof. vm_compute. repeat split. Qed.

End PublicationFacts.

(** ** The page: records shown, handlers, change detection *)

Section PageFacts.

Import UserRelays Page.

Lemma map_get_entries (v : string → NIP65Relay) (key : string) (d : list string) :
  map_get key (map (fun u => (normalizeRelayUrl u, v u)) d) = None
  ↔ key ∉ map normalizeRelayUrl d.
Proof.
  induction d as [|u d IH]; cbn [map map_get].
  - split; [intros _; apply not_elem_of_nil|reflexivity].
  - rewrite not_elem_of_cons. destruct (String.eqb_spec (normalizeRelayUrl u) key) as [E|E].
    + split; [discriminate|]. intros [H _]. by symmetry in E.
    + rewrite IH. split; [intros H; split; [congruence|exact H]|tauto].
Qed.

Lemma map_modify_entries (v : string → NIP65Relay) (f : NIP65Relay → NIP65Relay)
    (key : string) (d : list string) :
  NoDup (map normalizeRelayUrl d) →
  map_modify key f (map (fun u => (normalizeRelayUrl u, v u)) d)
  = map (fun u => (normalizeRelayUrl u,
                   if decide (normalizeRelayUrl u = key) then f (v u) else v u)) d.
Proof.
  induction d as [|u d IH]; cbn [map map_modify]; [reflexivity|].
  intros [Hu Hd]%NoDup_cons.
  destruct (String.eqb_spec (normalizeRelayUrl u) key) as [E|E].
  - rewrite decide_True by exact E. f_equal.
    apply map_ext_elem. intros u' Hu'. rewrite decide_False; [reflexivity|].
    intros E'. apply Hu. rewrite E, <- E'. apply list_elem_of_fmap. eauto.
  - rewrite decide_False by exact E. f_equal. by apply IH.
Qed.

Lemma identities_snoc (d : list string) (u : string) :
  identities (d ++ [u]) = {[normalizeRelayUrl u]} ∪ identities d.
Proof. unfold identities. rewrite map_app. cbn. set_solver. Qed.

Lemma identities_elem (d : list string) (x : string) :
  x ∈ identities d ↔ x ∈ map normalizeRelayUrl d.
Proof. unfold identities. apply elem_of_list_to_set. Qed.

Lemma dedup_loop_NoDup_app (d l : list string) :
  NoDup (map normalizeRelayUrl d) →
  NoDup (map normalizeRelayUrl (d ++ deduplicate_loop (identities d) l)).
Proof.
  intros Hd. rewrite map_app. apply NoDup_app. split; [exact Hd|].
  split; [|apply dedup_loop_NoDup].
  intros x Hx Hx'. apply dedup_elem in Hx' as [_ Hx']. apply Hx', identities_elem, Hx.
Qed.

(** The inbox loop. *)
Lemma inbox_fold_spec (l d : list string) :
  fold_left inbox_step l (map (fun u => (normalizeRelayUrl u, mkNIP65Relay u true false)) d)
  = map (fun u => (normalizeRelayUrl u, mkNIP65Relay u true false))
        (d ++ deduplicate_loop (identities d) l).
Proof.
  revert d. induction l as [|u l IH]; intros d; cbn [fold_left deduplicate_loop].
  - by rewrite app_nil_r.
  - unfold inbox_step at 2.
    destruct (map_get (normalizeRelayUrl u) _) as [existing|] eqn:E.
    + assert (Hin : normalizeRelayUrl u ∈ identities d).
      { apply identities_elem. destruct (decide (normalizeRelayUrl u ∈ map normalizeRelayUrl d))
          as [H|H]; [exact H|].
        rewrite (proj2 (map_get_entries _ _ _) H) in E. discriminate E. }
      rewrite decide_True by exact Hin.
      replace (map_modify _ _ _)
        with (map (fun u => (normalizeRelayUrl u, mkNIP65Relay u true false)) d); [apply IH|].
      clear. induction d as [|u' d IH]; cbn [map map_modify]; [reflexivity|].
      destruct (String.eqb _ _); [reflexivity|]. by rewrite <- IH.
    + apply map_get_entries in E.
      rewrite decide_False by (rewrite identities_elem; exact E).
      replace (map _ d ++ _)%list
        with (map (fun u => (normalizeRelayUrl u, mkNIP65Relay u true false)) (d ++ [u]))
        by (by rewrite map_app).
      rewrite IH, identities_snoc, <- app_assoc. reflexivity.
Qed.

(** The outbox loop, over records whose read flag is settled. *)
Lemma outbox_fold_spec (rd : string → bool) (l d : list string) (W : gset string) :
  NoDup (map normalizeRelayUrl d) →
  (∀ u, normalizeRelayUrl u ∉ identities d → rd u = false) →
  (∀ u u', normalizeRelayUrl u = normalizeRelayUrl u' → rd u = rd u') →
  fold_left outbox_step l
    (map (fun u => (normalizeRelayUrl u,
                    mkNIP65Relay u (rd u) (bool_decide (normalizeRelayUrl u ∈ W)))) d)
  = map (fun u => (normalizeRelayUrl u,
                   mkNIP65Relay u (rd u)
                     (bool_decide (normalizeRelayUrl u ∈ W ∪ identities l))))
        (d ++ deduplicate_loop (identities d) l).
Proof.
  intros Hd Hrd Hrd'. revert d W Hd Hrd.
  induction l as [|u l IH]; intros d W Hd Hrd; cbn [fold_left deduplicate_loop].
  - rewrite app_nil_r. apply map_ext. intros u. do 3 f_equal.
    apply bool_decide_ext. unfold identities. cbn. set_solver.
  - assert (HW : ∀ X : gset string,
               X ∪ identities (u :: l) = ({[normalizeRelayUrl u]} ∪ X) ∪ identities l).
    { intros X. unfold identities. cbn. set_solver. }
    unfold outbox_step at 2.
    destruct (map_get (normalizeRelayUrl u) _) as [existing|] eqn:E.
    + assert (Hin : normalizeRelayUrl u ∈ identities d).
      { apply identities_elem. destruct (decide (normalizeRelayUrl u ∈ map normalizeRelayUrl d))
          as [H|H]; [exact H|].
        rewrite (proj2 (map_get_entries _ _ _) H) in E. discriminate E. }
      rewrite decide_True by exact Hin.
      rewrite map_modify_entries by exact Hd. cbn [url read write].
      rewrite HW, <- (IH d ({[normalizeRelayUrl u]} ∪ W) Hd Hrd). f_equal.
      apply map_ext. intros u'. f_equal.
      destruct (decide (normalizeRelayUrl u' = normalizeRelayUrl u)) as [E'|E'].
      * f_equal. symmetry. apply bool_decide_eq_true_2. set_solver.
      * f_equal. apply bool_decide_ext. set_solver.
    + apply map_get_entries in E.
      rewrite decide_False by (rewrite identities_elem; exact E).
      assert (Hd' : NoDup (map normalizeRelayUrl (d ++ [u]))).
      { rewrite map_app. apply NoDup_app. split; [exact Hd|].
        split; [|apply NoDup_singleton].
        intros x Hx ->%list_elem_of_singleton. contradiction. }
      assert (Hrd2 : ∀ u', normalizeRelayUrl u' ∉ identities (d ++ [u]) → rd u' = false).
      { intros u' Hu'. apply Hrd. rewrite identities_snoc in Hu'. set_solver. }
      rewrite HW, <- identities_snoc.
      replace (d ++ u :: deduplicate_loop (identities (d ++ [u])) l)%list
        with ((d ++ [u]) ++ deduplicate_loop (identities (d ++ [u])) l)%list
        by (by rewrite <- app_assoc).
      rewrite <- (IH (d ++ [u])%list ({[normalizeRelayUrl u]} ∪ W) Hd' Hrd2). f_equal.
      rewrite map_app. cbn [map]. f_equal.
      * apply map_ext_elem. intros u' Hu'. do 3 f_equal. apply bool_decide_ext.
        assert (normalizeRelayUrl u' ≠ normalizeRelayUrl u).
        { intros E'. apply E. rewrite <- E'. apply list_elem_of_fmap. eauto. }
        set_solver.
      * f_equal. f_equal. f_equal.
        -- symmetry. apply Hrd. rewrite identities_elem. exact E.
        -- symmetry. apply bool_decide_eq_true_2. set_solver.
Qed.

Lemma nip65Relays_spec (inboxRelays outboxRelays : list string) :
  nip65Relays inboxRelays outboxRelays
  = map (page_record inboxRelays outboxRelays)
        (deduplicateRelays (inboxRelays ++ outboxRelays)).
Proof.
  unfold nip65Relays.
  pose proof (inbox_fold_spec inboxRelays []) as Hin. cbn [map app] in Hin.
  change (identities []) with (∅ : gset string) in Hin.
  rewrite Hin. fold (deduplicateRelays inboxRelays).
  set (rd := fun u => bool_decide (normalizeRelayUrl u ∈ identities inboxRelays)).
  assert (Hids : ∀ x, x ∈ identities (deduplicateRelays inboxRelays)
                      ↔ x ∈ identities inboxRelays).
  { intros x. rewrite !identities_elem. unfold deduplicateRelays.
    rewrite dedup_elem. set_solver. }
  assert (Hids' : identities (deduplicateRelays inboxRelays) = identities inboxRelays).
  { apply set_eq, Hids. }
  assert (HH := outbox_fold_spec rd outboxRelays (deduplicateRelays inboxRelays) ∅).
  etransitivity.
  { apply (f_equal (map snd)). etransitivity; [|apply HH].
    - f_equal. apply map_ext_elem. intros u Hu. apply dedup_in_raw in Hu as [Hu _].
      unfold rd. rewrite bool_decide_eq_true_2, bool_decide_eq_false_2;
        [reflexivity|set_solver|].
      apply identities_elem, list_elem_of_fmap. eauto.
    - apply dedup_loop_NoDup.
    - intros u Hu. unfold rd. apply bool_decide_eq_false_2. by rewrite <- Hids.
    - intros u u' E. unfold rd. by rewrite E. }
  rewrite map_map, Hids'. unfold deduplicateRelays. rewrite dedup_app.
  replace (identities inboxRelays ∪ ∅) with (identities inboxRelays) by set_solver.
  apply map_ext. intros u. cbn [snd]. unfold page_record, rd. do 2 f_equal.
  apply bool_decide_ext. set_solver.
Qed.

(** X16.  The relay cards of the page are the records that will be
    published: there is one card for every identity of the inbox and
    outbox lists, in first-seen order and under the first spelling,
    marked read when the identity is in the inbox list and write when
    it is in the outbox list; turning each card into its tag gives the
    tags [buildNIP65Tags] builds; and the cards marked read are the
    inbox list deduplicated. *)
Theorem cards_match_published_tags (inboxRelays outboxRelays : list string) :
  nip65Relays inboxRelays outboxRelays
  = map (page_record inboxRelays outboxRelays)
        (deduplicateRelays (inboxRelays ++ outboxRelays)) ∧
  map tag_of_record (nip65Relays inboxRelays outboxRelays)
  = Publish.buildNIP65Tags inboxRelays outboxRelays ∧
  getInboxRelays (nip65Relays inboxRelays outboxRelays) = deduplicateRelays inboxRelays ∧
  (∀ x, x ∈ map normalizeRelayUrl (getOutboxRelays (nip65Relays inboxRelays outboxRelays))
        ↔ x ∈ map normalizeRelayUrl outboxRelays).
Proof.
  rewrite nip65Relays_spec. split; [reflexivity|]. split; [|split].
  - rewrite buildNIP65Tags_spec, map_map. apply map_ext_elem. intros u Hu.
    unfold tag_of_record, page_record, nip65_tag_for. cbn [read write url].
    assert (Hor : normalizeRelayUrl u ∈ identities inboxRelays
                  ∨ normalizeRelayUrl u ∈ identities outboxRelays).
    { apply identities_app, identities_dedup. eauto. }
    destruct (decide (normalizeRelayUrl u ∈ identities inboxRelays)) as [Hi|Hi];
      destruct (decide (normalizeRelayUrl u ∈ identities outboxRelays)) as [Ho|Ho];
      rewrite ?(bool_decide_eq_true_2 _ Hi), ?(bool_decide_eq_false_2 _ Hi),
              ?(bool_decide_eq_true_2 _ Ho), ?(bool_decide_eq_false_2 _ Ho);
      try reflexivity.
  - unfold getInboxRelays, deduplicateRelays. rewrite dedup_app.
    rewrite map_app, filter_app, map_app.
    replace (identities inboxRelays ∪ ∅) with (identities inboxRelays) by set_solver.
    assert (H1 : ∀ l, (∀ u, u ∈ l → normalizeRelayUrl u ∈ identities inboxRelays) →
                 map url (filter (fun r => read r)
                            (map (page_record inboxRelays outboxRelays) l)) = l).
    { induction l as [|u l IH]; intros H; [reflexivity|].
      rewrite map_cons, filter_bool_cons. cbn [read page_record].
      rewrite bool_decide_eq_true_2 by (apply H, elem_of_cons; auto).
      cbn. f_equal. apply IH. intros u' Hu'. apply H, elem_of_cons. auto. }
    assert (H2 : ∀ l, (∀ u, u ∈ l → normalizeRelayUrl u ∉ identities inboxRelays) →
                 map url (filter (fun r => read r)
                            (map (page_record inboxRelays outboxRelays) l)) = []).
    { induction l as [|u l IH]; intros H; [reflexivity|].
      rewrite map_cons, filter_bool_cons. cbn [read page_record].
      rewrite bool_decide_eq_false_2 by (apply H, elem_of_cons; auto).
      apply IH. intros u' Hu'. apply H, elem_of_cons. auto. }
    rewrite H1, H2, app_nil_r; [reflexivity| |].
    + intros u Hu. apply dedup_in_raw in Hu as [_ Hu]. exact Hu.
    + intros u Hu. apply dedup_in_raw in Hu as [Hu _].
      apply identities_elem, list_elem_of_fmap. eauto.
  - intros x. unfold getOutboxRelays. rewrite <- (identities_elem outboxRelays).
    rewrite list_elem_of_fmap. setoid_rewrite list_elem_of_fmap.
    setoid_rewrite list_elem_of_filter. setoid_rewrite list_elem_of_fmap. split.
    + intros (u & -> & r & -> & Hw & u' & -> & Hu'). cbn in *.
      by apply bool_decide_unpack in Hw.
    + intros Hx.
      destruct (proj2 (identities_dedup (inboxRelays ++ outboxRelays) x)) as (u & Hu & <-).
      { apply identities_app. auto. }
      exists u. split; [reflexivity|]. exists (page_record inboxRelays outboxRelays u).
      split; [reflexivity|]. split; [|eauto].
      cbn. by apply bool_decide_pack.
Qed.


(** *** Handlers *)

Lemma some_same_spec (relays : list string) (key : string) :
  some_same relays key = true ↔ normalizeRelayUrl key ∈ identities relays.
Proof.
  unfold some_same, isSameRelay. rewrite existsb_exists, identities_elem, list_elem_of_fmap.
  split.
  - intros (r & Hr & E). apply String.eqb_eq in E. exists r.
    split; [by symmetry|by apply list_elem_of_In].
  - intros (r & E & Hr). exists r. split; [by apply list_elem_of_In|].
    apply String.eqb_eq. by symmetry.
Qed.

Lemma without_same_elem (relays : list string) (key r : string) :
  r ∈ without_same relays key
  ↔ r ∈ relays ∧ normalizeRelayUrl r ≠ normalizeRelayUrl key.
Proof.
  unfold without_same, isSameRelay. rewrite list_elem_of_filter.
  destruct (String.eqb_spec (normalizeRelayUrl r) (normalizeRelayUrl key)); cbn; tauto.
Qed.

(** X17.  Toggling read (or write) on a card compares the identity of
    the card's canonical URL with the identities of the list.  If the
    list has that identity, every URL of that identity is removed and
    nothing else; if not, the card's URL is appended.  For a URL whose
    canonical form is a fixed point of [normalizeRelayUrl] this flips
    whether the list has the relay; for a URL whose canonical form is
    not (one that ends in two slashes) a list that holds just that URL
    gets a second copy of it instead of losing it. *)
Theorem toggle_read_flips (inboxRelays : list string) (u : string) :
  let key := normalizeRelayUrl (normalizeRelayUrl u) in
  let toggled := handleToggleRead inboxRelays u in
  handleToggleWrite inboxRelays u = toggled ∧
  (key ∈ identities inboxRelays →
   toggled = filter (fun r => normalizeRelayUrl r ≠ key) inboxRelays ∧
   key ∉ identities toggled) ∧
  (key ∉ identities inboxRelays → toggled = (inboxRelays ++ [u])%list) ∧
  (key = normalizeRelayUrl u →
   (normalizeRelayUrl u ∈ identities toggled
    ↔ normalizeRelayUrl u ∉ identities inboxRelays)) ∧
  (key ≠ normalizeRelayUrl u → handleToggleRead [u] u = [u; u]) ∧
  normalizeRelayUrl (normalizeRelayUrl "wss://relay.example.com//")
  ≠ normalizeRelayUrl "wss://relay.example.com//".
Proof.
  cbn zeta. split; [reflexivity|].
  assert (Hon : normalizeRelayUrl (normalizeRelayUrl u) ∈ identities inboxRelays →
                handleToggleRead inboxRelays u
                = filter (fun r => normalizeRelayUrl r
                                   ≠ normalizeRelayUrl (normalizeRelayUrl u)) inboxRelays).
  { intros H. unfold handleToggleRead. rewrite (proj2 (some_same_spec _ _) H).
    unfold without_same, isSameRelay. apply list_filter_iff. intros r.
    destruct (String.eqb_spec (normalizeRelayUrl r)
                (normalizeRelayUrl (normalizeRelayUrl u))); cbn; tauto. }
  assert (Hoff : normalizeRelayUrl (normalizeRelayUrl u) ∉ identities inboxRelays →
                 handleToggleRead inboxRelays u = (inboxRelays ++ [u])%list).
  { intros H. unfold handleToggleRead.
    destruct (some_same inboxRelays (normalizeRelayUrl u)) eqn:E; [|reflexivity].
    apply some_same_spec in E. contradiction. }
  assert (Hgone : normalizeRelayUrl (normalizeRelayUrl u) ∈ identities inboxRelays →
                  normalizeRelayUrl (normalizeRelayUrl u)
                  ∉ identities (handleToggleRead inboxRelays u)).
  { intros H. rewrite (Hon H), identities_elem, list_elem_of_fmap.
    intros (r & E & Hr). apply list_elem_of_filter in Hr as [Hr _]. by apply Hr. }
  split; [|split; [|split; [|split]]].
  - intros H. split; [exact (Hon H)|exact (Hgone H)].
  - exact Hoff.
  - intros E. rewrite E in *.
    destruct (decide (normalizeRelayUrl u ∈ identities inboxRelays)) as [H|H].
    + split; [intros H'; exfalso; by apply (Hgone H)|contradiction].
    + split; [intros _; exact H|intros _].
      rewrite (Hoff H), identities_snoc. set_solver.
  - intros Hne. unfold handleToggleRead, some_same, isSameRelay. cbn [existsb].
    rewrite orb_false_r.
    destruct (String.eqb_spec (normalizeRelayUrl u)
                (normalizeRelayUrl (normalizeRelayUrl u))) as [E|E]; [|reflexivity].
    by symmetry in E.
  - vm_compute. discriminate.
Qed.

(** X18.  The add-relay dialog.  Its text is trimmed and given the
    [wss://] scheme when it has no WebSocket scheme; a blank or invalid
    URL changes nothing and probes nothing; otherwise the URL is probed,
    the lists of the other types are left alone, and the list of the
    chosen type either stays as it is, when it has a relay of the
    identity compared, or gets the URL appended.  So only valid relay
    URLs are ever added, and a list without two URLs of one identity
    stays so when the URL's canonical form is a fixed point of
    [normalizeRelayUrl]. *)
Theorem add_relay_dialog (st : Lists) (ty : RelayType) (text : string) :
  let after := fst (handleAddRelay st ty text) in
  let tested := snd (handleAddRelay st ty text) in
  let u := if negb (startsWith "wss://" (trim text)) && negb (startsWith "ws://" (trim text))
           then "wss://" +:+ trim text else trim text in
  (∀ ty', ty' ≠ ty → list_of ty' after = list_of ty' st) ∧
  (if is_empty (trim text) || negb (isValidRelayUrl u)
   then after = st ∧ tested = []
   else tested = [u] ∧
        list_of ty after
        = if some_same (list_of ty st) (normalizeRelayUrl u)
          then list_of ty st else (list_of ty st ++ [u])%list) ∧
  (Forall (fun r => isValidRelayUrl r = true) (list_of ty st) →
   Forall (fun r => isValidRelayUrl r = true) (list_of ty after)) ∧
  (normalizeRelayUrl (normalizeRelayUrl u) = normalizeRelayUrl u →
   NoDup (map normalizeRelayUrl (list_of ty st)) →
   NoDup (map normalizeRelayUrl (list_of ty after))).
Proof.
  cbn zeta. unfold handleAddRelay.
  set (u := if negb (startsWith "wss://" (trim text)) && negb (startsWith "ws://" (trim text))
            then "wss://" +:+ trim text else trim text).
  destruct (is_empty (trim text)) eqn:Et; cbn [orb fst snd].
  { repeat split; auto. }
  destruct (isValidRelayUrl u) eqn:Ev; cbn [negb fst snd].
  2: { repeat split; auto. }
  assert (Hadd : ∀ l, add_unless_same l (normalizeRelayUrl u) u
                      = if some_same l (normalizeRelayUrl u) then l else (l ++ [u])%list).
  { intros l. unfold add_unless_same. by destruct (some_same l _). }
  split; [|split; [|split]].
  - intros ty' Hne. destruct ty, ty'; try reflexivity; contradiction.
  - split; [reflexivity|]. destruct ty; cbn [list_of inboxRelays outboxRelays dmRelays
      searchRelays]; apply Hadd.
  - intros Hall.
    assert (H : Forall (fun r => isValidRelayUrl r = true)
                       (add_unless_same (list_of ty st) (normalizeRelayUrl u) u)).
    { rewrite Hadd. destruct (some_same _ _); [exact Hall|].
      apply Forall_app. split; [exact Hall|]. by constructor. }
    destruct ty; exact H.
  - intros Hidem Hnd.
    assert (H : NoDup (map normalizeRelayUrl
                         (add_unless_same (list_of ty st) (normalizeRelayUrl u) u))).
    { rewrite Hadd. destruct (some_same _ _) eqn:Es; [exact Hnd|].
      rewrite map_app. apply NoDup_app. split; [exact Hnd|].
      split; [|apply NoDup_singleton].
      intros x Hx ->%list_elem_of_singleton.
      assert (Hs : some_same (list_of ty st) (normalizeRelayUrl u) = true).
      { apply some_same_spec. rewrite Hidem. by apply identities_elem. }
      congruence. }
    destruct ty; exact H.
Qed.

Example add_relay_examples :
  handleAddRelay (mkLists [] [] ["wss://dm.example.com"] []) inbox "  Relay.Example.com/ "
  = (mkLists ["wss://Relay.Example.com/"] [] ["wss://dm.example.com"] [],
     ["wss://Relay.Example.com/"]) ∧
  handleAddRelay (mkLists [] [] ["wss://dm.example.com"] []) dm "dm.example.com:443"
  = (mkLists [] [] ["wss://dm.example.com"] [], ["wss://dm.example.com:443"]) ∧
  handleAddRelay (mkLists [] [] [] []) inbox "   " = (mkLists [] [] [] [], []) ∧
  handleAddRelay (mkLists [] [] [] []) inbox "not a relay" = (mkLists [] [] [] [], []).
Proof. vm_compute. repeat split. Qed.

(** *** Change detection *)

Lemma ascii_compare_refl (c : ascii) : Ascii.compare c c = Eq.
Proof. unfold Ascii.compare. apply N.compare_refl. Qed.

Lemma string_compare_refl (s : string) : String.compare s s = Eq.
Proof. induction s as [|c s IH]; cbn; [reflexivity|]. by rewrite ascii_compare_refl. Qed.

Lemma string_le_trans (a b c : string) : string_le a b → string_le b c → string_le a c.
Proof.
  unfold string_le. revert b c.
  induction a as [|x a IH]; intros [|y b] [|z c]; cbn; try congruence.
  pose proof (IH b c) as IH'.
  unfold Ascii.compare.
  destruct (N.compare_spec (N_of_ascii x) (N_of_ascii y)) as [Exy|Hxy|Hxy];
    destruct (N.compare_spec (N_of_ascii y) (N_of_ascii z)) as [Eyz|Hyz|Hyz];
    destruct (N.compare_spec (N_of_ascii x) (N_of_ascii z)) as [Exz|Hxz|Hxz];
    try congruence; try lia; auto.
Qed.

Lemma string_le_antisym (a b : string) : string_le a b → string_le b a → a = b.
Proof.
  unfold string_le. rewrite (String.compare_antisym b a).
  destruct (String.compare a b) eqn:E; cbn; try congruence.
  intros _ _. by apply String.compare_eq_iff.
Qed.

Lemma sorted_unique (l1 l2 : list string) :
  StronglySorted string_le l1 → StronglySorted string_le l2 → l1 ≡ₚ l2 → l1 = l2.
Proof.
  intros H1. revert l2. induction H1 as [|x l1 Hs IH Hx]; intros l2 H2 Hp.
  - by apply Permutation_nil_l in Hp.
  - destruct H2 as [|y l2 Hs2 Hy].
    + by apply Permutation_nil_r in Hp.
    + assert (x = y) as <-.
      { apply string_le_antisym.
        - assert (Hin : y ∈ x :: l1) by (rewrite Hp; apply elem_of_cons; auto).
          apply elem_of_cons in Hin as [->|Hin].
          + unfold string_le. by rewrite string_compare_refl.
          + rewrite Forall_forall in Hx. by apply Hx.
        - assert (Hin : x ∈ y :: l2) by (rewrite <- Hp; apply elem_of_cons; auto).
          apply elem_of_cons in Hin as [->|Hin].
          + unfold string_le. by rewrite string_compare_refl.
          + rewrite Forall_forall in Hy. by apply Hy. }
      f_equal. apply IH; [exact Hs2|]. by apply Permutation_cons_inv in Hp.
Qed.

Lemma sort_strings_sorted (l : list string) :
  StronglySorted string_le (JsArray.sort compare_strings l).
Proof.
  apply js_sort_sorted.
  - apply string_le_trans.
  - intros x y. unfold compare_strings, string_le.
    rewrite (String.compare_antisym x y).
    destruct (String.compare y x); cbn; intros; try lia; congruence.
  - intros x y. unfold compare_strings, string_le.
    destruct (String.compare x y); cbn; intros; try lia; congruence.
Qed.

Lemma every_from_lookup (sortedB : list string) (i : nat) (sortedA : list string) :
  JsArray.every_from
    (fun v i => match sortedB !! i with
                | Some w => String.eqb v w
                | None => false
                end) i sortedA = true
  ↔ ∀ k v, sortedA !! k = Some v → sortedB !! (i + k)%nat = Some v.
Proof.
  revert i. induction sortedA as [|v l IH]; intros i; cbn [JsArray.every_from].
  - split; [intros _ k v H; by rewrite lookup_nil in H|reflexivity].
  - rewrite andb_true_iff, IH. split.
    + intros [Hv Hl] [|k] w; cbn.
      * intros [= <-]. rewrite Nat.add_0_r. destruct (sortedB !! i) as [w|]; [|discriminate].
        by apply String.eqb_eq in Hv as ->.
      * intros Hk. rewrite <- Nat.add_succ_comm. by apply Hl.
    + intros H. split.
      * specialize (H 0%nat v eq_refl). rewrite Nat.add_0_r in H. rewrite H.
        apply String.eqb_refl.
      * intros k w Hk. rewrite Nat.add_succ_comm. by apply (H (S k)).
Qed.

(** X19.  Change detection compares the lists as bags: [arraysEqual]
    holds exactly when one list is a rearrangement of the other, so
    [hasChanges] is raised by adding or removing a URL (or a copy of
    one) and not by reordering; before the lists are loaded there is no
    change. *)
Theorem changes_up_to_order (a b : list string) (st original : Lists) :
  (arraysEqual a b = true ↔ a ≡ₚ b) ∧
  (hasChanges st (Some original) = false
   ↔ inboxRelays st ≡ₚ inboxRelays original ∧ outboxRelays st ≡ₚ outboxRelays original ∧
     dmRelays st ≡ₚ dmRelays original ∧ searchRelays st ≡ₚ searchRelays original) ∧
  hasChanges st None = false.
Proof.
  assert (Heq : ∀ a b, arraysEqual a b = true ↔ a ≡ₚ b).
  { clear. intros a b. unfold arraysEqual. split.
    - destruct (Nat.eqb_spec (length a) (length b)) as [Hlen|]; [|discriminate].
      cbn [negb]. intros H. pose proof (proj1 (every_from_lookup _ _ _) H) as H'.
      clear H. rename H' into H.
      assert (E : JsArray.sort compare_strings a = JsArray.sort compare_strings b).
      { apply (list_eq_same_length _ _ (length a)).
        - by rewrite js_sort_length.
        - by rewrite js_sort_length.
        - intros i x y _ Hx Hy. apply H in Hx. cbn in Hx. congruence. }
      rewrite <- (js_sort_perm compare_strings a), E. apply js_sort_perm.
    - intros Hp. rewrite (Permutation_length Hp), Nat.eqb_refl. cbn [negb].
      apply (proj2 (every_from_lookup _ _ _)). intros k v Hk. cbn.
      rewrite <- (sorted_unique (JsArray.sort compare_strings a)
                                (JsArray.sort compare_strings b)); [exact Hk|..].
      + apply sort_strings_sorted.
      + apply sort_strings_sorted.
      + by rewrite !js_sort_perm. }
  split; [apply Heq|]. split; [|reflexivity].
  unfold hasChanges. rewrite !orb_false_iff, !negb_false_iff, !Heq. tauto.
Qed.

End PageFacts.

(** ** Reviews: stars and summaries *)

Section StarFacts.

Import Reviews ReviewQueries.

(** X20.  Stars survive the conversion to a rating and back: for
    every whole number of stars from 0 to 5, [starsToRating] followed by
    [ratingToStars] returns the number of stars, in binary64
    arithmetic; hence the average of a single review is its own number
    of stars, and there is no average of no reviews. *)
Theorem stars_round_trip (n : Z) :
  (0 ≤ n ≤ 5)%Z →
  ratingToStars (starsToRating (float_of_Z n)) = float_of_Z n ∧
  getAverageStars [review_rated (starsToRating (float_of_Z n))] = Some (float_of_Z n) ∧
  getAverageStars [] = None.
Proof.
  intros Hn.
  assert (H : (n = 0 ∨ n = 1 ∨ n = 2 ∨ n = 3 ∨ n = 4 ∨ n = 5)%Z) by lia.
  destruct H as [-> | [-> | [-> | [-> | [-> | ->] ] ] ] ]; vm_compute; repeat split.
Qed.

Lemma stars_round_trip_witness :
  ratingToStars (starsToRating 3) = 3%float ∧
  getAverageStars [review_rated (starsToRating 3)] = Some 3%float ∧
  getAverageStars [] = None.
Proof. apply (stars_round_trip 3). lia. Defined.

End StarFacts.

Section ReviewQueryFacts.

Import Reviews ReviewQueries.

Variable parseFloat : string → float.

Lemma unique_by_id_elem (seen : gset string) (events : list NostrEvent) (e : NostrEvent) :
  e ∈ unique_by_id seen events → e ∈ events ∧ ev_id e ∉ seen.
Proof.
  revert seen. induction events as [|x events IH]; intros seen; cbn [unique_by_id].
  - intros H. by apply elem_of_nil in H.
  - destruct (decide (ev_id x ∈ seen)).
    + intros H. apply IH in H. rewrite elem_of_cons. tauto.
    + rewrite !elem_of_cons. intros [->|H]; [tauto|].
      apply IH in H. set_solver.
Qed.

Lemma unique_by_id_NoDup (seen : gset string) (events : list NostrEvent) :
  NoDup (map ev_id (unique_by_id seen events)).
Proof.
  revert seen. induction events as [|x events IH]; intros seen; cbn [unique_by_id];
    [constructor|].
  destruct (decide (ev_id x ∈ seen)); [apply IH|].
  cbn. constructor; [|apply IH].
  intros (e & E & He)%list_elem_of_fmap. apply unique_by_id_elem in He as [_ He].
  rewrite <- E in He. set_solver.
Qed.

Lemma parse_review_fields (event : NostrEvent) (r : RelayReview) :
  parseReviewEvent parseFloat event = Some r →
  id r = ev_id event ∧ pubkey r = ev_pubkey event ∧ content r = ev_content event ∧
  createdAt r = ev_created_at event ∧
  (0 <=? rating r)%float = true ∧ (rating r <=? 1)%float = true.
Proof.
  unfold parseReviewEvent.
  destruct (find_tag "r" (ev_tags event)) as [rTag|]; [|discriminate].
  destruct (rTag !! 1%nat) as [u|]; [|discriminate].
  destruct (is_empty u); [discriminate|]. intros [= <-]. cbn.
  destruct (review_rating_bounds parseFloat (ev_tags event)). repeat split; assumption.
Qed.

Lemma omap_parse_elem (events : list NostrEvent) (r : RelayReview) :
  r ∈ omap (parseReviewEvent parseFloat) events
  ↔ ∃ e, e ∈ events ∧ parseReviewEvent parseFloat e = Some r.
Proof. apply list_elem_of_omap. Qed.

Lemma omap_parse_NoDup (events : list NostrEvent) :
  NoDup (map ev_id events) → NoDup (map id (omap (parseReviewEvent parseFloat) events)).
Proof.
  induction events as [|e events IH]; cbn; [constructor|].
  intros [He Hd]%NoDup_cons. specialize (IH Hd).
  destruct (parseReviewEvent parseFloat e) as [r|] eqn:E; [|exact IH].
  cbn. constructor; [|exact IH].
  intros (r' & E' & Hr')%list_elem_of_fmap.
  apply omap_parse_elem in Hr' as (e' & He' & Hp').
  apply parse_review_fields in E as [E _]. apply parse_review_fields in Hp' as [Hp' _].
  apply He, list_elem_of_fmap. exists e'. split; [congruence|exact He'].
Qed.

Lemma by_most_recent_sorted (l : list RelayReview) :
  StronglySorted (fun a b => (createdAt b ≤ createdAt a)%Z) (JsArray.sort by_most_recent l).
Proof. apply js_sort_sorted; unfold by_most_recent; intros; lia. Qed.

(** X21.  The summary of a relay's reviews.  Without a URL there is
    none.  Otherwise the summary is filed under the canonical URL and
    holds the parsed reviews of the events gathered from the pool and
    the review relays, each event once: no two reviews of one event id,
    newest first, every rating between 0 and 1, the count being the
    number of reviews; when every query fails, or nothing parses, the
    summary is empty with average 0. *)
Theorem relay_reviews_summary (net : ReviewSources) (relayUrl : option string) :
  match relayReviews parseFloat net relayUrl with
  | None => relayUrl = None ∨ relayUrl = Some ""
  | Some s =>
      ∃ u, relayUrl = Some u ∧ u ≠ "" ∧
           s_relayUrl s = normalizeRelayUrl u ∧
           reviews s ≡ₚ parsed_reviews parseFloat net [normalizeRelayUrl u] ∧
           StronglySorted (fun a b => (createdAt b ≤ createdAt a)%Z) (reviews s) ∧
           NoDup (map id (reviews s)) ∧
           Forall (fun r => (0 <=? rating r)%float = true ∧ (rating r <=? 1)%float = true)
                  (reviews s) ∧
           reviewCount s = length (reviews s) ∧
           (reviews s = [] → averageRating s = 0%float) ∧
           (pool_reviews net [normalizeRelayUrl u] = ContactRelays.QueryRejected →
            (∀ relay, relay_reviews net relay [normalizeRelayUrl u]
                      = ContactRelays.QueryRejected) →
            reviews s = [])
  end.
Proof.
  unfold relayReviews. destruct relayUrl as [u|]; [|by left].
  destruct u as [|c u]; [by right|]. cbn [is_empty].
  set (nu := normalizeRelayUrl (String c u)).
  exists (String c u). split; [reflexivity|]. split; [discriminate|].
  cbn [s_relayUrl reviews reviewCount averageRating summarize].
  fold (parsed_reviews parseFloat net [nu]).
  split; [reflexivity|]. split; [apply js_sort_perm|].
  split; [apply by_most_recent_sorted|]. split; [|split; [|split; [|split]]].
  - rewrite js_sort_perm. apply omap_parse_NoDup, unique_by_id_NoDup.
  - rewrite js_sort_perm. apply Forall_forall. intros r Hr.
    apply omap_parse_elem in Hr as (e & _ & He).
    apply parse_review_fields in He. tauto.
  - reflexivity.
  - intros E. by rewrite E.
  - intros Hp Hr. unfold parsed_reviews, gather, nu. rewrite Hp. cbn. by rewrite !Hr.
Qed.

(** *** Reviews of several relays *)

Lemma group_fold_lookup (events : list NostrEvent) (m : gmap string (list RelayReview))
    (u : string) :
  default [] (fold_left (group_review parseFloat) events m !! u)
  = (default [] (m !! u)
     ++ filter (fun r => relayUrl r = u) (omap (parseReviewEvent parseFloat) events))%list.
Proof.
  revert m. induction events as [|e events IH]; intros m; cbn [fold_left].
  - cbn. by rewrite app_nil_r.
  - rewrite IH. unfold group_review. cbn [omap list_omap].
    destruct (parseReviewEvent parseFloat e) as [r|]; [|reflexivity].
    rewrite filter_cons. destruct (decide (relayUrl r = u)) as [<-|Hne].
    + rewrite lookup_insert_eq. cbn. by rewrite <- app_assoc.
    + by rewrite lookup_insert_ne.
Qed.

Lemma summaries_fold_lookup (f : string → RelayReviewSummary) (urls : list string)
    (m : gmap string RelayReviewSummary) (u : string) :
  fold_left (fun summaries u => <[u := f u]> summaries) urls m !! u
  = if decide (u ∈ urls) then Some (f u) else m !! u.
Proof.
  revert m. induction urls as [|x urls IH]; intros m; cbn [fold_left].
  - by rewrite decide_False by apply not_elem_of_nil.
  - rewrite IH. destruct (decide (u ∈ urls)) as [Hin|Hnin].
    + by rewrite decide_True by (apply elem_of_cons; auto).
    + destruct (decide (u = x)) as [->|Hne].
      * rewrite decide_True by (apply elem_of_cons; auto). apply lookup_insert_eq.
      * rewrite decide_False by (rewrite elem_of_cons; tauto).
        by apply lookup_insert_ne.
Qed.

(** X22.  The summaries of several relays.  There is one summary for
    every identity among the URLs asked for and no other; the summary
    filed under a canonical URL holds exactly the parsed reviews whose
    own relay URL is that URL, newest first and in the order the events
    were gathered among reviews of one time; a review of a relay that
    was not asked for is in no summary. *)
Theorem multiple_reviews_grouped (net : ReviewSources) (relayUrls : list string)
    (u : string) :
  let summaries := multipleRelayReviews parseFloat net relayUrls in
  let asked := set_of_list (map normalizeRelayUrl relayUrls) in
  let mine := filter (fun r => relayUrl r = u) (parsed_reviews parseFloat net asked) in
  match summaries !! u with
  | Some s =>
      u ∈ map normalizeRelayUrl relayUrls ∧
      s_relayUrl s = u ∧
      reviews s ≡ₚ mine ∧
      StronglySorted (fun a b => (createdAt b ≤ createdAt a)%Z) (reviews s) ∧
      (∀ t, filter (fun r => createdAt r = t) (reviews s)
            = filter (fun r => createdAt r = t) mine) ∧
      reviewCount s = length mine
  | None => u ∉ map normalizeRelayUrl relayUrls
  end.
Proof.
  cbn zeta. unfold multipleRelayReviews.
  destruct relayUrls as [|x xs]; [rewrite lookup_empty; apply not_elem_of_nil|].
  set (relayUrls := x :: xs).
  set (asked := set_of_list (map normalizeRelayUrl relayUrls)).
  rewrite (summaries_fold_lookup
             (fun u => summarize u
                         (JsArray.sort by_most_recent
                            (default []
                               (fold_left (group_review parseFloat)
                                          (unique_by_id ∅ (gather net asked)) ∅ !! u))))).
  destruct (decide (u ∈ asked)) as [Hin|Hnin].
  - cbn [s_relayUrl reviews reviewCount summarize].
    rewrite group_fold_lookup, lookup_empty. cbn [default app].
    fold (parsed_reviews parseFloat net asked).
    split; [by apply set_of_list_elem|]. split; [reflexivity|].
    split; [apply js_sort_perm|]. split; [apply by_most_recent_sorted|].
    split; [|apply js_sort_length].
    intros t. apply js_sort_stable. unfold by_most_recent. intros; lia.
  - rewrite lookup_empty. intros H. apply Hnin. by apply set_of_list_elem.
Qed.

End ReviewQueryFacts.

(** ** What a card shows *)

Section DisplayFacts.

Import RelayDisplay.







End DisplayFacts.

(** ** Removing a card, and the suggestions shown *)

Section CardFacts.

Import UserRelays Page.

Lemma dedup_loop_seen_filter (k : string) (seen : gset string) (l : list string) :
  filter (fun r => normalizeRelayUrl r ≠ k) (deduplicate_loop ({[k]} ∪ seen) l)
  = filter (fun r => normalizeRelayUrl r ≠ k) (deduplicate_loop seen l).
Proof.
  revert seen. induction l as [|u l IH]; intros seen; cbn [deduplicate_loop]; [reflexivity|].
  destruct (decide (normalizeRelayUrl u = k)) as [E|E].
  - rewrite decide_True by set_solver.
    destruct (decide (normalizeRelayUrl u ∈ seen)); [apply IH|].
    rewrite filter_cons, decide_False by tauto.
    rewrite E. replace ({[k]} ∪ seen) with ({[k]} ∪ ({[k]} ∪ seen)) at 1 by set_solver.
    by rewrite IH.
  - destruct (decide (normalizeRelayUrl u ∈ seen)) as [Hin|Hnin].
    + rewrite decide_True by set_solver. apply IH.
    + rewrite decide_False by set_solver. rewrite !filter_cons.
      rewrite !(decide_True (P := normalizeRelayUrl u ≠ k)) by exact E.
      f_equal. replace ({[normalizeRelayUrl u]} ∪ ({[k]} ∪ seen))
        with ({[k]} ∪ ({[normalizeRelayUrl u]} ∪ seen)) by set_solver.
      apply IH.
Qed.

Lemma dedup_loop_filter (k : string) (seen : gset string) (l : list string) :
  deduplicate_loop seen (filter (fun r => normalizeRelayUrl r ≠ k) l)
  = filter (fun r => normalizeRelayUrl r ≠ k) (deduplicate_loop seen l).
Proof.
  revert seen. induction l as [|u l IH]; intros seen; [reflexivity|].
  rewrite filter_cons. destruct (decide (normalizeRelayUrl u ≠ k)) as [E|E].
  - cbn [deduplicate_loop]. destruct (decide (normalizeRelayUrl u ∈ seen)); [apply IH|].
    rewrite filter_cons, decide_True by exact E. f_equal. apply IH.
  - apply dec_stable in E. cbn [deduplicate_loop].
    destruct (decide (normalizeRelayUrl u ∈ seen)); [apply IH|].
    rewrite filter_cons, decide_False by tauto.
    rewrite E, dedup_loop_seen_filter. apply IH.
Qed.

Lemma without_same_filter (relays : list string) (key : string) :
  without_same relays key
  = filter (fun r => normalizeRelayUrl r ≠ normalizeRelayUrl key) relays.
Proof.
  unfold without_same, isSameRelay. apply list_filter_iff. intros r.
  destruct (String.eqb_spec (normalizeRelayUrl r) (normalizeRelayUrl key)); cbn; tauto.
Qed.

Lemma identities_filter (k : string) (l : list string) (x : string) :
  x ∈ identities (filter (fun r => normalizeRelayUrl r ≠ k) l)
  ↔ x ∈ identities l ∧ x ≠ k.
Proof.
  rewrite !identities_elem, !list_elem_of_fmap. setoid_rewrite list_elem_of_filter. split.
  - intros (r & -> & Hr & Hin). eauto.
  - intros [(r & -> & Hin) Hne]. eauto.
Qed.

(** X24.  Removing a card removes that card and no other: after
    [handleRemoveNip65] the cards are the cards there were, in their
    order and with their marks, without those of the identity compared
    (the canonical form of the card's canonical URL); the other lists
    are untouched. *)
Theorem remove_card (st : Lists) (u : string) :
  let after := handleRemoveNip65 st u in
  nip65Relays (inboxRelays after) (outboxRelays after)
  = filter (fun r => normalizeRelayUrl (url r)
                     ≠ normalizeRelayUrl (normalizeRelayUrl u))
           (nip65Relays (inboxRelays st) (outboxRelays st)) ∧
  dmRelays after = dmRelays st ∧ searchRelays after = searchRelays st.
Proof.
  cbn zeta. split; [|split; reflexivity].
  cbn [handleRemoveNip65 inboxRelays outboxRelays].
  set (k := normalizeRelayUrl (normalizeRelayUrl u)).
  rewrite !without_same_filter, !nip65Relays_spec. fold k.
  rewrite <- filter_app. unfold deduplicateRelays. rewrite dedup_loop_filter.
  generalize (deduplicate_loop ∅ (inboxRelays st ++ outboxRelays st)). intros l.
  induction l as [|r l IH]; [reflexivity|].
  rewrite map_cons, !filter_cons. cbn [url page_record].
  destruct (decide (normalizeRelayUrl r ≠ k)) as [E|E]; [|exact IH].
  rewrite map_cons, IH. f_equal. unfold page_record. f_equal;
    apply bool_decide_ext; rewrite identities_filter; tauto.
Qed.

Lemma sorted_app_elem {B} (R : B → B → Prop) (l1 l2 : list B) (x1 x2 : B) :
  StronglySorted R (l1 ++ l2) → x1 ∈ l1 → x2 ∈ l2 → R x1 x2.
Proof.
  induction l1 as [|y l1 IH]; cbn; intros Hs H1 H2; [by apply elem_of_nil in H1|].
  apply StronglySorted_inv in Hs as [Hs Hall].
  apply elem_of_cons in H1 as [->|H1]; [|by apply IH].
  rewrite Forall_forall in Hall. apply Hall, elem_of_app. auto.
Qed.

(** X25.  The suggestions shown.  From the suggestions of a run the
    page shows at most twenty, none of them already used, in the order
    of the run; and a suggestion that is not already used and is not
    shown counts no more contacts than any suggestion shown. *)
Theorem unused_suggestions_top (net : ContactRelays.Network) (pubkey : option string)
    (userRelays : list string) :
  match fst (ContactRelays.queryFn net pubkey userRelays) with
  | Ok (Some r) =>
      let shown := unusedSuggestions (Some (ContactRelays.suggestions r)) in
      (length shown ≤ 20)%nat ∧
      shown `sublist_of` ContactRelays.suggestions r ∧
      Forall (fun s => ContactRelays.alreadyUsed s = false) shown ∧
      Forall (fun s => ContactRelays.alreadyUsed s = false → s ∉ shown →
                       Forall (fun s' => (ContactRelays.contactCount s
                                          ≤ ContactRelays.contactCount s')%nat) shown)
             (ContactRelays.suggestions r)
  | _ => True
  end.
Proof.
  destruct (fst (ContactRelays.queryFn net pubkey userRelays)) as [[r|]|] eqn:E; try exact I.
  destruct (queryFn_state _ _ _ _ E) as (st & _ & Hs & _).
  assert (Hsorted : StronglySorted by_count_desc (ContactRelays.suggestions r)).
  { rewrite Hs. apply sort_by_count_sorted. }
  clear E Hs. cbn zeta. unfold unusedSuggestions.
  set (unused := filter (fun s => negb (ContactRelays.alreadyUsed s))
                        (ContactRelays.suggestions r)).
  assert (Hu : StronglySorted by_count_desc unused).
  { unfold unused. clear -Hsorted.
    induction Hsorted as [|s l Hl IH Hall]; [constructor|].
    rewrite filter_cons. destruct (decide _); [|exact IH].
    constructor; [exact IH|]. apply Forall_forall. intros s' Hs'.
    apply list_elem_of_filter in Hs' as [_ Hs']. rewrite Forall_forall in Hall. by apply Hall. }
  split; [rewrite length_take; lia|]. split; [|split].
  - etransitivity; [apply sublist_take|apply sublist_filter].
  - apply Forall_forall. intros s Hs. apply (subseteq_take 20) in Hs.
    apply list_elem_of_filter in Hs as [Hs _].
    by destruct (ContactRelays.alreadyUsed s).
  - apply Forall_forall. intros s Hs Hun Hnot.
    assert (Hin : s ∈ unused).
    { apply list_elem_of_filter. split; [by rewrite Hun|exact Hs]. }
    rewrite <- (take_drop 20 unused) in Hin, Hu.
    apply elem_of_app in Hin as [Hin|Hin]; [contradiction|].
    apply Forall_forall. intros s' Hs'.
    exact (sorted_app_elem _ _ _ s' s Hu Hs' Hin).
Qed.

End CardFacts.

(** ** A submitted review, read back *)

Section SubmitFacts.

Import Publish Reviews ReviewQueries ReviewSubmit.

Variables (parseFloat : string → float) (toFixed2 : float → string).

(** X26.  A review submitted with a whole number of stars from 1 to 5
    reads back with that number of stars.  When the signer signs the
    record as it is handed over and the transport accepts it, the
    submission resolves with the canonical URL and the event; the event
    parses as a review of the canonical form of that URL (the URL is
    normalized once more when parsed) whose rating shows the stars
    given, provided the two-digit text written for the rating reads
    back as the rating. *)
Theorem submitted_review_reads_back (env : Env) (signEvent : Signer)
    (rawUrl content : string) (n : Z) (event : NostrEvent) :
  (1 ≤ n ≤ 5)%Z →
  normalizeRelayUrl rawUrl ≠ "" →
  parseFloat (toFixed2 (starsToRating (float_of_Z n))) = starsToRating (float_of_Z n) →
  signEvent (review_template toFixed2 env rawUrl (float_of_Z n) content) = Ok event →
  ev_tags event
  = t_tags (review_template toFixed2 env rawUrl (float_of_Z n) content) →
  nostr_event env event = Ok tt →
  mutationFn toFixed2 env (Some signEvent) rawUrl (float_of_Z n) content
  = Ok (normalizeRelayUrl rawUrl, event) ∧
  ∃ review,
    parseReviewEvent parseFloat event = Some review ∧
    relayUrl review = normalizeRelayUrl (normalizeRelayUrl rawUrl) ∧
    ratingToStars (rating review) = float_of_Z n.
Proof.
  intros Hn Hne Hrt Hsign Htags Hsend. split.
  - unfold mutationFn. by rewrite Hsign, Hsend.
  - unfold parseReviewEvent, review_rating. rewrite Htags.
    unfold review_template. cbn [t_tags].
    assert (Hr : ∀ tl, find_tag "r"
               ([["L"; "review"]; ["l"; "review/relay"; "review"];
                 ["rating"; toFixed2 (starsToRating (float_of_Z n))];
                 ["r"; normalizeRelayUrl rawUrl]] ++ tl)%list
               = Some ["r"; normalizeRelayUrl rawUrl]) by reflexivity.
    assert (Hg : ∀ tl, find_tag "rating"
               ([["L"; "review"]; ["l"; "review/relay"; "review"];
                 ["rating"; toFixed2 (starsToRating (float_of_Z n))];
                 ["r"; normalizeRelayUrl rawUrl]] ++ tl)%list
               = Some ["rating"; toFixed2 (starsToRating (float_of_Z n))]) by reflexivity.
    assert (Hstars : ratingToStars
                       (if negb (is_nan (starsToRating (float_of_Z n)))
                        then Math_max 0
                               (Math_min 1
                                  (if (1 <? starsToRating (float_of_Z n))%float
                                   then (starsToRating (float_of_Z n) / 5)%float
                                   else starsToRating (float_of_Z n)))
                        else 0.5%float)
                     = float_of_Z n).
    { clear -Hn. assert (H : (n = 1 ∨ n = 2 ∨ n = 3 ∨ n = 4 ∨ n = 5)%Z) by lia.
      destruct H as [-> | [-> | [-> | [-> | ->] ] ] ]; vm_compute; reflexivity. }
    destruct (String.eqb (location_protocol env) "https:").
    + rewrite Hr, Hg. cbn [lookup list_lookup].
      destruct (normalizeRelayUrl rawUrl) as [|c u] eqn:E; [done|]. cbn [is_empty].
      eexists. split; [reflexivity|]. cbn [Reviews.relayUrl rating].
      split; [reflexivity|].
      unfold parse_rating_value. cbn [lookup list_lookup]. by rewrite Hrt.
    + rewrite <- (app_nil_r [_; _; _; _]), Hr, Hg. cbn [lookup list_lookup].
      destruct (normalizeRelayUrl rawUrl) as [|c u] eqn:E; [done|]. cbn [is_empty].
      eexists. split; [reflexivity|]. cbn [Reviews.relayUrl rating].
      split; [reflexivity|].
      unfold parse_rating_value. cbn [lookup list_lookup]. by rewrite Hrt.
Qed.

End SubmitFacts.

Lemma submitted_review_reads_back_witness :
  ReviewSubmit.mutationFn example_toFixed2 example_env (Some example_signer)
                          "wss://Relay.Example.com/" 3 " solid relay "
  = Ok ("wss://relay.example.com",
        mkEvent "signed" "me" 1986 "solid relay"
                [["L"; "review"]; ["l"; "review/relay"; "review"]; ["rating"; "0.60"];
                 ["r"; "wss://relay.example.com"]; ["client"; "relayopti.example"]]
                1700000000) ∧
  ∃ review,
    Reviews.parseReviewEvent example_parseFloat
      (mkEvent "signed" "me" 1986 "solid relay"
               [["L"; "review"]; ["l"; "review/relay"; "review"]; ["rating"; "0.60"];
                ["r"; "wss://relay.example.com"]; ["client"; "relayopti.example"]]
               1700000000) = Some review ∧
    Reviews.relayUrl review
    = normalizeRelayUrl (normalizeRelayUrl "wss://Relay.Example.com/") ∧
    ReviewQueries.ratingToStars (Reviews.rating review) = 3%float.
Proof.
  apply (submitted_review_reads_back example_parseFloat example_toFixed2 example_env
           example_signer "wss://Relay.Example.com/" " solid relay " 3);
    try reflexivity; [lia|vm_compute; discriminate].
Defined.
